(** * Step/section navigator of the landing page (src/utils/observer.js)

    A shallow embedding of [initObserver] and of the closures it creates.
    The closure variables ([sectionIndex], [stepIndex], [isAnimating],
    [activeOutside]), the part of the DOM the navigator owns and the
    animations handed to the animation engine are fields of one [State]
    record that every function threads through.

    The animation engine is modelled by the list of tweens it has been
    given and not yet completed.  A tween is a first-order description of
    one [gsap.to] / [gsap.fromTo] / [timeline.add] call site of the source
    together with the values its completion callback closes over; the
    engine completes them one at a time ([complete]), in an order that the
    navigator does not control.  Durations, easings and the style
    properties being interpolated belong to the engine and are not
    tracked, nor is what the engine prints to the console.

    The one statement of the source that can throw on a page that follows
    the DOM contract below is [layer.appendChild(node)] in [showOutside];
    the calls it aborts return an [Outcome]. *)

From Stdlib Require Import String ZArith List Bool Lia Arith.
Import ListNotations.
Open Scope Z_scope.

(** ** DOM contract *)

(** The four keys of the [outsideLayers] object (observer.js:33). *)
Inductive Position := left | right | top | bottom.

(** [dataset.position] of an outside template, by what the property lookup
    [outsideLayers[position]] (observer.js:156) finds under it:
    - [layer_name p]: one of the four keys, the lookup gives what
      [getElementById] returned for that layer;
    - [inherited_name]: a name that every object literal inherits from
      [Object.prototype] (["constructor"], ["toString"], ["valueOf"],
      ["hasOwnProperty"], ["__proto__"], ...), the lookup gives a function
      or the prototype object, which is truthy and is no DOM node;
    - [other_name]: the attribute is absent or holds any other string, the
      lookup gives [undefined]. *)
Inductive DataPosition :=
| layer_name (position : Position)
| inherited_name
| other_name.

(** [data-enter] of a step template. *)
Inductive Enter := enterLeft | enterRight | enterCenter.

(** An element of the document, by its markup. *)
Definition Element := string.

(** The elements with class [step-template] and [outside-template] are
    [<template>] elements, as the source's header requires; their
    [content] is a document fragment. *)

(** [<template class="step-template">]: [st_enter] is [dataset.enter]
    ([None] when the attribute is absent, empty or none of the three names,
    all of which the code enters from offset 0), [st_content] is
    [content.firstElementChild]. *)
Record StepTemplate := {
  st_enter : option Enter;
  st_content : option Element
}.

(** [<template class="outside-template">]: [ot_step] is the value of
    [Number(dataset.step)] when it is an integer ([None] for [NaN] and for
    any other number, none of which is [===] to a step index),
    [ot_position] is [dataset.position], [ot_content] is
    [content.firstElementChild]. *)
Record OutsideTemplate := {
  ot_step : option Z;
  ot_position : DataPosition;
  ot_content : option Element
}.

(** An element with class [section]: the results of its two
    [querySelectorAll] calls, in document order. *)
Record SectionEl := {
  stepTemplates : list StepTemplate;
  outsideTemplates : list OutsideTemplate
}.

(** A live node: [cloneNode(true)] makes a new object each time, which
    [node_id] tells apart. *)
Record Node := {
  node_id : nat;
  node_html : Element
}.

(** The four mount points; [None] where [getElementById] found nothing. *)
Record Layers := {
  outside_left : option (list Node);
  outside_right : option (list Node);
  outside_top : option (list Node);
  outside_bottom : option (list Node)
}.

(** ** Animation engine *)

Record Vars := { opacity : Z; x : Z; y : Z }.

Inductive Tween :=
| OutsideExit (node : Node) (to : Vars)
    (* hideOutside: gsap.to(node, {...to, onComplete: () => node.remove()}) *)
| OutsideEnter (node : Node) (from : Vars)
    (* showOutside: gsap.fromTo(node, from, {opacity: 1, x: 0, y: 0}) *)
| StepFadeOut (targets : list Node) (node : Node) (fromX : Z)
    (* renderDeviceStep: gsap.to(deviceContent.children, {opacity: 0, onComplete}) *)
| StepEnter (node : Node) (fromX : Z)
    (* renderDeviceStep: gsap.fromTo(node, {opacity: 0, x: fromX}, {..., onComplete}) *)
| SlideOut (current : Z) (yPercent : Z)
    (* goToSection: tl.to(current, {yPercent}) *)
| SlideIn (next : Z) (fromY : Z)
    (* goToSection: tl.fromTo(next, {yPercent: fromY}, {yPercent: 0}, 0) *)
| SwapCall (nextIndex entryStep : Z).
    (* goToSection: tl.add(() => {...}, DURATION.sectionSlide * 0.7) *)

(** ** Navigator state *)

Record State := {
  sectionIndex : Z;
  stepIndex : Z;
  isAnimating : bool;
  activeOutside : list (Node * Position);
  deviceChildren : list Node;      (* deviceContent.children *)
  outsideLayers : Layers;
  tweens : list Tween;             (* handed to the engine, not yet completed *)
  nextNode : nat;                  (* identity of the next clone *)
  observerOn : bool;               (* the Observer instance is alive *)
  keydownOn : bool                 (* onKeyDown is registered on window *)
}.

Definition set_sectionIndex (v : Z) (s : State) : State :=
  {| sectionIndex := v; stepIndex := stepIndex s; isAnimating := isAnimating s;
     activeOutside := activeOutside s; deviceChildren := deviceChildren s;
     outsideLayers := outsideLayers s; tweens := tweens s; nextNode := nextNode s;
     observerOn := observerOn s; keydownOn := keydownOn s |}.

Definition set_stepIndex (v : Z) (s : State) : State :=
  {| sectionIndex := sectionIndex s; stepIndex := v; isAnimating := isAnimating s;
     activeOutside := activeOutside s; deviceChildren := deviceChildren s;
     outsideLayers := outsideLayers s; tweens := tweens s; nextNode := nextNode s;
     observerOn := observerOn s; keydownOn := keydownOn s |}.

Definition set_isAnimating (v : bool) (s : State) : State :=
  {| sectionIndex := sectionIndex s; stepIndex := stepIndex s; isAnimating := v;
     activeOutside := activeOutside s; deviceChildren := deviceChildren s;
     outsideLayers := outsideLayers s; tweens := tweens s; nextNode := nextNode s;
     observerOn := observerOn s; keydownOn := keydownOn s |}.

Definition set_activeOutside (v : list (Node * Position)) (s : State) : State :=
  {| sectionIndex := sectionIndex s; stepIndex := stepIndex s; isAnimating := isAnimating s;
     activeOutside := v; deviceChildren := deviceChildren s;
     outsideLayers := outsideLayers s; tweens := tweens s; nextNode := nextNode s;
     observerOn := observerOn s; keydownOn := keydownOn s |}.

Definition set_deviceChildren (v : list Node) (s : State) : State :=
  {| sectionIndex := sectionIndex s; stepIndex := stepIndex s; isAnimating := isAnimating s;
     activeOutside := activeOutside s; deviceChildren := v;
     outsideLayers := outsideLayers s; tweens := tweens s; nextNode := nextNode s;
     observerOn := observerOn s; keydownOn := keydownOn s |}.

Definition set_outsideLayers (v : Layers) (s : State) : State :=
  {| sectionIndex := sectionIndex s; stepIndex := stepIndex s; isAnimating := isAnimating s;
     activeOutside := activeOutside s; deviceChildren := deviceChildren s;
     outsideLayers := v; tweens := tweens s; nextNode := nextNode s;
     observerOn := observerOn s; keydownOn := keydownOn s |}.

Definition set_tweens (v : list Tween) (s : State) : State :=
  {| sectionIndex := sectionIndex s; stepIndex := stepIndex s; isAnimating := isAnimating s;
     activeOutside := activeOutside s; deviceChildren := deviceChildren s;
     outsideLayers := outsideLayers s; tweens := v; nextNode := nextNode s;
     observerOn := observerOn s; keydownOn := keydownOn s |}.

Definition set_nextNode (v : nat) (s : State) : State :=
  {| sectionIndex := sectionIndex s; stepIndex := stepIndex s; isAnimating := isAnimating s;
     activeOutside := activeOutside s; deviceChildren := deviceChildren s;
     outsideLayers := outsideLayers s; tweens := tweens s; nextNode := v;
     observerOn := observerOn s; keydownOn := keydownOn s |}.

Definition set_listeners (obs key : bool) (s : State) : State :=
  {| sectionIndex := sectionIndex s; stepIndex := stepIndex s; isAnimating := isAnimating s;
     activeOutside := activeOutside s; deviceChildren := deviceChildren s;
     outsideLayers := outsideLayers s; tweens := tweens s; nextNode := nextNode s;
     observerOn := obs; keydownOn := key |}.

(** ** Helpers *)

Definition OFFSCREEN_OFFSET : Z := 40.

(** [arr[i]] of a JS array or NodeList: [undefined] out of range. *)
Definition item {A : Type} (arr : list A) (i : Z) : option A :=
  if i <? 0 then None else nth_error arr (Z.to_nat i).

(** [arr.length] *)
Definition len {A : Type} (arr : list A) : Z := Z.of_nat (length arr).

(** observer.js:78 *)
Definition getStepTemplates (sectionEl : SectionEl) : list StepTemplate :=
  stepTemplates sectionEl.

(** observer.js:92: the step shown on entering a section, step 1 (if it
    exists) going forward and the last step going backward. *)
Definition getEntryStepIndex (sectionEl : SectionEl) (direction : Z) : Z :=
  let steps := getStepTemplates sectionEl in
  let last := Z.max (len steps - 1) 0 in
  if direction >? 0 then Z.min 1 last else last.

(** observer.js:103 *)
Definition getOutsideTemplates (sectionEl : SectionEl) : list OutsideTemplate :=
  outsideTemplates sectionEl.

(** observer.js:107 *)
Definition getFromVarsForPosition (position : Position) : Vars :=
  match position with
  | left => {| opacity := 0; x := - OFFSCREEN_OFFSET; y := 0 |}
  | right => {| opacity := 0; x := OFFSCREEN_OFFSET; y := 0 |}
  | top => {| opacity := 0; x := 0; y := - OFFSCREEN_OFFSET |}
  | bottom => {| opacity := 0; x := 0; y := OFFSCREEN_OFFSET |}
  end.

(** observer.js:116 *)
Definition getToVarsForPosition (position : Position) : Vars :=
  match position with
  | left => {| opacity := 0; x := - OFFSCREEN_OFFSET; y := 0 |}
  | right => {| opacity := 0; x := OFFSCREEN_OFFSET; y := 0 |}
  | top => {| opacity := 0; x := 0; y := - OFFSCREEN_OFFSET |}
  | bottom => {| opacity := 0; x := 0; y := OFFSCREEN_OFFSET |}
  end.

(** [outsideLayers[position]] *)
Definition layer_get (position : Position) (l : Layers) : option (list Node) :=
  match position with
  | left => outside_left l
  | right => outside_right l
  | top => outside_top l
  | bottom => outside_bottom l
  end.

(** The same change of children in every layer that exists. *)
Definition layer_map (f : list Node -> list Node) (l : Layers) : Layers :=
  {| outside_left := option_map f (outside_left l);
     outside_right := option_map f (outside_right l);
     outside_top := option_map f (outside_top l);
     outside_bottom := option_map f (outside_bottom l) |}.

(** [layer.appendChild(node)] on the layer named [position]. *)
Definition layer_append (position : Position) (node : Node) (l : Layers) : Layers :=
  let add := option_map (fun kids => kids ++ [node]) in
  match position with
  | left => {| outside_left := add (outside_left l); outside_right := outside_right l;
               outside_top := outside_top l; outside_bottom := outside_bottom l |}
  | right => {| outside_left := outside_left l; outside_right := add (outside_right l);
                outside_top := outside_top l; outside_bottom := outside_bottom l |}
  | top => {| outside_left := outside_left l; outside_right := outside_right l;
              outside_top := add (outside_top l); outside_bottom := outside_bottom l |}
  | bottom => {| outside_left := outside_left l; outside_right := outside_right l;
                 outside_top := outside_top l; outside_bottom := add (outside_bottom l) |}
  end.

(** Membership among node identities. *)
Definition has_id (i : nat) (ids : list nat) : bool := existsb (Nat.eqb i) ids.

(** [node.remove()]: the node leaves whichever layer holds it. *)
Definition node_remove (node : Node) (l : Layers) : Layers :=
  layer_map (filter (fun k => negb (Nat.eqb (node_id k) (node_id node)))) l.

(** Every node mounted under one of the four layers. *)
Definition layer_nodes (l : Layers) : list Node :=
  let kids o := match o with Some k => k | None => [] end in
  kids (outside_left l) ++ kids (outside_right l)
    ++ kids (outside_top l) ++ kids (outside_bottom l).

(** The node is mounted under one of the layers. *)
Definition in_dom (node : Node) (s : State) : bool :=
  has_id (node_id node) (map node_id (layer_nodes (outsideLayers s))).

(** What [gsap.killTweensOf(targets)] leaves of one tween: a tween is
    dropped, its [onComplete] never called, once every target it had is
    among the killed ones; a tween on no target at all is not found by the
    lookup and stays. *)
Definition kill_tween (ids : list nat) (t : Tween) : option Tween :=
  match t with
  | OutsideExit node _ | OutsideEnter node _ | StepEnter node _ =>
      if has_id (node_id node) ids then None else Some t
  | StepFadeOut targets node fromX =>
      let rest := filter (fun k => negb (has_id (node_id k) ids)) targets in
      match targets, rest with
      | _ :: _, [] => None
      | _, _ => Some (StepFadeOut rest node fromX)
      end
  | SlideOut _ _ | SlideIn _ _ | SwapCall _ _ => Some t
  end.

(** [gsap.killTweensOf(targets)] on the tweens in flight. *)
Fixpoint killTweensOf (ids : list nat) (ts : list Tween) : list Tween :=
  match ts with
  | [] => []
  | t :: ts' =>
      match kill_tween ids t with
      | Some t' => t' :: killTweensOf ids ts'
      | None => killTweensOf ids ts'
      end
  end.

(** [cloneNode(true)] *)
Definition cloneNode (el : Element) (s : State) : Node * State :=
  ({| node_id := nextNode s; node_html := el |}, set_nextNode (S (nextNode s)) s).

(** ** Exceptions *)

(** How a call that may throw ends, with the state it leaves behind: the
    assignments made before a [throw] stay made. *)
Inductive Outcome :=
| returned (s : State)
| thrown (s : State).

(** The state a call leaves, however it ended.  Where an exception leaves
    an event handler or a callback of the engine the page goes on from this
    state. *)
Definition state_of (o : Outcome) : State :=
  match o with returned s | thrown s => s end.

Coercion state_of : Outcome >-> State.

(** [threw o]: the call ended in an exception. *)
Definition threw (o : Outcome) : bool :=
  match o with returned _ => false | thrown _ => true end.

(** [arr.forEach(f)]: an exception thrown by [f] ends the loop. *)
Fixpoint forEach {A : Type} (f : State -> A -> Outcome) (arr : list A) (s : State)
  : Outcome :=
  match arr with
  | [] => returned s
  | a :: arr' =>
      match f s a with
      | returned s' => forEach f arr' s'
      | thrown s' => thrown s'
      end
  end.

(** ** The closures of [initObserver] *)

Section Navigator.

Variable sections : list SectionEl.

(** *** Outside content *)

(** The body of the [forEach] of [hideOutside] (observer.js:131). *)
Definition hideOne (s : State) (entry : Node * Position) : State :=
  let '(node, position) := entry in
  let s := set_tweens (killTweensOf [node_id node] (tweens s)) s in
  set_tweens (tweens s ++ [OutsideExit node (getToVarsForPosition position)]) s.

(** observer.js:128 *)
Definition hideOutside (s : State) : State :=
  match activeOutside s with
  | [] => s
  | entries => set_activeOutside [] (fold_left hideOne entries s)
  end.

(** [Number(tpl.dataset.step) !== step] *)
Definition step_differs (tpl : OutsideTemplate) (step : Z) : bool :=
  match ot_step tpl with
  | Some tplStep => negb (tplStep =? step)
  | None => true
  end.

(** The body of the [forEach] of [showOutside] (observer.js:151).  Under
    an inherited name the guard [if (!layer) return] lets the lookup's
    result through, and [layer.appendChild(node)] (observer.js:162) throws a
    TypeError: the clone of line 159 has been made, nothing has been
    mounted, animated or recorded. *)
Definition showOne (step : Z) (s : State) (tpl : OutsideTemplate) : Outcome :=
  if step_differs tpl step then returned s else
  match ot_position tpl with
  | other_name => returned s
  | layer_name position =>
      match layer_get position (outsideLayers s) with
      | None => returned s
      | Some _ =>
          match ot_content tpl with
          | None => returned s
          | Some el =>
              let '(node, s) := cloneNode el s in
              let s := set_outsideLayers (layer_append position node (outsideLayers s)) s in
              let s := set_tweens
                         (tweens s ++ [OutsideEnter node (getFromVarsForPosition position)]) s in
              returned (set_activeOutside (activeOutside s ++ [(node, position)]) s)
          end
      end
  | inherited_name =>
      match ot_content tpl with
      | None => returned s
      | Some el =>
          let '(_, s) := cloneNode el s in
          thrown s
      end
  end.

(** observer.js:148 *)
Definition showOutside (sectionEl : SectionEl) (step : Z) (s : State) : Outcome :=
  forEach (showOne step) (getOutsideTemplates sectionEl) s.

(** *** Device content *)

(** [fromX] of [renderDeviceStep] (observer.js:193). *)
Definition enterOffset (tpl : StepTemplate) : Z :=
  match st_enter tpl with
  | Some enterLeft => - OFFSCREEN_OFFSET
  | Some enterRight => OFFSCREEN_OFFSET
  | Some enterCenter | None => 0
  end.

(** observer.js:183.  The fade-out's [onComplete] and the enter
    animation's [onComplete] are the [StepFadeOut] and [StepEnter] cases of
    [onComplete] below. *)
Definition renderDeviceStep (sectionEl : SectionEl) (step : Z) (s : State) : State :=
  let s := set_tweens (killTweensOf (map node_id (deviceChildren s)) (tweens s)) s in
  match item (getStepTemplates sectionEl) step with
  | None => s
  | Some tpl =>
      match st_content tpl with
      | None => s
      | Some el =>
          let '(node, s) := cloneNode el s in
          let fromX := enterOffset tpl in
          let s := set_isAnimating true s in
          set_tweens (tweens s ++ [StepFadeOut (deviceChildren s) node fromX]) s
      end
  end.

(** *** Section transitions *)

(** observer.js:235.  [sections[i]] is only read at indices the guards
    have checked; the [None] branches here and in [goForward],
    [goBackward] and [onComplete] stand for JavaScript reading a property
    of [undefined] and are never taken from a state [initObserver] built
    (see [reachable_inv]).  The callback given to [tl.add] is the
    [SwapCall] case of [onComplete]. *)
Definition goToSection (nextIndex direction : Z) (s : State) : State :=
  if (nextIndex <? 0) || (nextIndex >=? len sections) then s else
  if isAnimating s then s else
  let s := set_isAnimating true s in
  let current := sectionIndex s in
  match item sections nextIndex with
  | None => s
  | Some next =>
      let entryStep := getEntryStepIndex next direction in
      let s := hideOutside s in
      set_tweens
        (tweens s ++ [SlideOut current (if direction >? 0 then -100 else 100);
                      SlideIn nextIndex (if direction >? 0 then 100 else -100);
                      SwapCall nextIndex entryStep]) s
  end.

(** *** Navigation *)

(** observer.js:284.  [showOutside] is the last statement of its branch, so
    an exception it throws leaves [goForward] with nothing skipped; it ends
    the event handler that called [goForward], and the state is the one
    [showOutside] left.  The same holds for [goBackward] and for the
    timeline callback. *)
Definition goForward (s : State) : State :=
  if isAnimating s then s else
  match item sections (sectionIndex s) with
  | None => s
  | Some sectionEl =>
      let steps := getStepTemplates sectionEl in
      if stepIndex s <? len steps - 1 then
        let s := set_stepIndex (stepIndex s + 1) s in
        let s := hideOutside s in
        let s := renderDeviceStep sectionEl (stepIndex s) s in
        state_of (showOutside sectionEl (stepIndex s) s)
      else if sectionIndex s <? len sections - 1 then
        let s := hideOutside s in
        goToSection (sectionIndex s + 1) 1 s
      else s
  end.

(** observer.js:306 *)
Definition goBackward (s : State) : State :=
  if isAnimating s then s else
  match item sections (sectionIndex s) with
  | None => s
  | Some sectionEl =>
      if stepIndex s >? 0 then
        let s := set_stepIndex (stepIndex s - 1) s in
        let s := hideOutside s in
        let s := renderDeviceStep sectionEl (stepIndex s) s in
        state_of (showOutside sectionEl (stepIndex s) s)
      else if sectionIndex s >? 0 then
        let s := hideOutside s in
        goToSection (sectionIndex s - 1) (-1) s
      else s
  end.

(** The specification's [advance(direction)]: [+1] is what the Observer's
    [onDown] and the ArrowDown key call, [-1] what [onUp] and ArrowUp call. *)
Definition advance (direction : Z) (s : State) : State :=
  if direction >? 0 then goForward s else goBackward s.

(** observer.js:350.  The two keys differ, so the second test fails
    whenever [goForward] was called, also when it threw. *)
Definition onKeyDown (key : string) (s : State) : State :=
  let s := if String.eqb key "ArrowDown" then goForward s else s in
  if String.eqb key "ArrowUp" then goBackward s else s.

(** observer.js:362: [observer.kill()], [removeEventListener], [hideOutside()]. *)
Definition destroy (s : State) : State :=
  hideOutside (set_listeners false false s).

(** *** Completion callbacks *)

(** What the engine calls when tween [t] completes: the [onComplete] of
    observer.js:137, 204 and 216, and the timeline callback of
    observer.js:272. *)
Definition onComplete (t : Tween) (s : State) : State :=
  match t with
  | OutsideExit node _ =>
      set_outsideLayers (node_remove node (outsideLayers s)) s
  | StepFadeOut _ node fromX =>
      let s := set_deviceChildren [node] s in
      set_tweens (tweens s ++ [StepEnter node fromX]) s
  | StepEnter _ _ => set_isAnimating false s
  | SwapCall nextIndex entryStep =>
      let s := set_stepIndex entryStep (set_sectionIndex nextIndex s) in
      match item sections nextIndex with
      | None => s
      | Some next =>
          state_of (showOutside next entryStep (renderDeviceStep next entryStep s))
      end
  | OutsideEnter _ _ | SlideOut _ _ | SlideIn _ _ => s
  end.

(** The list without its [k]-th element. *)
Fixpoint remove_at {A : Type} (k : nat) (l : list A) : list A :=
  match k, l with
  | _, [] => []
  | O, _ :: l' => l'
  | S k', a :: l' => a :: remove_at k' l'
  end.

(** The engine finishes the [k]-th tween in flight and calls its callback. *)
Definition complete (k : nat) (s : State) : State :=
  match nth_error (tweens s) k with
  | None => s
  | Some t => onComplete t (set_tweens (remove_at k (tweens s)) s)
  end.

(** *** Event loop *)

Inductive Event :=
| OnDown                 (* Observer: swipe or wheel down *)
| OnUp                   (* Observer: swipe or wheel up *)
| KeyDown (key : string) (* window keydown *)
| Complete (k : nat)     (* the engine completes a tween *)
| Teardown.              (* the caller runs the returned destroy() *)

(** One turn of the event loop. *)
Definition handle (e : Event) (s : State) : State :=
  match e with
  | OnDown => if observerOn s then goForward s else s
  | OnUp => if observerOn s then goBackward s else s
  | KeyDown key => if keydownOn s then onKeyDown key s else s
  | Complete k => complete k s
  | Teardown => destroy s
  end.

(** The turns of the event loop for the events [es], in order. *)
Definition run (es : list Event) (s : State) : State :=
  fold_left (fun s e => handle e s) es s.

(** Upper bound on the completions a tween can still cause. *)
Definition cost (t : Tween) : nat :=
  match t with
  | SwapCall nextIndex _ =>
      match item sections nextIndex with
      | Some next => 3 + length (getOutsideTemplates next)
      | None => 1
      end
  | StepFadeOut _ _ _ => 2
  | _ => 1
  end.

(** Fuel that lets [settle_n] finish every tween of [ts]. *)
Definition total_cost (ts : list Tween) : nat :=
  fold_right (fun t n => (cost t + n)%nat) O ts.

(** Complete the oldest tween in flight, at most [fuel] times. *)
Fixpoint settle_n (fuel : nat) (s : State) : State :=
  match fuel with
  | O => s
  | S fuel' =>
      match tweens s with
      | [] => s
      | _ :: _ => settle_n fuel' (complete 0 s)
      end
  end.

(** Let every animation in flight, and every animation those start, run to
    completion with no input in between. *)
Definition settle (s : State) : State := settle_n (total_cost (tweens s)) s.

End Navigator.

(** ** Initialization *)

Record Page := {
  pg_sections : list SectionEl;         (* gsap.utils.toArray(".section") *)
  pg_device : option (list Node);       (* #device-content and its children *)
  pg_layers : Layers                    (* #outside-left, ... *)
}.

(** What the call of [initObserver] hands back: the empty function of
    observer.js:44, [destroy], or nothing when the call ends in the
    exception of [showOutside]. *)
Inductive TeardownFn := noop | destroy_fn | nothing.

(** [console]: the messages [initObserver] itself passes to [console.warn]
    (observer.js:42); what the animation library prints on its own account
    is not recorded.  [navigator]: the closure state, the listeners and the
    tweens, if created. *)
Record InitResult := {
  console : list string;
  navigator : option State;
  teardown : TeardownFn
}.

(** An identity above those of the nodes already in the page. *)
Definition fresh_id (p : Page) : nat :=
  let kids := match pg_device p with Some k => k | None => [] end in
  S (fold_right Nat.max O (map node_id (kids ++ layer_nodes (pg_layers p)))).

(** [initSectionsPosition] only sets style properties and has no
    counterpart here.  When [showOutside] throws (observer.js:333) the call
    ends there: the closure state and the tweens already handed to the
    engine exist, no listener is registered and nothing is returned. *)
Definition initObserver (p : Page) : InitResult :=
  match pg_sections p, pg_device p with
  | section0 :: _, Some kids =>
      let s := {| sectionIndex := 0; stepIndex := 0; isAnimating := false;
                  activeOutside := []; deviceChildren := kids;
                  outsideLayers := pg_layers p; tweens := [];
                  nextNode := fresh_id p;
                  observerOn := false; keydownOn := false |} in
      let s := renderDeviceStep section0 0 s in
      match showOutside section0 0 s with
      | thrown s =>
          {| console := []; navigator := Some s; teardown := nothing |}
      | returned s =>
          let s := set_listeners true true s in
          {| console := []; navigator := Some s; teardown := destroy_fn |}
      end
  | _, _ =>
      {| console := ["Observer: missing DOM nodes."%string];
         navigator := None; teardown := noop |}
  end.

(** The closure variables as declared (observer.js:68), before the first
    render. *)
Definition init_state (p : Page) (kids : list Node) : State :=
  {| sectionIndex := 0; stepIndex := 0; isAnimating := false;
     activeOutside := []; deviceChildren := kids;
     outsideLayers := pg_layers p; tweens := [];
     nextNode := fresh_id p;
     observerOn := false; keydownOn := false |}.

(** Calling the returned function, where there is one. *)
Definition call_teardown (f : TeardownFn) (nav : option State) : option State :=
  match f with
  | noop | nothing => nav
  | destroy_fn => option_map destroy nav
  end.

(** ** Derived notions used by the statements *)

(** Last step index of section [i]: [Math.max(steps.length - 1, 0)]. *)
Definition lastStepOf (sections : list SectionEl) (i : Z) : Z :=
  match item sections i with
  | Some sectionEl => Z.max (len (getStepTemplates sectionEl) - 1) 0
  | None => 0
  end.

(** [steps.length] of section [i]. *)
Definition stepCountOf (sections : list SectionEl) (i : Z) : Z :=
  match item sections i with
  | Some sectionEl => len (getStepTemplates sectionEl)
  | None => 0
  end.

(** Tweens on the path that ends by clearing [isAnimating]: the timeline
    callback, the fade-out it or a step change starts, and the enter
    animation the fade-out starts. *)
Definition chain (t : Tween) : bool :=
  match t with
  | SwapCall _ _ | StepFadeOut _ _ _ | StepEnter _ _ => true
  | _ => false
  end.

(** How many tweens of the busy chain are in flight. *)
Definition chains (ts : list Tween) : nat := List.length (filter chain ts).

Definition is_swap (t : Tween) : bool :=
  match t with SwapCall _ _ => true | _ => false end.

(** Section transitions started and not yet committed. *)
Definition swaps (ts : list Tween) : list Tween := filter is_swap ts.

(** Tweens and callbacks of a section transition's timeline. *)
Definition is_slide (t : Tween) : bool :=
  match t with SlideOut _ _ | SlideIn _ _ | SwapCall _ _ => true | _ => false end.

Definition is_step_enter (t : Tween) : bool :=
  match t with StepEnter _ _ => true | _ => false end.

(** States of a navigator that [initObserver] created on page [p], after
    any sequence of input, engine and teardown events. *)
Inductive reachable (p : Page) : State -> Prop :=
| reach_init s0 :
    navigator (initObserver p) = Some s0 -> reachable p s0
| reach_step s e :
    reachable p s -> reachable p (handle (pg_sections p) e s).

(** The event [e], arriving in state [s], is the completion of a step's
    enter animation. *)
Definition releases (e : Event) (s : State) : bool :=
  match e with
  | Complete k =>
      match nth_error (tweens s) k with
      | Some t => is_step_enter t
      | None => false
      end
  | _ => false
  end.

(** No event of the run [es] from [s] completes an enter animation. *)
Fixpoint holds_busy (sections : list SectionEl) (es : list Event) (s : State) : bool :=
  match es with
  | [] => true
  | e :: es' => negb (releases e s) && holds_busy sections es' (handle sections e s)
  end.

(** [f] applied [n] times. *)
Fixpoint times {A : Type} (n : nat) (f : A -> A) (a : A) : A :=
  match n with
  | O => a
  | S n' => f (times n' f a)
  end.

(** An outside template that [showOutside] mounts for [step]: its step
    matches, its position names a layer that exists, and it has content. *)
Definition shown (l : Layers) (step : Z) (tpl : OutsideTemplate) : option (Element * Position) :=
  if step_differs tpl step then None else
  match ot_position tpl with
  | layer_name position =>
      match layer_get position l, ot_content tpl with
      | Some _, Some el => Some (el, position)
      | _, _ => None
      end
  | inherited_name | other_name => None
  end.

Fixpoint shown_list (l : Layers) (step : Z) (tpls : list OutsideTemplate)
  : list (Element * Position) :=
  match tpls with
  | [] => []
  | tpl :: tpls' =>
      match shown l step tpl with
      | Some ep => ep :: shown_list l step tpls'
      | None => shown_list l step tpls'
      end
  end.

(** [showOutside] called for [step] throws at this template: its step
    matches, its position is an inherited name, and it has content. *)
Definition throws (step : Z) (tpl : OutsideTemplate) : bool :=
  negb (step_differs tpl step) &&
  match ot_position tpl, ot_content tpl with
  | inherited_name, Some _ => true
  | _, _ => false
  end.

(** [showOutside] called for [step] on these templates throws. *)
Definition will_throw (step : Z) (tpls : list OutsideTemplate) : bool :=
  existsb (throws step) tpls.

(** The templates the [forEach] of [showOutside] gets past: those before
    the first one at which it throws. *)
Fixpoint before_throw (step : Z) (tpls : list OutsideTemplate) : list OutsideTemplate :=
  match tpls with
  | [] => []
  | tpl :: tpls' => if throws step tpl then [] else tpl :: before_throw step tpls'
  end.

(** The clone made at the template where [showOutside] throws, which is
    mounted nowhere. *)
Definition lost_clone (step : Z) (tpls : list OutsideTemplate) : nat :=
  if will_throw step tpls then 1%nat else O.

(** The outside templates whose [data-step] equals [step]. *)
Definition matching (step : Z) (tpls : list OutsideTemplate) : list OutsideTemplate :=
  filter (fun tpl => negb (step_differs tpl step)) tpls.

(** An active instance by what it shows and where. *)
Definition label (entry : Node * Position) : Element * Position :=
  (node_html (fst entry), snd entry).

(** ** Notions used by the proofs and the examples *)

(** The tweens in flight after [hideOutside] on the active set [entries]. *)
Definition hide_tweens (entries : list (Node * Position)) (ts : list Tween) : list Tween :=
  fold_left
    (fun ts entry =>
       killTweensOf [node_id (fst entry)] ts
         ++ [OutsideExit (fst entry) (getToVarsForPosition (snd entry))])
    entries ts.

(** The clones [showOutside] makes, numbered from [k]. *)
Fixpoint mk_nodes (k : nat) (eps : list (Element * Position)) : list (Node * Position) :=
  match eps with
  | [] => []
  | (el, position) :: eps' =>
      ({| node_id := k; node_html := el |}, position) :: mk_nodes (S k) eps'
  end.

(** The enter animation [showOutside] starts for a clone. *)
Definition enter_tween (entry : Node * Position) : Tween :=
  OutsideEnter (fst entry) (getFromVarsForPosition (snd entry)).

(** A clone appended to its layer. *)
Definition mount (l : Layers) (entry : Node * Position) : Layers :=
  layer_append (snd entry) (fst entry) l.

(** The element [renderDeviceStep] clones for [step], when there is one. *)
Definition step_source (sectionEl : SectionEl) (step : Z) : option (StepTemplate * Element) :=
  match item (getStepTemplates sectionEl) step with
  | Some tpl =>
      match st_content tpl with
      | Some el => Some (tpl, el)
      | None => None
      end
  | None => None
  end.

(** A timeline callback carries a position on the grid. *)
Definition swap_ok (sections : list SectionEl) (t : Tween) : Prop :=
  match t with
  | SwapCall n e => 0 <= n < len sections /\ 0 <= e <= lastStepOf sections n
  | _ => True
  end.

(** The position is on the grid, at most one tween of the busy chain is in
    flight, none is when the navigator is idle, and a pending timeline
    callback carries a position on the grid. *)
Record Inv (sections : list SectionEl) (s : State) : Prop := {
  inv_section : 0 <= sectionIndex s < len sections;
  inv_step : 0 <= stepIndex s <= lastStepOf sections (sectionIndex s);
  inv_chain : (chains (tweens s) <= 1)%nat;
  inv_idle : isAnimating s = false -> chains (tweens s) = O;
  inv_swap : Forall (swap_ok sections) (tweens s)
}.

(** The timeline tweens in flight. *)
Definition slides (ts : list Tween) : list Tween := filter is_slide ts.

(** Where the navigator stands once every pending timeline callback has run. *)
Definition final_pos (ts : list Tween) (pos : Z * Z) : Z * Z :=
  fold_left
    (fun pos t => match t with SwapCall n e => (n, e) | _ => pos end) ts pos.

(** The navigator's position, (sectionIndex, stepIndex). *)
Definition position (s : State) : Z * Z := (sectionIndex s, stepIndex s).

(** Where the tweens in flight will leave the navigator. *)
Definition target (s : State) : Z * Z := final_pos (swaps (tweens s)) (position s).

(** The busy flag is backed by an animation that will clear it. *)
Definition releasing (s : State) : Prop :=
  swaps (tweens s) = [] /\ (isAnimating s = true -> (1 <= chains (tweens s))%nat).

(** A step change inside the section: what both directions do with the
    new step index [step]. *)
Definition change_step (sectionEl : SectionEl) (step : Z) (s : State) : State :=
  state_of (showOutside sectionEl step
    (renderDeviceStep sectionEl step (hideOutside (set_stepIndex step s)))).

(** Starting a section transition from an idle navigator. *)
Definition start_transition (nextIndex direction : Z) (next : SectionEl) (s : State) : State :=
  {| sectionIndex := sectionIndex s; stepIndex := stepIndex s;
     isAnimating := true;
     activeOutside := [];
     deviceChildren := deviceChildren s;
     outsideLayers := outsideLayers s;
     tweens := hide_tweens (activeOutside s) (tweens s)
                 ++ [SlideOut (sectionIndex s) (if direction >? 0 then -100 else 100);
                     SlideIn nextIndex (if direction >? 0 then 100 else -100);
                     SwapCall nextIndex (getEntryStepIndex next direction)];
     nextNode := nextNode s;
     observerOn := observerOn s; keydownOn := keydownOn s |}.

(** ** Example pages *)

(** A step template with content [el] and no [data-enter]. *)
Definition step_of (el : Element) : StepTemplate :=
  {| st_enter := None; st_content := Some el |}.

(** All four outside layers present and empty. *)
Definition four_layers : Layers :=
  {| outside_left := Some []; outside_right := Some [];
     outside_top := Some []; outside_bottom := Some [] |}.

(** Section A of the specification's scenarios: three steps, a left
    decoration for step 0 and a top decoration for step 1. *)
Definition story_A : SectionEl :=
  {| stepTemplates := [step_of "a0"%string; step_of "a1"%string; step_of "a2"%string];
     outsideTemplates :=
       [{| ot_step := Some 0; ot_position := layer_name left;
           ot_content := Some "hint"%string |};
        {| ot_step := Some 1; ot_position := layer_name top;
           ot_content := Some "badge"%string |}] |}.

(** Section B: a single step. *)
Definition story_B : SectionEl :=
  {| stepTemplates := [step_of "b0"%string]; outsideTemplates := [] |}.

(** Sections A then B, an empty device, all layers. *)
Definition story_page : Page :=
  {| pg_sections := [story_A; story_B]; pg_device := Some []; pg_layers := four_layers |}.

(** The navigator of page [p] once its first render has finished. *)
Definition boot (p : Page) : option State :=
  option_map (settle (pg_sections p)) (navigator (initObserver p)).

(** One navigation request followed by the completion of every animation. *)
Definition advance_and_settle (sections : list SectionEl) (d : Z) (s : State) : State :=
  settle sections (advance sections d s).

(** The navigator of page [p] after the events [es]. *)
Definition replay (p : Page) (es : list Event) : option State :=
  option_map (run (pg_sections p) es) (navigator (initObserver p)).

(** Enough completions to finish the animations of one request on the
    example pages. *)
Definition drain : list Event := repeat (Complete 0) 8.

(** Sections B then A: entering A forward lands on its step 1. *)
Definition tour_page : Page :=
  {| pg_sections := [story_B; story_A]; pg_device := Some []; pg_layers := four_layers |}.

(** Three requests forward on the story page: A1, A2, then section B. *)
Definition to_section_B : list Event :=
  drain ++ [OnDown] ++ drain ++ [KeyDown "ArrowDown"%string] ++ drain ++ [OnDown] ++ drain.

(** A page whose only section has no step template. *)
Definition bare_page : Page :=
  {| pg_sections := [{| stepTemplates := []; outsideTemplates := [] |}];
     pg_device := Some []; pg_layers := four_layers |}.

(** The story page without its device container. *)
Definition headless_page : Page :=
  {| pg_sections := [story_A; story_B]; pg_device := None; pg_layers := four_layers |}.

(** Busy with nothing in flight that could clear the flag. *)
Definition stuck (s : State) : Prop :=
  isAnimating s = true /\ chains (tweens s) = O.

(** Section B followed by a section without step templates. *)
Definition hollow_page : Page :=
  {| pg_sections := [story_B; {| stepTemplates := []; outsideTemplates := [] |}];
     pg_device := Some []; pg_layers := four_layers |}.

(** Section A with one more outside template, for step 1 and ahead of the
    badge, whose [data-position] is an inherited name. *)
Definition story_A_inherited : SectionEl :=
  {| stepTemplates := stepTemplates story_A;
     outsideTemplates :=
       [{| ot_step := Some 0; ot_position := layer_name left;
           ot_content := Some "hint"%string |};
        {| ot_step := Some 1; ot_position := inherited_name;
           ot_content := Some "ghost"%string |};
        {| ot_step := Some 1; ot_position := layer_name top;
           ot_content := Some "badge"%string |}] |}.

(** The story page with that section A. *)
Definition inherited_page : Page :=
  {| pg_sections := [story_A_inherited; story_B]; pg_device := Some [];
     pg_layers := four_layers |}.

(** A page whose first section has such a template for step 0. *)
Definition inherited_first_page : Page :=
  {| pg_sections :=
       [{| stepTemplates := [step_of "c0"%string];
           outsideTemplates :=
             [{| ot_step := Some 0; ot_position := inherited_name;
                 ot_content := Some "ghost"%string |}] |}];
     pg_device := Some []; pg_layers := four_layers |}.

(** ** Node identities *)

(** The node an exit animation will remove. *)
Definition exit_id (t : Tween) : list nat :=
  match t with OutsideExit n _ => [node_id n] | _ => [] end.

(** The clone a fade-out will put in the device. *)
Definition fade_id (t : Tween) : list nat :=
  match t with StepFadeOut _ n _ => [node_id n] | _ => [] end.

(** Nodes waiting for their exit animation to remove them. *)
Definition exit_ids (ts : list Tween) : list nat := flat_map exit_id ts.

(** Clones waiting for a fade-out to put them in the device. *)
Definition fade_ids (ts : list Tween) : list nat := flat_map fade_id ts.

(** Identities of the active outside instances. *)
Definition active_ids (s : State) : list nat :=
  map (fun e => node_id (fst e)) (activeOutside s).

(** Identities of outside clones, active or leaving. *)
Definition outside_ids (s : State) : list nat := active_ids s ++ exit_ids (tweens s).

(** Identities of device content, mounted or about to be. *)
Definition device_ids (s : State) : list nat :=
  map node_id (deviceChildren s) ++ fade_ids (tweens s).

(** Clones are numbered apart: outside nodes and device nodes never share an
    identity, and every identity in use is below the next one. *)
Record Fresh (s : State) : Prop := {
  fresh_outside : forall i, In i (outside_ids s) -> (i < nextNode s)%nat;
  fresh_device : forall i, In i (device_ids s) -> (i < nextNode s)%nat;
  fresh_apart : forall i, In i (outside_ids s) -> ~ In i (device_ids s);
  fresh_active : NoDup (active_ids s)
}.

(** Identities of the nodes mounted under the layers. *)
Definition dom_ids (l : Layers) : list nat := map node_id (layer_nodes l).

(** The node numbered [i] is out of the DOM for good. *)
Definition gone (i : nat) (s : State) : Prop :=
  (i < nextNode s)%nat /\ ~ In i (dom_ids (outsideLayers s)).

(** The node numbered [i] has its exit animation in flight, or is gone. *)
Definition leaving (i : nat) (s : State) : Prop :=
  Fresh s /\ (In i (exit_ids (tweens s)) \/ gone i s).

(** The story page without [#outside-top]. *)
Definition topless_page : Page :=
  {| pg_sections := [story_A; story_B]; pg_device := Some [];
     pg_layers := {| outside_left := Some []; outside_right := Some [];
                     outside_top := None; outside_bottom := Some [] |} |}.

(** ** Notions used by the further properties *)

(** Wheel, touch, pointer and key events, as opposed to what the engine
    and the caller of [destroy] do. *)
Definition is_input (e : Event) : bool :=
  match e with
  | OnDown | OnUp | KeyDown _ => true
  | Complete _ | Teardown => false
  end.

(** The event [e], arriving in state [s], is the timeline reaching the
    callback of a section transition. *)
Definition completes_swap (e : Event) (s : State) : bool :=
  match e with
  | Complete k =>
      match nth_error (tweens s) k with
      | Some t => is_swap t
      | None => false
      end
  | _ => false
  end.

(** The event [e], arriving in state [s], is the completion of the device
    content's fade-out. *)
Definition completes_fade (e : Event) (s : State) : bool :=
  match e with
  | Complete k =>
      match nth_error (tweens s) k with
      | Some (StepFadeOut _ _ _) => true
      | _ => false
      end
  | _ => false
  end.

(** The outside templates [showOutside] mounts for the navigator's current
    section and step: those with a matching step, an existing layer and
    content, among the templates it gets past. *)
Definition expected_outside (sections : list SectionEl) (s : State)
  : list (Element * Position) :=
  match item sections (sectionIndex s) with
  | Some sectionEl =>
      shown_list (outsideLayers s) (stepIndex s)
        (before_throw (stepIndex s) (getOutsideTemplates sectionEl))
  | None => []
  end.

(** The device nodes a tween of the busy chain animates. *)
Definition chain_targets (t : Tween) : list nat :=
  match t with
  | StepFadeOut targets _ _ => map node_id targets
  | StepEnter node _ => [node_id node]
  | _ => []
  end.

(** The section has a step, and each of its step templates has an element
    to clone. *)
Definition renderable (sectionEl : SectionEl) : bool :=
  match getStepTemplates sectionEl with
  | [] => false
  | steps =>
      forallb (fun tpl => match st_content tpl with Some _ => true | None => false end)
              steps
  end.

(** The active outside nodes are mounted where they say, and none of them
    is on its way out. *)
Record Mounted (s : State) : Prop := {
  mounted_in_layer :
    forall node position, In (node, position) (activeOutside s) ->
      exists kids, layer_get position (outsideLayers s) = Some kids /\ In node kids;
  mounted_not_leaving :
    forall i, In i (active_ids s) -> ~ In i (exit_ids (tweens s))
}.

(** Every node under a layer was in the page from the start, is active, or
    has its exit animation in flight. *)
Definition accounted (p : Page) (s : State) : Prop :=
  forall node, In node (layer_nodes (outsideLayers s)) ->
    In node (layer_nodes (pg_layers p)) \/
    In (node_id node) (active_ids s) \/
    In (node_id node) (exit_ids (tweens s)).

(** The active set is what the current position calls for, and is empty
    while a section transition waits for its callback. *)
Record Decorated (sections : list SectionEl) (s : State) : Prop := {
  decorated_pending : swaps (tweens s) <> [] -> activeOutside s = [];
  decorated_live :
    observerOn s = true -> swaps (tweens s) = [] ->
    map label (activeOutside s) = expected_outside sections s;
  decorated_listeners : keydownOn s = observerOn s
}.

(** The busy flag has a tween in flight that leads to its release, and the
    tweens of the busy chain animate device content only. *)
Record Backed (s : State) : Prop := {
  backed_busy : isAnimating s = true -> (1 <= chains (tweens s))%nat;
  backed_targets :
    forall t i, In t (tweens s) -> In i (chain_targets t) ->
                In i (map node_id (deviceChildren s))
}.

(** What no input event and no helper of the navigator touches: the
    section, the device content and the listeners. *)
Definition kept (s s' : State) : Prop :=
  sectionIndex s' = sectionIndex s /\ deviceChildren s' = deviceChildren s /\
  observerOn s' = observerOn s /\ keydownOn s' = keydownOn s.

(** The tweens of the busy chain among [ts] animate only nodes numbered
    in [ids]. *)
Definition targets_within (ids : list nat) (ts : list Tween) : Prop :=
  forall t i, In t ts -> In i (chain_targets t) -> In i ids.

(** [node], entering from offset [fromX], is what [renderDeviceStep] clones
    for step [step] of section [i]: the first element of that step's
    template, with the offset its [data-enter] asks for. *)
Definition clone_of_step (sections : list SectionEl) (i step : Z) (node : Node) (fromX : Z)
  : Prop :=
  exists sectionEl tpl,
    item sections i = Some sectionEl /\
    item (getStepTemplates sectionEl) step = Some tpl /\
    st_content tpl = Some (node_html node) /\
    fromX = enterOffset tpl.

(** [node] is a clone of the content of some step template of the page. *)
Definition step_clone (sections : list SectionEl) (node : Node) : Prop :=
  exists i step fromX, clone_of_step sections i step node fromX.

(** Every fade-out in flight carries the clone made for the step the
    navigator stands on. *)
Definition Staged (sections : list SectionEl) (s : State) : Prop :=
  forall targets node fromX,
    In (StepFadeOut targets node fromX) (tweens s) ->
    clone_of_step sections (sectionIndex s) (stepIndex s) node fromX.

(** * Properties *)

(** ** Records and lists *)

Lemma set_tweens_same (s : State) : set_tweens (tweens s) s = s.
Proof. destruct s; reflexivity. Qed.

Lemma set_activeOutside_same (s : State) : set_activeOutside (activeOutside s) s = s.
Proof. destruct s; reflexivity. Qed.

Lemma item_Some {A : Type} (arr : list A) (i : Z) (a : A) :
  item arr i = Some a -> 0 <= i < len arr.
Proof.
  unfold item, len. destruct (i <? 0) eqn:E; [discriminate|].
  intros H. apply Z.ltb_ge in E.
  assert (Hn : nth_error arr (Z.to_nat i) <> None) by congruence.
  apply nth_error_Some in Hn. lia.
Qed.

Lemma item_in_range {A : Type} (arr : list A) (i : Z) :
  0 <= i < len arr -> exists a, item arr i = Some a.
Proof.
  unfold item, len. intros [H0 H1].
  destruct (i <? 0) eqn:E; [apply Z.ltb_lt in E; lia|].
  destruct (nth_error arr (Z.to_nat i)) eqn:N; [eauto|].
  apply nth_error_None in N. lia.
Qed.

Lemma chains_app (ts us : list Tween) : chains (ts ++ us) = (chains ts + chains us)%nat.
Proof. unfold chains. rewrite filter_app, length_app. reflexivity. Qed.

Lemma swaps_app (ts us : list Tween) : swaps (ts ++ us) = swaps ts ++ swaps us.
Proof. apply filter_app. Qed.

Lemma swaps_nil_of_chains (ts : list Tween) : chains ts = O -> swaps ts = [].
Proof.
  unfold chains, swaps. induction ts as [|t ts IH]; simpl; [reflexivity|].
  destruct t; simpl; try discriminate; auto.
Qed.

(** ** [killTweensOf] *)

Lemma kill_tween_shape (ids : list nat) (t t' : Tween) :
  kill_tween ids t = Some t' ->
  t' = t \/ exists ts ts' n fx, t = StepFadeOut ts n fx /\ t' = StepFadeOut ts' n fx.
Proof.
  destruct t; simpl; intros H;
    try (destruct (has_id _ _); inversion H; auto; fail);
    try (inversion H; auto; fail).
  right. exists targets.
  destruct targets as [|k ks].
  - simpl in H. inversion H. eauto.
  - destruct (filter _ (k :: ks)) eqn:F; [discriminate|]. inversion H. eauto.
Qed.

Lemma kill_tween_chain (ids : list nat) (t t' : Tween) :
  kill_tween ids t = Some t' -> chain t' = chain t.
Proof.
  intros H. destruct (kill_tween_shape _ _ _ H) as [->|(ts & ts' & n & fx & -> & ->)];
    reflexivity.
Qed.

Lemma kill_tween_swap (ids : list nat) (t : Tween) :
  is_swap t = true -> kill_tween ids t = Some t.
Proof. destruct t; simpl; try discriminate; reflexivity. Qed.

Lemma kill_tween_not_swap (ids : list nat) (t t' : Tween) :
  kill_tween ids t = Some t' -> is_swap t' = is_swap t.
Proof.
  intros H. destruct (kill_tween_shape _ _ _ H) as [->|(ts & ts' & n & fx & -> & ->)];
    reflexivity.
Qed.

Lemma chains_kill (ids : list nat) (ts : list Tween) :
  (chains (killTweensOf ids ts) <= chains ts)%nat.
Proof.
  unfold chains. induction ts as [|t ts IH]; simpl; [lia|].
  destruct (kill_tween ids t) as [t'|] eqn:K; simpl.
  - rewrite (kill_tween_chain _ _ _ K). destruct (chain t); simpl; lia.
  - destruct (chain t); simpl; lia.
Qed.

Lemma swaps_kill (ids : list nat) (ts : list Tween) :
  swaps (killTweensOf ids ts) = swaps ts.
Proof.
  unfold swaps. induction ts as [|t ts IH]; simpl; [reflexivity|].
  destruct (is_swap t) eqn:S.
  - rewrite (kill_tween_swap ids t S). simpl. rewrite S, IH. reflexivity.
  - destruct (kill_tween ids t) as [t'|] eqn:K; simpl; [|exact IH].
    rewrite (kill_tween_not_swap _ _ _ K), S. exact IH.
Qed.

Lemma Forall_kill (P : Tween -> Prop) (ids : list nat) (ts : list Tween) :
  (forall ks ks' n fx, P (StepFadeOut ks n fx) -> P (StepFadeOut ks' n fx)) ->
  Forall P ts -> Forall P (killTweensOf ids ts).
Proof.
  intros HP. induction 1 as [|t ts Ht Hts IH]; simpl; [constructor|].
  destruct (kill_tween ids t) as [t'|] eqn:K; [|exact IH].
  constructor; [|exact IH].
  destruct (kill_tween_shape _ _ _ K) as [->|(ks & ks' & n & fx & -> & ->)]; eauto.
Qed.

(** ** [hideOutside] *)

Lemma fold_hideOne (entries : list (Node * Position)) (s : State) :
  fold_left hideOne entries s = set_tweens (hide_tweens entries (tweens s)) s.
Proof.
  revert s. induction entries as [|[node position] es IH]; intros s; simpl.
  - symmetry. apply set_tweens_same.
  - rewrite IH. reflexivity.
Qed.

Lemma hideOutside_eq (s : State) :
  hideOutside s =
  set_activeOutside [] (set_tweens (hide_tweens (activeOutside s) (tweens s)) s).
Proof.
  unfold hideOutside. destruct (activeOutside s) eqn:E.
  - simpl. rewrite set_tweens_same. rewrite <- E. symmetry. apply set_activeOutside_same.
  - rewrite fold_hideOne. reflexivity.
Qed.

Lemma chains_hide (entries : list (Node * Position)) (ts : list Tween) :
  (chains (hide_tweens entries ts) <= chains ts)%nat.
Proof.
  revert ts. induction entries as [|e es IH]; intros ts; simpl; [lia|].
  etransitivity; [apply IH|]. rewrite chains_app. simpl.
  pose proof (chains_kill [node_id (fst e)] ts). unfold chains at 2. simpl. lia.
Qed.

Lemma swaps_hide (entries : list (Node * Position)) (ts : list Tween) :
  swaps (hide_tweens entries ts) = swaps ts.
Proof.
  revert ts. induction entries as [|e es IH]; intros ts; simpl; [reflexivity|].
  rewrite IH, swaps_app, swaps_kill. simpl. apply app_nil_r.
Qed.

Lemma Forall_hide (P : Tween -> Prop) (entries : list (Node * Position)) (ts : list Tween) :
  (forall ks ks' n fx, P (StepFadeOut ks n fx) -> P (StepFadeOut ks' n fx)) ->
  (forall n v, P (OutsideExit n v)) ->
  Forall P ts -> Forall P (hide_tweens entries ts).
Proof.
  intros HP HE. revert ts. induction entries as [|e es IH]; intros ts H; simpl; [exact H|].
  apply IH. apply Forall_app. split; [apply Forall_kill; assumption|].
  constructor; [apply HE|constructor].
Qed.

Lemma hide_tweens_exits (entries : list (Node * Position)) (ts : list Tween) :
  NoDup (map (fun e => node_id (fst e)) entries) ->
  forall e, In e entries ->
  In (OutsideExit (fst e) (getToVarsForPosition (snd e))) (hide_tweens entries ts).
Proof.
  revert ts. induction entries as [|a es IH]; intros ts ND e HIn; [destruct HIn|].
  inversion ND as [|? ? Hnot ND']; subst. simpl.
  destruct HIn as [->|HIn]; [|apply IH; assumption].
  clear IH.
  assert (G : forall us, In (OutsideExit (fst e) (getToVarsForPosition (snd e))) us ->
                         In (OutsideExit (fst e) (getToVarsForPosition (snd e)))
                            (hide_tweens es us)).
  { clear ND. induction es as [|b es IH]; intros us Hus; simpl; [exact Hus|].
    inversion ND' as [|? ? Hb ND'']; subst.
    apply IH; [intros H; apply Hnot; right; exact H|exact ND''|].
    apply in_or_app. left.
    assert (Hne : node_id (fst e) <> node_id (fst b)).
    { intros Heq. apply Hnot. left. symmetry. exact Heq. }
    clear - Hus Hne. induction us as [|u us IHu]; [destruct Hus|].
    simpl. destruct Hus as [->|Hus].
    - simpl. destruct (Nat.eqb_spec (node_id (fst e)) (node_id (fst b))); [contradiction|].
      simpl. left. reflexivity.
    - destruct (kill_tween _ u); [right|]; apply IHu; exact Hus. }
  apply G. apply in_or_app. right. left. reflexivity.
Qed.

(** ** [showOutside] *)

Lemma layer_get_append_none (p q : Position) (n : Node) (l : Layers) :
  layer_get p (layer_append q n l) = None <-> layer_get p l = None.
Proof.
  destruct p, q, l as [a b c d]; simpl; try tauto;
    (destruct a, b, c, d; simpl; split; congruence).
Qed.

Lemma shown_append (q : Position) (n : Node) (l : Layers) (step : Z) (tpl : OutsideTemplate) :
  shown (layer_append q n l) step tpl = shown l step tpl.
Proof.
  unfold shown. destruct (step_differs tpl step); [reflexivity|].
  destruct (ot_position tpl) as [p| |]; [|reflexivity|reflexivity].
  pose proof (layer_get_append_none p q n l) as H.
  destruct (layer_get p (layer_append q n l)), (layer_get p l); try reflexivity.
  - destruct H as [_ H]. discriminate (H eq_refl).
  - destruct H as [H _]. discriminate (H eq_refl).
Qed.

Lemma shown_list_append (q : Position) (n : Node) (l : Layers) (step : Z)
      (tpls : list OutsideTemplate) :
  shown_list (layer_append q n l) step tpls = shown_list l step tpls.
Proof.
  induction tpls as [|tpl tpls IH]; simpl; [reflexivity|].
  rewrite shown_append, IH. reflexivity.
Qed.

Lemma shown_not_throws (l : Layers) (step : Z) (tpl : OutsideTemplate)
      (ep : Element * Position) :
  shown l step tpl = Some ep -> throws step tpl = false.
Proof.
  unfold shown, throws. destruct (step_differs tpl step); [discriminate|].
  destruct (ot_position tpl); [reflexivity|discriminate|discriminate].
Qed.

Lemma showOne_skip (step : Z) (s : State) (tpl : OutsideTemplate) :
  throws step tpl = false ->
  shown (outsideLayers s) step tpl = None -> showOne step s tpl = returned s.
Proof.
  unfold throws, shown, showOne. destruct (step_differs tpl step); [reflexivity|].
  destruct (ot_position tpl) as [p| |]; simpl; [| |reflexivity].
  - intros _. destruct (layer_get p (outsideLayers s)); [|reflexivity].
    destruct (ot_content tpl); [discriminate|reflexivity].
  - destruct (ot_content tpl); [discriminate|reflexivity].
Qed.

Lemma showOne_throw (step : Z) (s : State) (tpl : OutsideTemplate) :
  throws step tpl = true ->
  showOne step s tpl = thrown (set_nextNode (S (nextNode s)) s).
Proof.
  unfold throws, showOne. destruct (step_differs tpl step); [discriminate|].
  destruct (ot_position tpl) as [p| |]; simpl; [discriminate| |discriminate].
  destruct (ot_content tpl); [reflexivity|discriminate].
Qed.

Lemma showOne_mount (step : Z) (s : State) (tpl : OutsideTemplate) (el : Element)
      (position : Position) :
  shown (outsideLayers s) step tpl = Some (el, position) ->
  let node := {| node_id := nextNode s; node_html := el |} in
  showOne step s tpl =
  returned
  {| sectionIndex := sectionIndex s; stepIndex := stepIndex s;
     isAnimating := isAnimating s;
     activeOutside := activeOutside s ++ [(node, position)];
     deviceChildren := deviceChildren s;
     outsideLayers := layer_append position node (outsideLayers s);
     tweens := tweens s ++ [OutsideEnter node (getFromVarsForPosition position)];
     nextNode := S (nextNode s);
     observerOn := observerOn s; keydownOn := keydownOn s |}.
Proof.
  unfold shown, showOne. destruct (step_differs tpl step); [discriminate|].
  destruct (ot_position tpl) as [p| |]; [|discriminate|discriminate].
  destruct (layer_get p (outsideLayers s)); [|discriminate].
  destruct (ot_content tpl); [|discriminate].
  intros H. inversion H; subst. reflexivity.
Qed.

Lemma before_throw_all (step : Z) (tpls : list OutsideTemplate) :
  will_throw step tpls = false -> before_throw step tpls = tpls.
Proof.
  unfold will_throw. induction tpls as [|tpl tpls IH]; simpl; [reflexivity|].
  destruct (throws step tpl); simpl; [discriminate|].
  intros H. rewrite (IH H). reflexivity.
Qed.

Lemma lost_clone_none (step : Z) (tpls : list OutsideTemplate) :
  will_throw step tpls = false -> lost_clone step tpls = O.
Proof. unfold lost_clone. intros ->. reflexivity. Qed.

Lemma lost_clone_le (step : Z) (tpls : list OutsideTemplate) :
  (lost_clone step tpls <= 1)%nat.
Proof. unfold lost_clone. destruct (will_throw step tpls); lia. Qed.

Lemma length_before_throw (step : Z) (tpls : list OutsideTemplate) :
  (List.length (before_throw step tpls) <= List.length tpls)%nat.
Proof.
  induction tpls as [|tpl tpls IH]; simpl; [lia|].
  destruct (throws step tpl); simpl; lia.
Qed.

Lemma before_throw_incl (step : Z) (tpls : list OutsideTemplate) (tpl : OutsideTemplate) :
  In tpl (before_throw step tpls) -> In tpl tpls.
Proof.
  induction tpls as [|a tpls IH]; simpl; [tauto|].
  destruct (throws step a); simpl; [tauto|].
  intros [H|H]; [left; exact H|right; apply IH; exact H].
Qed.

(** Whether [showOutside] throws is read off the templates. *)
Lemma showOutside_threw (sectionEl : SectionEl) (step : Z) (s : State) :
  threw (showOutside sectionEl step s) = will_throw step (getOutsideTemplates sectionEl).
Proof.
  unfold showOutside, will_throw. generalize (getOutsideTemplates sectionEl) as tpls.
  intros tpls. revert s. induction tpls as [|tpl tpls IH]; intros s; simpl; [reflexivity|].
  destruct (throws step tpl) eqn:T.
  - rewrite (showOne_throw _ _ _ T). reflexivity.
  - simpl. destruct (shown (outsideLayers s) step tpl) as [[el position]|] eqn:E.
    + rewrite (showOne_mount _ _ _ _ _ E). apply IH.
    + rewrite (showOne_skip _ _ _ T E). apply IH.
Qed.

(** What [showOutside] does to every field of the state, whether it
    returns or throws. *)
Lemma showOutside_eq (sectionEl : SectionEl) (step : Z) (s : State) :
  let new := mk_nodes (nextNode s)
               (shown_list (outsideLayers s) step
                  (before_throw step (getOutsideTemplates sectionEl))) in
  state_of (showOutside sectionEl step s) =
  {| sectionIndex := sectionIndex s; stepIndex := stepIndex s;
     isAnimating := isAnimating s;
     activeOutside := activeOutside s ++ new;
     deviceChildren := deviceChildren s;
     outsideLayers := fold_left mount new (outsideLayers s);
     tweens := tweens s ++ map enter_tween new;
     nextNode := (nextNode s + List.length new
                  + lost_clone step (getOutsideTemplates sectionEl))%nat;
     observerOn := observerOn s; keydownOn := keydownOn s |}.
Proof.
  unfold showOutside, lost_clone, will_throw.
  generalize (getOutsideTemplates sectionEl) as tpls.
  intros tpls. revert s. induction tpls as [|tpl tpls IH]; intros s; simpl.
  - rewrite !app_nil_r, !Nat.add_0_r. destruct s; reflexivity.
  - destruct (throws step tpl) eqn:T.
    + rewrite (showOne_throw _ _ _ T). simpl.
      rewrite !app_nil_r, Nat.add_0_r, Nat.add_1_r. reflexivity.
    + simpl. destruct (shown (outsideLayers s) step tpl) as [[el position]|] eqn:E.
      * rewrite (showOne_mount _ _ _ _ _ E). rewrite IH. simpl.
        rewrite shown_list_append. rewrite <- !app_assoc. simpl.
        rewrite !Nat.add_succ_r. reflexivity.
      * rewrite (showOne_skip _ _ _ T E). apply IH.
Qed.

Lemma length_mk_nodes (k : nat) (eps : list (Element * Position)) :
  List.length (mk_nodes k eps) = List.length eps.
Proof.
  revert k. induction eps as [|[el p] eps IH]; intros k; simpl; [reflexivity|].
  rewrite IH. reflexivity.
Qed.

Lemma map_label_mk_nodes (k : nat) (eps : list (Element * Position)) :
  map label (mk_nodes k eps) = eps.
Proof.
  revert k. induction eps as [|[el p] eps IH]; intros k; simpl; [reflexivity|].
  rewrite IH. reflexivity.
Qed.

Lemma mk_nodes_ids (k : nat) (eps : list (Element * Position)) :
  map (fun e => node_id (fst e)) (mk_nodes k eps) = seq k (List.length eps).
Proof.
  revert k. induction eps as [|[el p] eps IH]; intros k; simpl; [reflexivity|].
  rewrite IH. reflexivity.
Qed.

Lemma length_shown_list (l : Layers) (step : Z) (tpls : list OutsideTemplate) :
  (List.length (shown_list l step tpls) <= List.length tpls)%nat.
Proof.
  induction tpls as [|tpl tpls IH]; simpl; [lia|].
  destruct (shown l step tpl); simpl; lia.
Qed.

Lemma chains_enter (new : list (Node * Position)) : chains (map enter_tween new) = O.
Proof. unfold chains. induction new as [|e es IH]; simpl; auto. Qed.

Lemma swaps_enter (new : list (Node * Position)) : swaps (map enter_tween new) = [].
Proof. unfold swaps. induction new as [|e es IH]; simpl; auto. Qed.

(** ** [renderDeviceStep] *)

Lemma render_skip (sectionEl : SectionEl) (step : Z) (s : State) :
  step_source sectionEl step = None ->
  renderDeviceStep sectionEl step s =
  set_tweens (killTweensOf (map node_id (deviceChildren s)) (tweens s)) s.
Proof.
  unfold step_source, renderDeviceStep.
  destruct (item (getStepTemplates sectionEl) step) as [tpl|]; [|reflexivity].
  destruct (st_content tpl); [discriminate|reflexivity].
Qed.

Lemma render_swap (sectionEl : SectionEl) (step : Z) (s : State) (tpl : StepTemplate)
      (el : Element) :
  step_source sectionEl step = Some (tpl, el) ->
  renderDeviceStep sectionEl step s =
  {| sectionIndex := sectionIndex s; stepIndex := stepIndex s;
     isAnimating := true;
     activeOutside := activeOutside s;
     deviceChildren := deviceChildren s;
     outsideLayers := outsideLayers s;
     tweens := killTweensOf (map node_id (deviceChildren s)) (tweens s)
                 ++ [StepFadeOut (deviceChildren s)
                       {| node_id := nextNode s; node_html := el |} (enterOffset tpl)];
     nextNode := S (nextNode s);
     observerOn := observerOn s; keydownOn := keydownOn s |}.
Proof.
  unfold step_source, renderDeviceStep.
  destruct (item (getStepTemplates sectionEl) step) as [tpl'|]; [|discriminate].
  destruct (st_content tpl') eqn:C; [|discriminate].
  intros H. inversion H; subst. reflexivity.
Qed.

(** ** The navigator invariant *)

Section Invariant.

Variable sections : list SectionEl.

Lemma swap_ok_fade (ks ks' : list Node) (n : Node) (fx : Z) :
  swap_ok sections (StepFadeOut ks n fx) -> swap_ok sections (StepFadeOut ks' n fx).
Proof. trivial. Qed.

Lemma Inv_quiet (s : State) :
  0 <= sectionIndex s < len sections ->
  0 <= stepIndex s <= lastStepOf sections (sectionIndex s) ->
  chains (tweens s) = O ->
  Forall (swap_ok sections) (tweens s) ->
  Inv sections s.
Proof. intros H1 H2 H3 H4. split; auto. lia. Qed.

Lemma Forall_swap_ok_hide (entries : list (Node * Position)) (ts : list Tween) :
  Forall (swap_ok sections) ts -> Forall (swap_ok sections) (hide_tweens entries ts).
Proof.
  intros H. apply Forall_hide; [apply swap_ok_fade|intros; exact I|exact H].
Qed.

Lemma Forall_swap_ok_kill (ids : list nat) (ts : list Tween) :
  Forall (swap_ok sections) ts -> Forall (swap_ok sections) (killTweensOf ids ts).
Proof. apply Forall_kill. apply swap_ok_fade. Qed.

Lemma Inv_hideOutside (s : State) : Inv sections s -> Inv sections (hideOutside s).
Proof.
  intros [H1 H2 H3 H4 H5]. rewrite hideOutside_eq.
  pose proof (chains_hide (activeOutside s) (tweens s)) as Hc.
  split; simpl; auto.
  - lia.
  - intros Hi. specialize (H4 Hi). lia.
  - apply Forall_swap_ok_hide. assumption.
Qed.

Lemma Forall_swap_ok_enter (new : list (Node * Position)) :
  Forall (swap_ok sections) (map enter_tween new).
Proof. induction new; simpl; constructor; auto. exact I. Qed.

Lemma Inv_showOutside (sectionEl : SectionEl) (step : Z) (s : State) :
  Inv sections s -> Inv sections (showOutside sectionEl step s).
Proof.
  intros [H1 H2 H3 H4 H5]. rewrite showOutside_eq.
  split; simpl; auto; rewrite ?chains_app, ?chains_enter, ?Nat.add_0_r; auto.
  apply Forall_app. split; [assumption|apply Forall_swap_ok_enter].
Qed.

Lemma Inv_render (sectionEl : SectionEl) (step : Z) (s : State) :
  0 <= sectionIndex s < len sections ->
  0 <= stepIndex s <= lastStepOf sections (sectionIndex s) ->
  chains (tweens s) = O ->
  Forall (swap_ok sections) (tweens s) ->
  Inv sections (renderDeviceStep sectionEl step s).
Proof.
  intros H1 H2 H3 H4.
  pose proof (chains_kill (map node_id (deviceChildren s)) (tweens s)) as Hk.
  assert (Hf : Forall (swap_ok sections) (killTweensOf (map node_id (deviceChildren s)) (tweens s)))
    by (apply Forall_swap_ok_kill; assumption).
  destruct (step_source sectionEl step) as [[tpl el]|] eqn:E.
  - rewrite (render_swap _ _ _ _ _ E). split; simpl; auto.
    + rewrite chains_app. unfold chains at 2. simpl. lia.
    + discriminate.
    + apply Forall_app. split; [assumption|]. constructor; [exact I|constructor].
  - rewrite (render_skip _ _ _ E). apply Inv_quiet; simpl; auto. lia.
Qed.

Lemma entry_in_range (sectionEl : SectionEl) (direction i : Z) :
  item sections i = Some sectionEl ->
  0 <= getEntryStepIndex sectionEl direction <= lastStepOf sections i.
Proof.
  intros H. unfold lastStepOf, getEntryStepIndex. rewrite H.
  destruct (direction >? 0); lia.
Qed.

Lemma Inv_goToSection (nextIndex direction : Z) (s : State) :
  Inv sections s -> Inv sections (goToSection sections nextIndex direction s).
Proof.
  intros HI. unfold goToSection.
  destruct (nextIndex <? 0) eqn:E1; simpl; [exact HI|].
  destruct (nextIndex >=? len sections) eqn:E2; simpl; [exact HI|].
  destruct (isAnimating s) eqn:E3; [exact HI|].
  apply Z.ltb_ge in E1. rewrite Z.geb_leb in E2. apply Z.leb_gt in E2.
  destruct (item_in_range sections nextIndex (conj E1 E2)) as [next Hn].
  rewrite Hn. rewrite hideOutside_eq. simpl.
  destruct HI as [H1 H2 H3 H4 H5]. specialize (H4 E3).
  pose proof (chains_hide (activeOutside s) (tweens s)) as Hc.
  split; simpl; auto.
  - rewrite chains_app. unfold chains at 2. simpl. lia.
  - discriminate.
  - apply Forall_app. split.
    + apply Forall_swap_ok_hide. assumption.
    + repeat constructor; try lia; apply (entry_in_range _ _ _ Hn).
Qed.

Lemma Inv_goForward (s : State) : Inv sections s -> Inv sections (goForward sections s).
Proof.
  intros HI. unfold goForward.
  destruct (isAnimating s) eqn:E; [exact HI|].
  destruct (item sections (sectionIndex s)) as [sectionEl|] eqn:Hs; [|exact HI].
  destruct (stepIndex s <? len (getStepTemplates sectionEl) - 1) eqn:E1.
  - apply Z.ltb_lt in E1. apply Inv_showOutside.
    destruct HI as [H1 H2 H3 H4 H5]. specialize (H4 E).
    pose proof (chains_hide (activeOutside s) (tweens s)) as Hc.
    rewrite hideOutside_eq. apply Inv_render; simpl; auto.
    + unfold lastStepOf. rewrite Hs. lia.
    + lia.
    + apply Forall_swap_ok_hide. assumption.
  - destruct (sectionIndex s <? len sections - 1); [|exact HI].
    apply Inv_goToSection. apply Inv_hideOutside. exact HI.
Qed.

Lemma Inv_goBackward (s : State) : Inv sections s -> Inv sections (goBackward sections s).
Proof.
  intros HI. unfold goBackward.
  destruct (isAnimating s) eqn:E; [exact HI|].
  destruct (item sections (sectionIndex s)) as [sectionEl|] eqn:Hs; [|exact HI].
  destruct (stepIndex s >? 0) eqn:E1.
  - apply Z.gtb_lt in E1. apply Inv_showOutside.
    destruct HI as [H1 H2 H3 H4 H5]. specialize (H4 E).
    pose proof (chains_hide (activeOutside s) (tweens s)) as Hc.
    rewrite hideOutside_eq. apply Inv_render; simpl; auto.
    + lia.
    + lia.
    + apply Forall_swap_ok_hide. assumption.
  - destruct (sectionIndex s >? 0); [|exact HI].
    apply Inv_goToSection. apply Inv_hideOutside. exact HI.
Qed.

Lemma Inv_onKeyDown (key : string) (s : State) : Inv sections s -> Inv sections (onKeyDown sections key s).
Proof.
  intros HI. unfold onKeyDown.
  destruct (String.eqb key "ArrowUp"); destruct (String.eqb key "ArrowDown");
    auto using Inv_goForward, Inv_goBackward.
Qed.

Lemma Inv_destroy (s : State) : Inv sections s -> Inv sections (destroy s).
Proof.
  intros [H1 H2 H3 H4 H5]. unfold destroy. apply Inv_hideOutside. split; assumption.
Qed.

Lemma remove_at_split {A : Type} (k : nat) (l : list A) (a : A) :
  nth_error l k = Some a ->
  exists l1 l2, l = l1 ++ a :: l2 /\ remove_at k l = l1 ++ l2.
Proof.
  revert l. induction k as [|k IH]; intros [|b l] H; try discriminate.
  - inversion H; subst. exists [], l. split; reflexivity.
  - destruct (IH l H) as (l1 & l2 & -> & E). exists (b :: l1), l2.
    simpl. rewrite E. split; reflexivity.
Qed.

Lemma Inv_complete (k : nat) (s : State) : Inv sections s -> Inv sections (complete sections k s).
Proof.
  intros HI. unfold complete.
  destruct (nth_error (tweens s) k) as [t|] eqn:N; [|exact HI].
  destruct (remove_at_split _ _ _ N) as (l1 & l2 & Hl & Hr). rewrite Hr.
  destruct HI as [H1 H2 H3 H4 H5]. rewrite Hl in H3, H4, H5.
  rewrite chains_app in H3, H4. apply Forall_app in H5. destruct H5 as [F1 F2].
  inversion F2 as [|? ? Ft F2']; subst.
  assert (F : Forall (swap_ok sections) (l1 ++ l2)) by (apply Forall_app; split; assumption).
  assert (C : chain t = true -> chains (l1 ++ l2) = O /\ isAnimating s = true).
  { intros Ht. unfold chains in H3, H4 |- *. simpl in H3, H4. rewrite Ht in H3, H4.
    simpl in H3, H4. rewrite filter_app, length_app. split; [lia|].
    destruct (isAnimating s); [reflexivity|]. specialize (H4 eq_refl). lia. }
  assert (K : chain t = false -> chains (l1 ++ l2) = (chains l1 + chains (t :: l2))%nat).
  { intros Ht. rewrite chains_app. unfold chains. simpl. rewrite Ht. reflexivity. }
  destruct t; simpl.
  - split; simpl; auto; rewrite K; auto.
  - split; simpl; auto; rewrite K; auto.
  - destruct (C eq_refl) as [C0 Cb]. split; simpl; auto.
    + rewrite chains_app, C0. unfold chains. simpl. lia.
    + congruence.
    + apply Forall_app. split; [assumption|]. constructor; [exact I|constructor].
  - destruct (C eq_refl) as [C0 Cb]. apply Inv_quiet; simpl; auto.
  - split; simpl; auto; rewrite K; auto.
  - split; simpl; auto; rewrite K; auto.
  - destruct (C eq_refl) as [C0 Cb]. simpl in Ft. destruct Ft as [Fn Fe].
    destruct (item_in_range sections nextIndex Fn) as [next Hn]. rewrite Hn.
    apply Inv_showOutside. apply Inv_render; simpl; auto.
Qed.

Lemma Inv_handle (e : Event) (s : State) : Inv sections s -> Inv sections (handle sections e s).
Proof.
  intros HI. destruct e; simpl.
  - destruct (observerOn s); auto using Inv_goForward.
  - destruct (observerOn s); auto using Inv_goBackward.
  - destruct (keydownOn s); auto using Inv_onKeyDown.
  - apply Inv_complete. exact HI.
  - apply Inv_destroy. exact HI.
Qed.

Lemma Inv_run (es : list Event) (s : State) : Inv sections s -> Inv sections (run sections es s).
Proof.
  unfold run. revert s. induction es as [|e es IH]; intros s HI; simpl; [exact HI|].
  apply IH. apply Inv_handle. exact HI.
Qed.

End Invariant.

(** The navigator [initObserver] leaves: the first render and the first
    [showOutside] on the declared state, with both listeners registered
    unless [showOutside] threw. *)
Lemma init_navigator (p : Page) (s0 : State) :
  navigator (initObserver p) = Some s0 ->
  exists section0 rest kids,
    pg_sections p = section0 :: rest /\ pg_device p = Some kids /\
    let on := negb (will_throw 0 (getOutsideTemplates section0)) in
    teardown (initObserver p) = (if on then destroy_fn else nothing) /\
    s0 = set_listeners on on
           (state_of (showOutside section0 0
                        (renderDeviceStep section0 0 (init_state p kids)))).
Proof.
  unfold initObserver.
  destruct (pg_sections p) as [|section0 rest] eqn:Hs; [discriminate|].
  destruct (pg_device p) as [kids|]; [|discriminate].
  intros H. exists section0, rest, kids. split; [reflexivity|]. split; [reflexivity|].
  fold (init_state p kids) in *.
  pose proof (showOutside_threw section0 0 (renderDeviceStep section0 0 (init_state p kids)))
    as T.
  pose proof (showOutside_eq section0 0 (renderDeviceStep section0 0 (init_state p kids)))
    as E.
  destruct (showOutside section0 0 (renderDeviceStep section0 0 (init_state p kids)))
    as [s|s]; simpl in T, E, H |- *; rewrite <- T; simpl; inversion H; subst s0; clear H.
  - split; reflexivity.
  - split; [reflexivity|]. rewrite E. unfold set_listeners. simpl.
    assert (L : observerOn (renderDeviceStep section0 0 (init_state p kids)) = false /\
                keydownOn (renderDeviceStep section0 0 (init_state p kids)) = false).
    { unfold renderDeviceStep. simpl.
      destruct (item (getStepTemplates section0) 0) as [tpl|]; [|split; reflexivity].
      destruct (st_content tpl); split; reflexivity. }
    destruct L as [-> ->]. reflexivity.
Qed.

Lemma Inv_init (p : Page) (s0 : State) :
  navigator (initObserver p) = Some s0 -> Inv (pg_sections p) s0.
Proof.
  intros H. destruct (init_navigator p s0 H) as (section0 & rest & kids & Hs & Hd & _ & ->).
  rewrite Hs.
  match goal with |- Inv ?l (set_listeners _ _ ?s) => assert (HI : Inv l s) end.
  { apply Inv_showOutside. apply Inv_render; simpl; try lia.
    - unfold len. simpl. lia.
    - unfold lastStepOf. simpl. lia.
    - reflexivity.
    - constructor. }
  destruct HI as [H1 H2 H3 H4 H5]. split; assumption.
Qed.

(** Every state of a running navigator satisfies the invariant. *)
Lemma reachable_inv (p : Page) (s : State) : reachable p s -> Inv (pg_sections p) s.
Proof.
  induction 1 as [s0 H|s e _ IH]; [apply Inv_init; exact H|apply Inv_handle; exact IH].
Qed.

Lemma reachable_run (p : Page) (es : list Event) (s : State) :
  reachable p s -> reachable p (run (pg_sections p) es s).
Proof.
  unfold run. revert s. induction es as [|e es IH]; intros s H; simpl; [exact H|].
  apply IH. apply reach_step. exact H.
Qed.

(** ** Timeline tweens are out of reach of [killTweensOf] *)

Lemma slides_app (ts us : list Tween) : slides (ts ++ us) = slides ts ++ slides us.
Proof. apply filter_app. Qed.

Lemma slides_kill (ids : list nat) (ts : list Tween) :
  slides (killTweensOf ids ts) = slides ts.
Proof.
  unfold slides. induction ts as [|t ts IH]; simpl; [reflexivity|].
  destruct (kill_tween ids t) as [t'|] eqn:K.
  - destruct (kill_tween_shape _ _ _ K) as [->|(ks & ks' & n & fx & -> & ->)]; simpl.
    + rewrite IH. reflexivity.
    + exact IH.
  - destruct t; simpl in *; try discriminate; exact IH.
Qed.

Lemma slides_hide (entries : list (Node * Position)) (ts : list Tween) :
  slides (hide_tweens entries ts) = slides ts.
Proof.
  revert ts. induction entries as [|e es IH]; intros ts; simpl; [reflexivity|].
  rewrite IH, slides_app, slides_kill. simpl. apply app_nil_r.
Qed.

Lemma slides_enter (new : list (Node * Position)) : slides (map enter_tween new) = [].
Proof. unfold slides. induction new as [|e es IH]; simpl; auto. Qed.

(** ** Running the animations to completion *)

Section Settling.

Variable sections : list SectionEl.

Lemma total_cost_app (ts us : list Tween) :
  total_cost sections (ts ++ us) = (total_cost sections ts + total_cost sections us)%nat.
Proof. induction ts as [|t ts IH]; simpl; [reflexivity|]. rewrite IH. lia. Qed.

Lemma total_cost_kill (ids : list nat) (ts : list Tween) :
  (total_cost sections (killTweensOf ids ts) <= total_cost sections ts)%nat.
Proof.
  induction ts as [|t ts IH]; simpl; [lia|].
  destruct (kill_tween ids t) as [t'|] eqn:K; simpl; [|lia].
  destruct (kill_tween_shape _ _ _ K) as [->|(ks & ks' & n & fx & -> & ->)]; simpl; lia.
Qed.

Lemma total_cost_enter (new : list (Node * Position)) :
  total_cost sections (map enter_tween new) = List.length new.
Proof. induction new as [|e es IH]; simpl; [reflexivity|]. rewrite IH. reflexivity. Qed.

Lemma cost_render (sectionEl : SectionEl) (step : Z) (s : State) :
  (total_cost sections (tweens (renderDeviceStep sectionEl step s))
   <= total_cost sections (tweens s) + 2)%nat.
Proof.
  pose proof (total_cost_kill (map node_id (deviceChildren s)) (tweens s)) as Hk.
  destruct (step_source sectionEl step) as [[tpl el]|] eqn:E.
  - rewrite (render_swap _ _ _ _ _ E). simpl. rewrite total_cost_app. simpl. lia.
  - rewrite (render_skip _ _ _ E). simpl. lia.
Qed.

Lemma cost_show (sectionEl : SectionEl) (step : Z) (s : State) :
  (total_cost sections (tweens (showOutside sectionEl step s))
   <= total_cost sections (tweens s) + List.length (getOutsideTemplates sectionEl))%nat.
Proof.
  rewrite showOutside_eq. simpl. rewrite total_cost_app, total_cost_enter, length_mk_nodes.
  pose proof (length_shown_list (outsideLayers s) step
                (before_throw step (getOutsideTemplates sectionEl))).
  pose proof (length_before_throw step (getOutsideTemplates sectionEl)).
  lia.
Qed.

Lemma cost_complete_head (s : State) (t : Tween) (ts : list Tween) :
  tweens s = t :: ts ->
  (total_cost sections (tweens (complete sections 0 s)) < total_cost sections (tweens s))%nat.
Proof.
  intros E. unfold complete. rewrite E. simpl.
  destruct t; simpl; try lia.
  - rewrite total_cost_app. simpl. lia.
  - destruct (item sections nextIndex) as [next|] eqn:Hn; simpl; [|lia].
    match goal with
    | |- context [showOutside next entryStep (renderDeviceStep next entryStep ?s0)] =>
        pose proof (cost_show next entryStep (renderDeviceStep next entryStep s0)) as H1;
        pose proof (cost_render next entryStep s0) as H2
    end.
    simpl in H2. lia.
Qed.

(** [settle] leaves no animation in flight. *)
Lemma settle_n_done (fuel : nat) (s : State) :
  (total_cost sections (tweens s) <= fuel)%nat ->
  tweens (settle_n sections fuel s) = [].
Proof.
  revert s. induction fuel as [|fuel IH]; intros s H; simpl.
  - destruct (tweens s) as [|t ts]; [reflexivity|].
    simpl in H. destruct t; simpl in H; try lia.
    destruct (item sections nextIndex); lia.
  - destruct (tweens s) as [|t ts] eqn:E; [exact E|].
    apply IH. pose proof (cost_complete_head s t ts E) as Hc. rewrite E in Hc. lia.
Qed.

Lemma settle_done (s : State) : tweens (settle sections s) = [].
Proof. apply settle_n_done. lia. Qed.

(** A property the completion of the first tween preserves survives [settle]. *)
Lemma settle_n_preserves (P : State -> Prop) :
  (forall s, P s -> P (complete sections 0 s)) ->
  forall fuel s, P s -> P (settle_n sections fuel s).
Proof.
  intros HP. induction fuel as [|fuel IH]; intros s H; simpl; [exact H|].
  destruct (tweens s); [exact H|]. apply IH, HP, H.
Qed.

Lemma settle_is_run (fuel : nat) (s : State) :
  exists es, settle_n sections fuel s = run sections es s.
Proof.
  revert s. induction fuel as [|fuel IH]; intros s; simpl.
  - exists []. reflexivity.
  - destruct (tweens s).
    + exists []. reflexivity.
    + destruct (IH (complete sections 0 s)) as [es E].
      exists (Complete 0 :: es). rewrite E. reflexivity.
Qed.

Lemma swaps_render (sectionEl : SectionEl) (step : Z) (s : State) :
  swaps (tweens (renderDeviceStep sectionEl step s)) = swaps (tweens s).
Proof.
  destruct (step_source sectionEl step) as [[tpl el]|] eqn:E.
  - rewrite (render_swap _ _ _ _ _ E). simpl. rewrite swaps_app, swaps_kill. simpl.
    apply app_nil_r.
  - rewrite (render_skip _ _ _ E). simpl. apply swaps_kill.
Qed.

Lemma position_render (sectionEl : SectionEl) (step : Z) (s : State) :
  position (renderDeviceStep sectionEl step s) = position s.
Proof.
  destruct (step_source sectionEl step) as [[tpl el]|] eqn:E.
  - rewrite (render_swap _ _ _ _ _ E). reflexivity.
  - rewrite (render_skip _ _ _ E). reflexivity.
Qed.

Lemma target_show_render (sectionEl : SectionEl) (step : Z) (s : State) :
  target (showOutside sectionEl step (renderDeviceStep sectionEl step s)) = target s.
Proof.
  unfold target. rewrite showOutside_eq. simpl.
  rewrite swaps_app, swaps_enter, app_nil_r, swaps_render.
  pose proof (position_render sectionEl step s) as Hp. unfold position in *.
  simpl. rewrite Hp. reflexivity.
Qed.

Lemma target_complete_head (s : State) : target (complete sections 0 s) = target s.
Proof.
  unfold complete. destruct (tweens s) as [|t ts] eqn:E; simpl; [reflexivity|].
  destruct t; simpl; try (unfold target; simpl; rewrite E; reflexivity).
  - unfold target. simpl. rewrite E, swaps_app. simpl. rewrite app_nil_r. reflexivity.
  - destruct (item sections nextIndex) as [next|].
    + rewrite target_show_render. unfold target. simpl. rewrite E. reflexivity.
    + unfold target. simpl. rewrite E. reflexivity.
Qed.

(** After [settle] the navigator stands where its pending timeline
    callbacks lead. *)
Lemma settle_position (s : State) : position (settle sections s) = target s.
Proof.
  pose proof (settle_n_preserves (fun s' => target s' = target s) 
                (fun s' H => eq_trans (target_complete_head s') H)
                (total_cost sections (tweens s)) s eq_refl) as H.
  fold (settle sections s) in H. rewrite <- H. unfold target.
  rewrite settle_done. reflexivity.
Qed.

Lemma releasing_complete_head (s : State) :
  releasing s -> releasing (complete sections 0 s).
Proof.
  intros [Hs Hb]. unfold complete. destruct (tweens s) as [|t ts] eqn:E; simpl.
  - split; [rewrite E; exact Hs|rewrite E; exact Hb].
  - destruct t; simpl in Hs; try discriminate;
      unfold releasing; simpl; unfold chains in *; simpl in Hb; auto.
    + split; [rewrite swaps_app, Hs; reflexivity|].
      intros _. rewrite filter_app, length_app. simpl. lia.
    + split; [exact Hs|discriminate].
Qed.

Lemma settle_idle (s : State) : releasing s -> isAnimating (settle sections s) = false.
Proof.
  intros H.
  pose proof (settle_n_preserves releasing releasing_complete_head
                (total_cost sections (tweens s)) s H) as [_ Hb].
  fold (settle sections s) in Hb. rewrite settle_done in Hb.
  destruct (isAnimating (settle sections s)); [|reflexivity].
  specialize (Hb eq_refl). unfold chains in Hb. simpl in Hb. lia.
Qed.

End Settling.

(** ** Navigation steps *)

Section Steps.

Variable sections : list SectionEl.

Lemma goForward_busy (s : State) : isAnimating s = true -> goForward sections s = s.
Proof. intros H. unfold goForward. rewrite H. reflexivity. Qed.

Lemma goBackward_busy (s : State) : isAnimating s = true -> goBackward sections s = s.
Proof. intros H. unfold goBackward. rewrite H. reflexivity. Qed.

Lemma advance_busy (d : Z) (s : State) : isAnimating s = true -> advance sections d s = s.
Proof.
  intros H. unfold advance. destruct (d >? 0); [apply goForward_busy|apply goBackward_busy];
    exact H.
Qed.

Lemma stepIndex_hideOutside (s : State) : stepIndex (hideOutside s) = stepIndex s.
Proof. rewrite hideOutside_eq. reflexivity. Qed.

Lemma stepIndex_render (sectionEl : SectionEl) (step : Z) (s : State) :
  stepIndex (renderDeviceStep sectionEl step s) = stepIndex s.
Proof. pose proof (position_render sectionEl step s) as H. inversion H. reflexivity. Qed.

Lemma goForward_step (s : State) (sectionEl : SectionEl) :
  isAnimating s = false ->
  item sections (sectionIndex s) = Some sectionEl ->
  stepIndex s < len (getStepTemplates sectionEl) - 1 ->
  goForward sections s = change_step sectionEl (stepIndex s + 1) s.
Proof.
  intros Hi Hs Hlt. unfold goForward. rewrite Hi, Hs.
  apply Z.ltb_lt in Hlt. rewrite Hlt. unfold change_step.
  rewrite stepIndex_render, stepIndex_hideOutside. reflexivity.
Qed.

Lemma goBackward_step (s : State) (sectionEl : SectionEl) :
  isAnimating s = false ->
  item sections (sectionIndex s) = Some sectionEl ->
  0 < stepIndex s ->
  goBackward sections s = change_step sectionEl (stepIndex s - 1) s.
Proof.
  intros Hi Hs Hlt. unfold goBackward. rewrite Hi, Hs.
  apply Z.gtb_lt in Hlt. rewrite Hlt. unfold change_step.
  rewrite stepIndex_render, stepIndex_hideOutside. reflexivity.
Qed.

Lemma slides_render (sectionEl : SectionEl) (step : Z) (s : State) :
  slides (tweens (renderDeviceStep sectionEl step s)) = slides (tweens s).
Proof.
  destruct (step_source sectionEl step) as [[tpl el]|] eqn:E.
  - rewrite (render_swap _ _ _ _ _ E). simpl. rewrite slides_app, slides_kill. simpl.
    apply app_nil_r.
  - rewrite (render_skip _ _ _ E). simpl. apply slides_kill.
Qed.

Lemma change_step_position (sectionEl : SectionEl) (step : Z) (s : State) :
  position (change_step sectionEl step s) = (sectionIndex s, step).
Proof.
  unfold change_step. rewrite showOutside_eq. unfold position. simpl.
  pose proof (position_render sectionEl step (hideOutside (set_stepIndex step s))) as H.
  unfold position in H. inversion H as [[H1 H2]]. rewrite H1, H2.
  rewrite hideOutside_eq. reflexivity.
Qed.

Lemma change_step_slides (sectionEl : SectionEl) (step : Z) (s : State) :
  slides (tweens (change_step sectionEl step s)) = slides (tweens s).
Proof.
  unfold change_step. rewrite showOutside_eq. simpl.
  rewrite slides_app, slides_enter, app_nil_r, slides_render, hideOutside_eq. simpl.
  apply slides_hide.
Qed.

Lemma change_step_swaps (sectionEl : SectionEl) (step : Z) (s : State) :
  swaps (tweens (change_step sectionEl step s)) = swaps (tweens s).
Proof.
  unfold change_step. rewrite showOutside_eq. simpl.
  rewrite swaps_app, swaps_enter, app_nil_r, swaps_render, hideOutside_eq. simpl.
  apply swaps_hide.
Qed.

(** A successful render raises the busy flag and leaves a fade-out in flight. *)
Lemma change_step_busy (sectionEl : SectionEl) (step : Z) (s : State)
      (tpl : StepTemplate) (el : Element) :
  step_source sectionEl step = Some (tpl, el) ->
  isAnimating (change_step sectionEl step s) = true /\
  (1 <= chains (tweens (change_step sectionEl step s)))%nat.
Proof.
  intros E. unfold change_step. rewrite showOutside_eq. simpl.
  rewrite (render_swap _ _ _ _ _ E). simpl. split; [reflexivity|].
  rewrite !chains_app. unfold chains at 2. simpl. lia.
Qed.

(** A skipped render leaves the busy flag as it was. *)
Lemma change_step_skipped (sectionEl : SectionEl) (step : Z) (s : State) :
  step_source sectionEl step = None ->
  isAnimating (change_step sectionEl step s) = isAnimating s /\
  deviceChildren (change_step sectionEl step s) = deviceChildren s.
Proof.
  intros E. unfold change_step. rewrite showOutside_eq. simpl.
  rewrite (render_skip _ _ _ E). simpl. rewrite hideOutside_eq. simpl. auto.
Qed.

Lemma change_step_releasing (sectionEl : SectionEl) (step : Z) (s : State) :
  isAnimating s = false -> swaps (tweens s) = [] ->
  releasing (change_step sectionEl step s).
Proof.
  intros Hi Hs. split; [rewrite change_step_swaps; exact Hs|].
  destruct (step_source sectionEl step) as [[tpl el]|] eqn:E.
  - intros _. apply (change_step_busy _ _ s _ _ E).
  - destruct (change_step_skipped _ _ s E) as [Hb _]. rewrite Hb, Hi. discriminate.
Qed.

Lemma goToSection_start (nextIndex direction : Z) (next : SectionEl) (s : State) :
  isAnimating s = false ->
  item sections nextIndex = Some next ->
  goToSection sections nextIndex direction (hideOutside s)
  = start_transition nextIndex direction next s.
Proof.
  intros Hi Hn. pose proof (item_Some _ _ _ Hn) as [H0 H1].
  unfold goToSection.
  assert (E1 : (nextIndex <? 0) = false) by (apply Z.ltb_ge; lia).
  assert (E2 : (nextIndex >=? len sections) = false)
    by (rewrite Z.geb_leb; apply Z.leb_gt; lia).
  rewrite E1, E2. simpl. rewrite !hideOutside_eq. simpl. rewrite Hi, Hn.
  reflexivity.
Qed.

Lemma goForward_section (s : State) (next : SectionEl) :
  isAnimating s = false ->
  0 <= sectionIndex s < len sections - 1 ->
  stepIndex s = lastStepOf sections (sectionIndex s) ->
  item sections (sectionIndex s + 1) = Some next ->
  goForward sections s = start_transition (sectionIndex s + 1) 1 next s.
Proof.
  intros Hi [Hge Hlt] Hst Hn. unfold goForward. rewrite Hi.
  unfold lastStepOf in Hst.
  destruct (item sections (sectionIndex s)) as [sectionEl|] eqn:Hs.
  - assert (E : (stepIndex s <? len (getStepTemplates sectionEl) - 1) = false)
      by (apply Z.ltb_ge; lia).
    rewrite E. apply Z.ltb_lt in Hlt. rewrite Hlt.
    replace (sectionIndex (hideOutside s)) with (sectionIndex s)
      by (rewrite hideOutside_eq; reflexivity).
    apply goToSection_start; assumption.
  - exfalso. destruct (item_in_range sections (sectionIndex s)) as [x Hx];
      [lia|congruence].
Qed.

Lemma goBackward_section (s : State) (prev : SectionEl) :
  isAnimating s = false ->
  0 < sectionIndex s < len sections ->
  stepIndex s = 0 ->
  item sections (sectionIndex s - 1) = Some prev ->
  goBackward sections s = start_transition (sectionIndex s - 1) (-1) prev s.
Proof.
  intros Hi Hlt Hst Hn. unfold goBackward. rewrite Hi.
  destruct (item_in_range sections (sectionIndex s)) as [sectionEl Hs]; [lia|].
  rewrite Hs, Hst. simpl.
  assert (E : (sectionIndex s >? 0) = true) by (apply Z.gtb_lt; lia).
  rewrite E.
  replace (sectionIndex (hideOutside s)) with (sectionIndex s)
    by (rewrite hideOutside_eq; reflexivity).
  apply goToSection_start; assumption.
Qed.

Lemma start_transition_target (nextIndex direction : Z) (next : SectionEl) (s : State) :
  swaps (tweens s) = [] ->
  target (start_transition nextIndex direction next s)
  = (nextIndex, getEntryStepIndex next direction).
Proof.
  intros Hs. unfold target. simpl. rewrite swaps_app, swaps_hide, Hs. reflexivity.
Qed.

End Steps.

(** ** Reaching states by running the navigator *)

Lemma reachable_settle (p : Page) (s : State) :
  reachable p s -> reachable p (settle (pg_sections p) s).
Proof.
  intros H. unfold settle.
  destruct (settle_is_run (pg_sections p) (total_cost (pg_sections p) (tweens s)) s)
    as [es ->].
  apply reachable_run. exact H.
Qed.

Lemma reachable_advance (p : Page) (d : Z) (s : State) :
  observerOn s = true -> reachable p s -> reachable p (advance (pg_sections p) d s).
Proof.
  intros Ho H. unfold advance. destruct (d >? 0).
  - pose proof (reach_step p s OnDown H) as R. simpl in R. rewrite Ho in R. exact R.
  - pose proof (reach_step p s OnUp H) as R. simpl in R. rewrite Ho in R. exact R.
Qed.

Lemma reachable_boot (p : Page) (s : State) : boot p = Some s -> reachable p s.
Proof.
  unfold boot. destruct (navigator (initObserver p)) as [s0|] eqn:E; [|discriminate].
  simpl. intros H. inversion H; subst. apply reachable_settle, reach_init, E.
Qed.

(** ** The specification's scenarios *)

(** Section A has three steps and section B one: from (A, 0), requests
    forward lead to (A, 1), (A, 2) and (B, 0), where a further request
    changes nothing; each request is made once the previous animations have
    completed. *)
Example story_positions :
  map (fun es => option_map position (replay story_page es))
      [drain;
       drain ++ [OnDown] ++ drain;
       drain ++ [OnDown] ++ drain ++ [OnDown] ++ drain;
       to_section_B;
       to_section_B ++ [OnDown] ++ drain]
  = [Some (0, 0); Some (0, 1); Some (0, 2); Some (1, 0); Some (1, 0)].
Proof. vm_compute. reflexivity. Qed.

(** At step 0 of section A only the left decoration is active; at step 1
    it has left the DOM and the top one is active and mounted. *)
Example story_decorations :
  option_map (fun s => (map label (activeOutside s),
                        map node_html (layer_nodes (outsideLayers s))))
             (replay story_page drain)
  = Some ([("hint"%string, left)], ["hint"%string]) /\
  option_map (fun s => (map label (activeOutside s),
                        map node_html (layer_nodes (outsideLayers s))))
             (replay story_page (drain ++ [OnDown] ++ drain))
  = Some ([("badge"%string, top)], ["badge"%string]).
Proof. split; vm_compute; reflexivity. Qed.

(** ** C1: stepping through a section *)

(** C1, as stated, fails: in section A (three steps), started at step 0 with
    no animation in flight, two calls of advance(+1) made back to back
    leave the navigator at step 1, because the first call's render raised
    the busy flag and the second call is dropped. *)
Lemma C1_back_to_back_counterexample :
  match boot story_page with
  | None => False
  | Some s =>
      isAnimating s = false /\ tweens s = [] /\ position s = (0, 0) /\
      stepCountOf (pg_sections story_page) 0 = 3 /\
      stepIndex (times 2 (advance (pg_sections story_page) 1) s) = 1 /\
      stepIndex (times 2 (advance (pg_sections story_page) 1) s) <> 2
  end.
Proof. vm_compute. repeat split; discriminate. Qed.

(** C1 (amended): in a section with N steps, starting from step 0 with the
    navigator idle, make N-1 calls of advance(+1), each after the animations
    of the previous one have completed.  The call number j+1 finds the
    navigator idle at step j, moves it to step j+1 of the same section and
    adds no timeline tween (no section transition); once its animations
    complete the navigator is idle at step j+1. *)
Theorem C1_steps_in_order (p : Page) (s : State) (sectionEl : SectionEl) (j : nat) :
  reachable p s ->
  isAnimating s = false ->
  item (pg_sections p) (sectionIndex s) = Some sectionEl ->
  stepIndex s = 0 ->
  Z.of_nat j < len (getStepTemplates sectionEl) - 1 ->
  let before := times j (advance_and_settle (pg_sections p) 1) s in
  let after := advance (pg_sections p) 1 before in
  isAnimating before = false /\
  position before = (sectionIndex s, Z.of_nat j) /\
  position after = (sectionIndex s, Z.of_nat j + 1) /\
  slides (tweens after) = slides (tweens before) /\
  isAnimating (settle (pg_sections p) after) = false /\
  position (settle (pg_sections p) after) = (sectionIndex s, Z.of_nat j + 1).
Proof.
  intros Hr Hi Hs H0 Hj. set (secs := pg_sections p) in *.
  assert (Hc : swaps (tweens s) = []).
  { apply swaps_nil_of_chains. apply (inv_idle _ _ (reachable_inv _ _ Hr) Hi). }
  assert (G : forall k : nat, Z.of_nat k < len (getStepTemplates sectionEl) ->
            let b := times k (advance_and_settle secs 1) s in
            isAnimating b = false /\ swaps (tweens b) = [] /\
            position b = (sectionIndex s, Z.of_nat k)).
  { induction k as [|k IH]; intros Hk.
    - simpl. unfold position. rewrite H0. auto.
    - destruct IH as (Bi & Bs & Bp); [lia|]. simpl.
      set (b := times k (advance_and_settle secs 1) s) in *.
      unfold position in Bp. inversion Bp as [[B1 B2]].
      unfold advance_and_settle at 1 2 3. unfold advance. simpl.
      rewrite (goForward_step secs b sectionEl Bi) by (rewrite ?B1, ?B2; auto; lia).
      pose proof (change_step_releasing sectionEl (stepIndex b + 1) b Bi Bs) as Rl.
      split; [apply settle_idle; exact Rl|].
      split; [rewrite (swaps_nil_of_chains _ (f_equal chains (settle_done secs _)));
              reflexivity|].
      rewrite settle_position. unfold target.
      rewrite change_step_swaps, Bs. simpl. rewrite change_step_position.
      rewrite B1, B2. f_equal. lia. }
  destruct (G j) as (Bi & Bs & Bp); [lia|]. simpl.
  set (b := times j (advance_and_settle secs 1) s) in *.
  unfold position in Bp. inversion Bp as [[B1 B2]].
  unfold advance. simpl.
  rewrite (goForward_step secs b sectionEl Bi) by (rewrite ?B1, ?B2; auto; lia).
  pose proof (change_step_releasing sectionEl (stepIndex b + 1) b Bi Bs) as Rl.
  rewrite B1, B2 in *.
  repeat split.
  - exact Bi.
  - unfold position. rewrite B1, B2. reflexivity.
  - rewrite change_step_position. rewrite B1. reflexivity.
  - apply change_step_slides.
  - apply settle_idle. exact Rl.
  - rewrite settle_position. unfold target.
    rewrite change_step_swaps, Bs. simpl. rewrite change_step_position, B1. reflexivity.
Qed.

Lemma C1_steps_in_order_witness :
  exists s, boot story_page = Some s /\
    isAnimating s = false /\ stepIndex s = 0 /\
    position (advance (pg_sections story_page) 1
                (times 1 (advance_and_settle (pg_sections story_page) 1) s)) = (0, 2).
Proof.
  eexists. split; [vm_compute; reflexivity|].
  split; [reflexivity|]. split; [reflexivity|].
  refine (proj1 (proj2 (proj2
            (C1_steps_in_order story_page _ story_A 1 _ _ _ _ _)))).
  - apply reachable_boot. vm_compute. reflexivity.
  - reflexivity.
  - reflexivity.
  - reflexivity.
  - vm_compute. reflexivity.
Defined.

(** ** C2 and C3: crossing a section boundary *)



(** C3, as stated, fails while the navigator is busy.  On the page with
    section B (one step) then section A (three steps), going forward
    enters A at its step 1; one request backward, made once the
    animations have completed, brings the navigator to step 0 of section
    1 with that step change still animating.  advance(-1) called now is
    dropped: it returns the state unchanged, no timeline is started, and
    once the animations have completed the navigator stands at (1, 0),
    not at (0, 0). *)
Lemma C3_busy_counterexample :
  exists s,
    replay tour_page (drain ++ [OnDown] ++ drain ++ [OnUp]) = Some s /\
    sectionIndex s = 1 /\ stepIndex s = 0 /\
    isAnimating s = true /\
    advance (pg_sections tour_page) (-1) s = s /\
    swaps (tweens (advance (pg_sections tour_page) (-1) s)) = [] /\
    position (settle (pg_sections tour_page) (advance (pg_sections tour_page) (-1) s))
    = (1, 0) /\
    (1 - 1, lastStepOf (pg_sections tour_page) (1 - 1)) = (0, 0).
Proof.
  eexists. split; [vm_compute; reflexivity|]. vm_compute. repeat split.
Qed.

(** C3 (amended): from step 0 of section i, i > 0, with the navigator not
    busy (isAnimating false), advance(-1) starts the timeline whose
    callback carries (i-1, lastStepOf(i-1)); once the animations have
    completed the navigator stands at the last step of section i-1, the
    step numbered stepCount - 1 when that section has steps. *)
Theorem C3_backward_entry_step (p : Page) (s : State) (i : Z) :
  reachable p s ->
  isAnimating s = false ->
  sectionIndex s = i ->
  0 < i ->
  stepIndex s = 0 ->
  let entry := lastStepOf (pg_sections p) (i - 1) in
  let s' := advance (pg_sections p) (-1) s in
  In (SwapCall (i - 1) entry) (tweens s') /\
  isAnimating s' = true /\
  position (settle (pg_sections p) s') = (i - 1, entry) /\
  (1 <= stepCountOf (pg_sections p) (i - 1) ->
   entry = stepCountOf (pg_sections p) (i - 1) - 1).
Proof.
  intros Hr Hi Hsec Hlt Hst. simpl.
  pose proof (reachable_inv _ _ Hr) as HI.
  pose proof (inv_section _ _ HI) as Hrange.
  assert (Hc : swaps (tweens s) = [])
    by (apply swaps_nil_of_chains, (inv_idle _ _ HI Hi)).
  destruct (item_in_range (pg_sections p) (i - 1)) as [prev Hn]; [lia|].
  subst i. unfold advance. simpl.
  rewrite (goBackward_section _ s prev Hi) by (auto; lia).
  assert (He : getEntryStepIndex prev (-1) = lastStepOf (pg_sections p) (sectionIndex s - 1)).
  { unfold getEntryStepIndex, lastStepOf. rewrite Hn. reflexivity. }
  rewrite <- He. repeat split.
  - simpl. apply in_or_app. right. simpl. auto.
  - rewrite settle_position. apply start_transition_target. exact Hc.
  - rewrite He. unfold lastStepOf, stepCountOf. rewrite Hn. lia.
Qed.

Lemma reachable_replay (p : Page) (es : list Event) (s : State) :
  replay p es = Some s -> reachable p s.
Proof.
  unfold replay. destruct (navigator (initObserver p)) as [s0|] eqn:E; [|discriminate].
  simpl. intros H. inversion H; subst. apply reachable_run, reach_init, E.
Qed.


Lemma C3_backward_entry_step_witness :
  exists s, replay story_page to_section_B = Some s /\
    isAnimating s = false /\ position s = (1, 0) /\
    position (settle (pg_sections story_page) (advance (pg_sections story_page) (-1) s))
    = (0, 2).
Proof.
  eexists. split; [vm_compute; reflexivity|].
  split; [reflexivity|]. split; [reflexivity|].
  refine (proj1 (proj2 (proj2 (C3_backward_entry_step story_page _ 1 _ _ _ _ _)))).
  - apply (reachable_replay story_page to_section_B). vm_compute. reflexivity.
  - reflexivity.
  - reflexivity.
  - reflexivity.
  - reflexivity.
Defined.

(** ** C4: the two ends of the story *)

(** C4: advance(-1) at section 0, step 0 and advance(+1) at the last step of
    the last section return the state they were given: position, busy flag,
    active outside set, DOM and the tweens in flight are all unchanged, so
    no animation is started. *)
Theorem C4_boundary_noop (sections : list SectionEl) (s : State) (d : Z) :
  (d = -1 /\ sectionIndex s = 0 /\ stepIndex s = 0) \/
  (d = 1 /\ sectionIndex s = len sections - 1 /\
   stepIndex s = lastStepOf sections (sectionIndex s)) ->
  advance sections d s = s.
Proof.
  intros [(-> & Hsec & Hst)|(-> & Hsec & Hst)]; unfold advance; simpl.
  - unfold goBackward. destruct (isAnimating s); [reflexivity|].
    destruct (item sections (sectionIndex s)); [|reflexivity].
    rewrite Hst, Hsec. reflexivity.
  - unfold goForward. destruct (isAnimating s); [reflexivity|].
    unfold lastStepOf in Hst.
    destruct (item sections (sectionIndex s)) as [sectionEl|]; [|reflexivity].
    assert (E1 : (stepIndex s <? len (getStepTemplates sectionEl) - 1) = false)
      by (apply Z.ltb_ge; lia).
    assert (E2 : (sectionIndex s <? len sections - 1) = false)
      by (apply Z.ltb_ge; lia).
    rewrite E1, E2. reflexivity.
Qed.

Lemma C4_boundary_noop_witness :
  exists s, replay story_page to_section_B = Some s /\
    isAnimating s = false /\ position s = (1, 0) /\
    advance (pg_sections story_page) 1 s = s.
Proof.
  eexists. split; [vm_compute; reflexivity|].
  split; [reflexivity|]. split; [reflexivity|].
  apply (C4_boundary_noop (pg_sections story_page) _ 1).
  right. repeat split; reflexivity.
Defined.

(** ** C5: the busy flag serialises requests *)

(** C5: when [isAnimating] is true an advance call returns the state it was
    given, whatever the direction: position, active outside set, DOM and
    tweens in flight are unchanged and nothing remembers the request.  In
    every state of a running navigator at most one tween of the busy chain,
    hence at most one timeline callback, is in flight, and none is while
    the navigator is idle: section transitions do not overlap. *)
Theorem C5_busy_drops_requests (p : Page) (s : State) (d : Z) :
  reachable p s ->
  (isAnimating s = true -> advance (pg_sections p) d s = s) /\
  (List.length (swaps (tweens s)) <= chains (tweens s))%nat /\
  (chains (tweens s) <= 1)%nat /\
  (isAnimating s = false -> chains (tweens s) = O).
Proof.
  intros Hr. pose proof (reachable_inv _ _ Hr) as [H1 H2 H3 H4 H5].
  repeat split; auto.
  - apply advance_busy.
  - clear. unfold swaps, chains. induction (tweens s) as [|t ts IH]; simpl; [lia|].
    destruct t; simpl; lia.
Qed.

Lemma C5_busy_drops_requests_witness :
  exists s, replay story_page (drain ++ [OnDown]) = Some s /\
    isAnimating s = true /\ position s = (0, 1) /\
    advance (pg_sections story_page) 1 s = s /\
    advance (pg_sections story_page) (-1) s = s.
Proof.
  eexists. split; [vm_compute; reflexivity|].
  split; [reflexivity|]. split; [reflexivity|].
  split.
  - refine (proj1 (C5_busy_drops_requests story_page _ 1 _) _); [|reflexivity].
    apply (reachable_replay story_page (drain ++ [OnDown])). vm_compute. reflexivity.
  - refine (proj1 (C5_busy_drops_requests story_page _ (-1) _) _); [|reflexivity].
    apply (reachable_replay story_page (drain ++ [OnDown])). vm_compute. reflexivity.
Defined.

(** ** C7: the position stays on the grid *)

(** C7, as stated, fails: on a page whose section has no step template the
    navigator starts at step 0 although the section has 0 steps, so
    stepIndex < stepCountOf(sectionIndex) is false at initialization. *)
Lemma C7_empty_section_counterexample :
  match navigator (initObserver bare_page) with
  | None => False
  | Some s =>
      position s = (0, 0) /\
      stepCountOf (pg_sections bare_page) (sectionIndex s) = 0 /\
      ~ (0 <= sectionIndex s < len (pg_sections bare_page) /\
         0 <= stepIndex s < stepCountOf (pg_sections bare_page) (sectionIndex s))
  end.
Proof. vm_compute. repeat split. intros [_ [_ H]]. discriminate H. Qed.

(** C7 (amended): in every state of a running navigator, from
    initialization on and after any sequence of requests, completions and
    teardowns, 0 <= sectionIndex < sectionCount and
    0 <= stepIndex <= max(stepCountOf(sectionIndex) - 1, 0); the step index
    is below the step count whenever the current section has a step. *)
Theorem C7_position_invariant (p : Page) (s : State) :
  reachable p s ->
  0 <= sectionIndex s < len (pg_sections p) /\
  0 <= stepIndex s <= Z.max (stepCountOf (pg_sections p) (sectionIndex s) - 1) 0 /\
  (1 <= stepCountOf (pg_sections p) (sectionIndex s) ->
   stepIndex s < stepCountOf (pg_sections p) (sectionIndex s)).
Proof.
  intros Hr. pose proof (reachable_inv _ _ Hr) as [H1 H2 _ _ _].
  unfold lastStepOf in H2. unfold stepCountOf.
  destruct (item (pg_sections p) (sectionIndex s)); repeat split; lia.
Qed.

Lemma C7_position_invariant_witness :
  exists s, replay story_page to_section_B = Some s /\
    0 <= sectionIndex s < 2 /\ 0 <= stepIndex s < 1.
Proof.
  eexists. split; [vm_compute; reflexivity|].
  pose proof (C7_position_invariant story_page _
                (reachable_replay story_page to_section_B _ eq_refl)) as (H1 & H2 & H3).
  split; [exact H1|]. split; [apply H2|apply H3; vm_compute; discriminate].
Defined.

(** ** C9: initialization without its root containers *)

(** C9: with no [.section] element or no [#device-content], [initObserver]
    logs one warning, creates no navigator (no state, no listener, no
    animation) and returns a function that does nothing. *)
Theorem C9_init_aborts (p : Page) :
  pg_sections p = [] \/ pg_device p = None ->
  initObserver p = {| console := ["Observer: missing DOM nodes."%string];
                      navigator := None; teardown := noop |} /\
  forall nav, call_teardown (teardown (initObserver p)) nav = nav.
Proof.
  intros H.
  assert (E : initObserver p = {| console := ["Observer: missing DOM nodes."%string];
                                  navigator := None; teardown := noop |}).
  { unfold initObserver. destruct H as [H|H]; rewrite H.
    - reflexivity.
    - destruct (pg_sections p); reflexivity. }
  split; [exact E|]. rewrite E. reflexivity.
Qed.

Lemma C9_init_aborts_witness :
  navigator (initObserver headless_page) = None /\
  teardown (initObserver headless_page) = noop /\
  List.length (console (initObserver headless_page)) = 1%nat.
Proof.
  destruct (C9_init_aborts headless_page (or_intror eq_refl)) as [E _].
  rewrite E. repeat split.
Defined.

(** ** C10: a step change makes the navigator busy *)

Section Busy.

Variable sections : list SectionEl.

Lemma isAnimating_show (sectionEl : SectionEl) (step : Z) (s : State) :
  isAnimating (showOutside sectionEl step s) = isAnimating s.
Proof. rewrite showOutside_eq. reflexivity. Qed.

Lemma isAnimating_render (sectionEl : SectionEl) (step : Z) (s : State) :
  isAnimating s = true -> isAnimating (renderDeviceStep sectionEl step s) = true.
Proof.
  intros H. destruct (step_source sectionEl step) as [[tpl el]|] eqn:E.
  - rewrite (render_swap _ _ _ _ _ E). reflexivity.
  - rewrite (render_skip _ _ _ E). exact H.
Qed.

Lemma isAnimating_destroy (s : State) : isAnimating (destroy s) = isAnimating s.
Proof. unfold destroy. rewrite hideOutside_eq. reflexivity. Qed.

Lemma onKeyDown_busy (key : string) (s : State) :
  isAnimating s = true -> onKeyDown sections key s = s.
Proof.
  intros H. unfold onKeyDown.
  destruct (String.eqb key "ArrowDown"); rewrite ?(goForward_busy sections s H);
    destruct (String.eqb key "ArrowUp"); rewrite ?(goBackward_busy sections s H);
    reflexivity.
Qed.

(** Only the completion of a step's enter animation clears the busy flag. *)
Lemma handle_keeps_busy (e : Event) (s : State) :
  isAnimating s = true -> releases e s = false ->
  isAnimating (handle sections e s) = true.
Proof.
  intros Hb Hr. destruct e; simpl.
  - destruct (observerOn s); [rewrite goForward_busy|]; assumption.
  - destruct (observerOn s); [rewrite goBackward_busy|]; assumption.
  - destruct (keydownOn s); [rewrite onKeyDown_busy|]; assumption.
  - unfold complete. simpl in Hr.
    destruct (nth_error (tweens s) k) as [t|]; [|exact Hb].
    destruct t; simpl in *; try assumption; try discriminate.
    destruct (item sections nextIndex); [|exact Hb].
    rewrite isAnimating_show. apply isAnimating_render. exact Hb.
  - rewrite isAnimating_destroy. exact Hb.
Qed.

Lemma run_keeps_busy (es : list Event) (s : State) :
  isAnimating s = true -> holds_busy sections es s = true ->
  isAnimating (run sections es s) = true.
Proof.
  unfold run. revert s. induction es as [|e es IH]; intros s Hb Hh; simpl; [exact Hb|].
  simpl in Hh. apply andb_prop in Hh. destruct Hh as [Hr Hh].
  apply negb_true_iff in Hr. apply IH; [|exact Hh].
  apply handle_keeps_busy; assumption.
Qed.

End Busy.

(** C10: a step change inside a section, forward or backward, whose target
    template exists and has content moves [stepIndex] and sets
    [isAnimating]; the flag stays set, and every advance call is dropped,
    over any run of events in which no enter animation completes; an event
    that clears the flag is the completion of an enter animation; and once
    the animations have completed the flag is clear. *)
Theorem C10_step_change_is_busy (p : Page) (s : State) (sectionEl : SectionEl)
        (d step : Z) (tpl : StepTemplate) (el : Element) :
  reachable p s ->
  isAnimating s = false ->
  item (pg_sections p) (sectionIndex s) = Some sectionEl ->
  (d = 1 /\ stepIndex s < len (getStepTemplates sectionEl) - 1 /\ step = stepIndex s + 1) \/
  (d = -1 /\ 0 < stepIndex s /\ step = stepIndex s - 1) ->
  item (getStepTemplates sectionEl) step = Some tpl ->
  st_content tpl = Some el ->
  let s' := advance (pg_sections p) d s in
  position s' = (sectionIndex s, step) /\
  isAnimating s' = true /\
  (forall es, holds_busy (pg_sections p) es s' = true ->
     isAnimating (run (pg_sections p) es s') = true /\
     forall d', advance (pg_sections p) d' (run (pg_sections p) es s')
                = run (pg_sections p) es s') /\
  (forall e s1, isAnimating s1 = true ->
     isAnimating (handle (pg_sections p) e s1) = false -> releases e s1 = true) /\
  isAnimating (settle (pg_sections p) s') = false.
Proof.
  intros Hr Hi Hs Hd Ht Hc. simpl.
  assert (Hsrc : step_source sectionEl step = Some (tpl, el))
    by (unfold step_source; rewrite Ht, Hc; reflexivity).
  assert (Hsw : swaps (tweens s) = [])
    by (apply swaps_nil_of_chains, (inv_idle _ _ (reachable_inv _ _ Hr) Hi)).
  assert (E : advance (pg_sections p) d s = change_step sectionEl step s).
  { unfold advance. destruct Hd as [(-> & Hlt & ->)|(-> & Hlt & ->)]; simpl.
    - apply goForward_step; assumption.
    - apply goBackward_step; assumption. }
  rewrite E. destruct (change_step_busy sectionEl step s tpl el Hsrc) as [Hb Hch].
  split; [apply change_step_position|]. split; [exact Hb|].
  split; [|split].
  - intros es Hh.
    pose proof (run_keeps_busy (pg_sections p) es _ Hb Hh) as Hrun.
    split; [exact Hrun|]. intros d'. apply advance_busy. exact Hrun.
  - intros e s1 Hb1 Hc1. destruct (releases e s1) eqn:R; [reflexivity|].
    rewrite (handle_keeps_busy (pg_sections p) e s1 Hb1 R) in Hc1. discriminate.
  - apply settle_idle. apply change_step_releasing; assumption.
Qed.

Lemma C10_step_change_is_busy_witness :
  exists s, boot story_page = Some s /\
    isAnimating s = false /\
    isAnimating (advance (pg_sections story_page) 1 s) = true /\
    position (advance (pg_sections story_page) 1 s) = (0, 1).
Proof.
  eexists. split; [vm_compute; reflexivity|]. split; [reflexivity|].
  match goal with |- isAnimating (advance _ _ ?s) = _ /\ _ =>
    pose proof (C10_step_change_is_busy story_page s story_A 1 1 (step_of "a1"%string) "a1"%string
                  (reachable_boot story_page s eq_refl) eq_refl eq_refl
                  (or_introl (conj eq_refl (conj eq_refl eq_refl))) eq_refl eq_refl)
      as (H1 & H2 & _)
  end.
  split; [exact H2|exact H1].
Defined.

(** ** C8: a render that finds no template *)

(** With no template to clone, [renderDeviceStep] only cancels the tweens
    on the device's children: content, position and busy flag stay. *)
Lemma render_skip_frame (sectionEl : SectionEl) (step : Z) (s : State) :
  step_source sectionEl step = None ->
  let s' := renderDeviceStep sectionEl step s in
  deviceChildren s' = deviceChildren s /\ position s' = position s /\
  isAnimating s' = isAnimating s /\ activeOutside s' = activeOutside s /\
  outsideLayers s' = outsideLayers s.
Proof. intros E. simpl. rewrite (render_skip _ _ _ E). repeat split. Qed.

Section Stuck.

Variable sections : list SectionEl.

Lemma chains_zero_nth (ts : list Tween) (k : nat) (t : Tween) :
  chains ts = O -> nth_error ts k = Some t ->
  chain t = false /\ chains (remove_at k ts) = O.
Proof.
  intros Hc Hn. destruct (remove_at_split _ _ _ Hn) as (l1 & l2 & -> & ->).
  rewrite chains_app in *. unfold chains in Hc at 2. simpl in Hc.
  destruct (chain t); simpl in Hc; [lia|]. split; [reflexivity|].
  unfold chains in *. lia.
Qed.

Lemma stuck_handle (e : Event) (s : State) :
  stuck s -> stuck (handle sections e s) /\ position (handle sections e s) = position s.
Proof.
  intros [Hb Hc]. destruct e; simpl.
  - destruct (observerOn s); rewrite ?goForward_busy by assumption; repeat split; auto.
  - destruct (observerOn s); rewrite ?goBackward_busy by assumption; repeat split; auto.
  - destruct (keydownOn s); rewrite ?onKeyDown_busy by assumption; repeat split; auto.
  - unfold complete. destruct (nth_error (tweens s) k) as [t|] eqn:N;
      [|repeat split; auto].
    destruct (chains_zero_nth _ _ _ Hc N) as [Ht Hr].
    destruct t; simpl in Ht; try discriminate; repeat split; auto.
  - unfold destroy. rewrite hideOutside_eq. unfold stuck. simpl.
    pose proof (chains_hide (activeOutside s) (tweens s)). repeat split; auto. lia.
Qed.

(** A stuck navigator never moves again, whatever events follow. *)
Lemma stuck_forever (es : list Event) (s : State) :
  stuck s -> stuck (run sections es s) /\ position (run sections es s) = position s.
Proof.
  unfold run. revert s. induction es as [|e es IH]; intros s H; simpl; [auto|].
  destruct (stuck_handle e s H) as [H1 H2]. destruct (IH _ H1) as [H3 H4].
  split; [exact H3|]. rewrite H4. exact H2.
Qed.

End Stuck.

(** C8 (the code at the failing input): on [hollow_page], after the first
    render has finished, one advance(+1) starts the transition to the
    section without templates.  Its callback commits (1, 0) and calls
    [renderDeviceStep], which returns at its guard: the previous content
    "b0" stays in the device, but [isAnimating], raised by [goToSection],
    is still true with no animation in flight, and it stays true for ever:
    after any further events the navigator is still busy at (1, 0), and in
    particular advance(-1), which should lead back to section 0, is
    dropped. *)
Theorem C8_skipped_render_freezes_navigation :
  match replay hollow_page (drain ++ [OnDown] ++ drain) with
  | None => False
  | Some s =>
      position s = (1, 0) /\
      map node_html (deviceChildren s) = ["b0"%string] /\
      isAnimating s = true /\ tweens s = [] /\
      advance (pg_sections hollow_page) (-1) s = s /\
      forall es,
        isAnimating (run (pg_sections hollow_page) es s) = true /\
        position (run (pg_sections hollow_page) es s) = (1, 0)
  end.
Proof.
  destruct (replay hollow_page (drain ++ [OnDown] ++ drain)) as [s|] eqn:E;
    vm_compute in E; [|discriminate].
  inversion E; subst; clear E.
  repeat split;
    match goal with
    | |- context [run _ ?es ?s] =>
        assert (St : stuck s) by (split; reflexivity);
        destruct (stuck_forever (pg_sections hollow_page) es s St) as [[Hb _] Hp]
    end.
  - exact Hb.
  - exact Hp.
Qed.

(** ** Node identities *)

Lemma Fresh_shrink (s s' : State) :
  Fresh s ->
  (nextNode s <= nextNode s')%nat ->
  incl (outside_ids s') (outside_ids s) ->
  incl (device_ids s') (device_ids s) ->
  NoDup (active_ids s') ->
  Fresh s'.
Proof.
  intros [F1 F2 F3 F4] Hn Ho Hd Ha. split; auto.
  - intros i Hi. specialize (F1 i (Ho i Hi)). lia.
  - intros i Hi. specialize (F2 i (Hd i Hi)). lia.
  - intros i Hi Hi'. apply (F3 i (Ho i Hi) (Hd i Hi')).
Qed.

Lemma exit_ids_app (ts us : list Tween) : exit_ids (ts ++ us) = exit_ids ts ++ exit_ids us.
Proof. apply flat_map_app. Qed.

Lemma fade_ids_app (ts us : list Tween) : fade_ids (ts ++ us) = fade_ids ts ++ fade_ids us.
Proof. apply flat_map_app. Qed.

Lemma exit_ids_kill (ids : list nat) (ts : list Tween) :
  incl (exit_ids (killTweensOf ids ts)) (exit_ids ts).
Proof.
  induction ts as [|t ts IH]; simpl; [apply incl_refl|].
  destruct (kill_tween ids t) as [t'|] eqn:K.
  - destruct (kill_tween_shape _ _ _ K) as [->|(ks & ks' & n & fx & -> & ->)]; simpl.
    + apply incl_app_app; [apply incl_refl|exact IH].
    + exact IH.
  - apply incl_appr. exact IH.
Qed.

Lemma fade_ids_kill (ids : list nat) (ts : list Tween) :
  incl (fade_ids (killTweensOf ids ts)) (fade_ids ts).
Proof.
  induction ts as [|t ts IH]; simpl; [apply incl_refl|].
  destruct (kill_tween ids t) as [t'|] eqn:K.
  - destruct (kill_tween_shape _ _ _ K) as [->|(ks & ks' & n & fx & -> & ->)]; simpl.
    + apply incl_app_app; [apply incl_refl|exact IH].
    + apply incl_cons; [left; reflexivity|apply incl_tl; exact IH].
  - apply incl_appr. exact IH.
Qed.

(** An exit animation survives [killTweensOf] on other nodes. *)
Lemma exit_ids_kill_keeps (ids : list nat) (ts : list Tween) (i : nat) :
  In i (exit_ids ts) -> ~ In i ids -> In i (exit_ids (killTweensOf ids ts)).
Proof.
  intros Hi Hn. induction ts as [|t ts IH]; simpl in *; [exact Hi|].
  apply in_app_or in Hi. destruct Hi as [Hi|Hi].
  - destruct t; simpl in Hi; try contradiction.
    destruct Hi as [<-|[]]. simpl.
    destruct (has_id (node_id node) ids) eqn:E.
    + exfalso. apply Hn. unfold has_id in E. apply existsb_exists in E.
      destruct E as (j & Hj & Ej). apply Nat.eqb_eq in Ej. subst j. exact Hj.
    + simpl. left. reflexivity.
  - destruct (kill_tween ids t) as [t'|]; [simpl; apply in_or_app; right|]; auto.
Qed.

Lemma exit_ids_hide (entries : list (Node * Position)) (ts : list Tween) :
  incl (exit_ids (hide_tweens entries ts))
       (map (fun e => node_id (fst e)) entries ++ exit_ids ts).
Proof.
  revert ts. induction entries as [|e es IH]; intros ts; simpl; [apply incl_refl|].
  intros i Hi. apply IH in Hi. apply in_app_or in Hi. destruct Hi as [Hi|Hi].
  - right. apply in_or_app. left. exact Hi.
  - rewrite exit_ids_app in Hi. apply in_app_or in Hi. destruct Hi as [Hi|Hi].
    + right. apply in_or_app. right. apply (exit_ids_kill _ _ _ Hi).
    + simpl in Hi. destruct Hi as [<-|[]]. left. reflexivity.
Qed.

Lemma fade_ids_hide (entries : list (Node * Position)) (ts : list Tween) :
  incl (fade_ids (hide_tweens entries ts)) (fade_ids ts).
Proof.
  revert ts. induction entries as [|e es IH]; intros ts; simpl; [apply incl_refl|].
  intros i Hi. apply IH in Hi. rewrite fade_ids_app in Hi. simpl in Hi.
  rewrite app_nil_r in Hi. apply (fade_ids_kill _ _ _ Hi).
Qed.

Lemma exit_ids_enter (new : list (Node * Position)) : exit_ids (map enter_tween new) = [].
Proof. induction new; simpl; auto. Qed.

Lemma fade_ids_enter (new : list (Node * Position)) : fade_ids (map enter_tween new) = [].
Proof. induction new; simpl; auto. Qed.

Lemma exit_ids_remove_at (k : nat) (ts : list Tween) :
  incl (exit_ids (remove_at k ts)) (exit_ids ts).
Proof.
  revert ts. induction k as [|k IH]; intros [|t ts]; simpl; try apply incl_refl.
  - apply incl_appr, incl_refl.
  - apply incl_app_app; [apply incl_refl|apply IH].
Qed.

Lemma fade_ids_remove_at (k : nat) (ts : list Tween) :
  incl (fade_ids (remove_at k ts)) (fade_ids ts).
Proof.
  revert ts. induction k as [|k IH]; intros [|t ts]; simpl; try apply incl_refl.
  - apply incl_appr, incl_refl.
  - apply incl_app_app; [apply incl_refl|apply IH].
Qed.

Lemma Fresh_hideOutside (s : State) : Fresh s -> Fresh (hideOutside s).
Proof.
  intros F. apply (Fresh_shrink s _ F); rewrite hideOutside_eq; simpl.
  - lia.
  - unfold outside_ids, active_ids. simpl. apply exit_ids_hide.
  - unfold device_ids. simpl. apply incl_app_app; [apply incl_refl|apply fade_ids_hide].
  - constructor.
Qed.

Lemma Fresh_showOutside (sectionEl : SectionEl) (step : Z) (s : State) :
  Fresh s -> Fresh (showOutside sectionEl step s).
Proof.
  intros [F1 F2 F3 F4]. rewrite showOutside_eq.
  set (new := mk_nodes (nextNode s) _).
  assert (Hids : map (fun e => node_id (fst e)) new
                 = seq (nextNode s) (List.length new)).
  { unfold new. rewrite mk_nodes_ids, length_mk_nodes. reflexivity. }
  unfold outside_ids, device_ids, active_ids in *.
  split; simpl; unfold outside_ids, device_ids, active_ids; simpl;
    rewrite ?map_app, ?Hids, ?exit_ids_app, ?fade_ids_app, ?exit_ids_enter,
            ?fade_ids_enter, ?app_nil_r.
  - intros i Hi. rewrite <- app_assoc in Hi. apply in_app_or in Hi.
    destruct Hi as [Hi|Hi]; [specialize (F1 i (in_or_app _ _ _ (or_introl Hi))); lia|].
    apply in_app_or in Hi. destruct Hi as [Hi|Hi].
    + apply in_seq in Hi. lia.
    + specialize (F1 i (in_or_app _ _ _ (or_intror Hi))). lia.
  - intros i Hi. specialize (F2 i Hi). lia.
  - intros i Hi Hd. rewrite <- app_assoc in Hi. apply in_app_or in Hi.
    destruct Hi as [Hi|Hi]; [apply (F3 i (in_or_app _ _ _ (or_introl Hi)) Hd)|].
    apply in_app_or in Hi. destruct Hi as [Hi|Hi].
    + apply in_seq in Hi. specialize (F2 i Hd). lia.
    + apply (F3 i (in_or_app _ _ _ (or_intror Hi)) Hd).
  - apply NoDup_app; [exact F4|apply seq_NoDup|].
    intros i Hi Hs. apply in_seq in Hs.
    specialize (F1 i (in_or_app _ _ _ (or_introl Hi))). lia.
Qed.

Lemma Fresh_render (sectionEl : SectionEl) (step : Z) (s : State) :
  Fresh s -> Fresh (renderDeviceStep sectionEl step s).
Proof.
  intros F.
  assert (Fk : Fresh (set_tweens (killTweensOf (map node_id (deviceChildren s)) (tweens s)) s)).
  { apply (Fresh_shrink s _ F); simpl; try lia.
    - unfold outside_ids, active_ids. simpl.
      apply incl_app_app; [apply incl_refl|apply exit_ids_kill].
    - unfold device_ids. simpl. apply incl_app_app; [apply incl_refl|apply fade_ids_kill].
    - apply (fresh_active _ F). }
  destruct (step_source sectionEl step) as [[tpl el]|] eqn:E.
  - rewrite (render_swap _ _ _ _ _ E). destruct Fk as [F1 F2 F3 F4].
    unfold outside_ids, device_ids, active_ids in *. simpl in *.
    split; simpl; unfold outside_ids, device_ids, active_ids; simpl;
      rewrite ?exit_ids_app, ?fade_ids_app; simpl; rewrite ?app_nil_r.
    + intros i Hi. specialize (F1 i Hi). lia.
    + intros i Hi. rewrite app_assoc in Hi. apply in_app_or in Hi.
      destruct Hi as [Hi|[<-|[]]]; [specialize (F2 i Hi)|]; lia.
    + intros i Hi Hd. rewrite app_assoc in Hd. apply in_app_or in Hd.
      destruct Hd as [Hd|[<-|[]]]; [apply (F3 i Hi Hd)|].
      specialize (F1 _ Hi). lia.
    + exact F4.
  - rewrite (render_skip _ _ _ E). exact Fk.
Qed.

Section FreshSteps.

Variable sections : list SectionEl.

Lemma Fresh_goToSection (nextIndex direction : Z) (s : State) :
  Fresh s -> Fresh (goToSection sections nextIndex direction s).
Proof.
  intros F. unfold goToSection.
  destruct ((nextIndex <? 0) || (nextIndex >=? len sections)); [exact F|].
  destruct (isAnimating s); [exact F|].
  assert (Fb : Fresh (set_isAnimating true s)) by (destruct F; split; assumption).
  destruct (item sections nextIndex) as [next|]; [|exact Fb].
  apply (Fresh_shrink _ _ (Fresh_hideOutside _ Fb)); simpl; try lia.
  - unfold outside_ids, active_ids. simpl. rewrite exit_ids_app. simpl.
    rewrite app_nil_r. apply incl_refl.
  - unfold device_ids. simpl. rewrite fade_ids_app. simpl.
    rewrite app_nil_r. apply incl_refl.
  - apply (fresh_active _ (Fresh_hideOutside _ Fb)).
Qed.

Lemma Fresh_set_stepIndex (v : Z) (s : State) : Fresh s -> Fresh (set_stepIndex v s).
Proof. intros [F1 F2 F3 F4]. split; assumption. Qed.

Lemma Fresh_goForward (s : State) : Fresh s -> Fresh (goForward sections s).
Proof.
  intros F. unfold goForward. destruct (isAnimating s); [exact F|].
  destruct (item sections (sectionIndex s)) as [sectionEl|]; [|exact F].
  destruct (stepIndex s <? len (getStepTemplates sectionEl) - 1).
  - apply Fresh_showOutside, Fresh_render, Fresh_hideOutside, Fresh_set_stepIndex, F.
  - destruct (sectionIndex s <? len sections - 1); [|exact F].
    apply Fresh_goToSection, Fresh_hideOutside, F.
Qed.

Lemma Fresh_goBackward (s : State) : Fresh s -> Fresh (goBackward sections s).
Proof.
  intros F. unfold goBackward. destruct (isAnimating s); [exact F|].
  destruct (item sections (sectionIndex s)) as [sectionEl|]; [|exact F].
  destruct (stepIndex s >? 0).
  - apply Fresh_showOutside, Fresh_render, Fresh_hideOutside, Fresh_set_stepIndex, F.
  - destruct (sectionIndex s >? 0); [|exact F].
    apply Fresh_goToSection, Fresh_hideOutside, F.
Qed.

Lemma Fresh_complete (k : nat) (s : State) : Fresh s -> Fresh (complete sections k s).
Proof.
  intros F. unfold complete.
  destruct (nth_error (tweens s) k) as [t|] eqn:N; [|exact F].
  assert (Fr : Fresh (set_tweens (remove_at k (tweens s)) s)).
  { apply (Fresh_shrink s _ F); simpl; try lia.
    - unfold outside_ids, active_ids. simpl.
      apply incl_app_app; [apply incl_refl|apply exit_ids_remove_at].
    - unfold device_ids. simpl.
      apply incl_app_app; [apply incl_refl|apply fade_ids_remove_at].
    - apply (fresh_active _ F). }
  destruct t; simpl.
  - destruct Fr as [F1 F2 F3 F4]. split; assumption.
  - exact Fr.
  - apply (Fresh_shrink s _ F); simpl; try lia.
    + unfold outside_ids, active_ids. simpl. rewrite exit_ids_app. simpl.
      rewrite app_nil_r. apply incl_app_app; [apply incl_refl|apply exit_ids_remove_at].
    + unfold device_ids. simpl. rewrite fade_ids_app. simpl. rewrite app_nil_r.
      intros i [<-|Hi].
      * apply in_or_app. right. apply nth_error_In in N.
        unfold fade_ids. apply in_flat_map. exists (StepFadeOut targets node fromX).
        split; [exact N|left; reflexivity].
      * apply in_or_app. right. apply (fade_ids_remove_at _ _ _ Hi).
    + apply (fresh_active _ F).
  - destruct Fr as [F1 F2 F3 F4]. split; assumption.
  - exact Fr.
  - exact Fr.
  - assert (Fp : Fresh (set_stepIndex entryStep
                          (set_sectionIndex nextIndex
                             (set_tweens (remove_at k (tweens s)) s))))
      by (destruct Fr as [F1 F2 F3 F4]; split; assumption).
    destruct (item sections nextIndex); [|exact Fp].
    apply Fresh_showOutside, Fresh_render, Fp.
Qed.

Lemma Fresh_handle (e : Event) (s : State) : Fresh s -> Fresh (handle sections e s).
Proof.
  intros F. destruct e; simpl.
  - destruct (observerOn s); auto using Fresh_goForward.
  - destruct (observerOn s); auto using Fresh_goBackward.
  - destruct (keydownOn s); [|exact F]. unfold onKeyDown.
    destruct (String.eqb key "ArrowDown"); destruct (String.eqb key "ArrowUp");
      auto using Fresh_goForward, Fresh_goBackward.
  - apply Fresh_complete, F.
  - unfold destroy. apply Fresh_hideOutside. destruct F as [F1 F2 F3 F4]. split; assumption.
Qed.

End FreshSteps.

Lemma fresh_id_above (p : Page) (kids : list Node) (k : Node) :
  pg_device p = Some kids -> In k kids -> (node_id k < fresh_id p)%nat.
Proof.
  intros Hd Hk. unfold fresh_id. rewrite Hd.
  assert (G : forall l : list nat, forall i, In i l -> (i <= fold_right Nat.max O l)%nat).
  { induction l as [|a l IH]; intros i Hi; [destruct Hi|].
    destruct Hi as [<-|Hi]; simpl; [lia|]. specialize (IH i Hi). lia. }
  specialize (G (map node_id (kids ++ layer_nodes (pg_layers p))) (node_id k)).
  assert (In (node_id k) (map node_id (kids ++ layer_nodes (pg_layers p)))).
  { apply in_map. apply in_or_app. left. exact Hk. }
  specialize (G H). lia.
Qed.

Lemma Fresh_init (p : Page) (s0 : State) :
  navigator (initObserver p) = Some s0 -> Fresh s0.
Proof.
  intros H. destruct (init_navigator p s0 H) as (section0 & rest & kids & Hs & Hd & _ & ->).
  match goal with |- Fresh (set_listeners _ _ ?s) => assert (F : Fresh s) end.
  { apply Fresh_showOutside, Fresh_render.
    split; unfold outside_ids, device_ids, active_ids, init_state; simpl.
    - intros i [].
    - intros i Hi. rewrite app_nil_r in Hi. apply in_map_iff in Hi.
      destruct Hi as (k & <- & Hk). apply (fresh_id_above p kids k Hd Hk).
    - intros i [].
    - constructor. }
  destruct F as [F1 F2 F3 F4]. split; assumption.
Qed.

Lemma reachable_fresh (p : Page) (s : State) : reachable p s -> Fresh s.
Proof.
  induction 1 as [s0 H|s e _ IH]; [apply (Fresh_init p), H|apply Fresh_handle, IH].
Qed.

(** ** Outside nodes and the DOM *)

Lemma has_id_In (i : nat) (ids : list nat) : has_id i ids = true <-> In i ids.
Proof.
  unfold has_id. rewrite existsb_exists. split.
  - intros (j & Hj & E). apply Nat.eqb_eq in E. subst. exact Hj.
  - intros H. exists i. split; [exact H|apply Nat.eqb_refl].
Qed.

Lemma layer_nodes_filter (g : Node -> bool) (l : Layers) :
  layer_nodes (layer_map (filter g) l) = filter g (layer_nodes l).
Proof.
  destruct l as [[a|] [b|] [c|] [d|]]; unfold layer_nodes; simpl;
    rewrite ?filter_app; reflexivity.
Qed.

Lemma dom_ids_remove (n : Node) (l : Layers) (i : nat) :
  In i (dom_ids (node_remove n l)) -> In i (dom_ids l) /\ i <> node_id n.
Proof.
  unfold dom_ids, node_remove. rewrite layer_nodes_filter. intros H.
  apply in_map_iff in H. destruct H as (k & <- & Hk). apply filter_In in Hk.
  destruct Hk as [Hk Hne]. split; [apply in_map; exact Hk|].
  apply negb_true_iff in Hne. apply Nat.eqb_neq in Hne. exact Hne.
Qed.

Lemma layer_nodes_append (p : Position) (n : Node) (l : Layers) (k : Node) :
  In k (layer_nodes (layer_append p n l)) -> k = n \/ In k (layer_nodes l).
Proof.
  destruct p; destruct l as [[a|] [b|] [c|] [d|]]; unfold layer_nodes; simpl;
    rewrite ?in_app_iff; simpl; rewrite ?in_app_iff; simpl; intuition.
Qed.

Lemma layer_append_mounts (p : Position) (n : Node) (l : Layers) (kids : list Node) :
  layer_get p l = Some kids -> layer_get p (layer_append p n l) = Some (kids ++ [n]).
Proof. destruct p; simpl; intros ->; reflexivity. Qed.

Lemma layer_append_keeps (p q : Position) (n k : Node) (l : Layers) (kids : list Node) :
  layer_get p l = Some kids -> In k kids ->
  exists kids', layer_get p (layer_append q n l) = Some kids' /\ In k kids'.
Proof.
  destruct p, q; simpl; intros -> Hk; simpl; eexists; split; try reflexivity;
    try assumption; apply in_or_app; left; assumption.
Qed.

Lemma dom_ids_mount (new : list (Node * Position)) (l : Layers) (i : nat) :
  In i (dom_ids (fold_left mount new l)) ->
  In i (map (fun e => node_id (fst e)) new) \/ In i (dom_ids l).
Proof.
  revert l. induction new as [|e new IH]; intros l H; simpl in *; [right; exact H|].
  apply IH in H. destruct H as [H|H]; [left; right; exact H|].
  unfold dom_ids in H. apply in_map_iff in H. destruct H as (k & <- & Hk).
  apply layer_nodes_append in Hk. destruct Hk as [->|Hk].
  - left. left. reflexivity.
  - right. apply in_map. exact Hk.
Qed.

Section Leaving.

Variable sections : list SectionEl.

Lemma gone_show_render (sectionEl : SectionEl) (step : Z) (s : State) (i : nat) :
  gone i s -> gone i (showOutside sectionEl step (renderDeviceStep sectionEl step s)).
Proof.
  intros [Hlt Hd].
  assert (R : (nextNode s <= nextNode (renderDeviceStep sectionEl step s))%nat /\
              outsideLayers (renderDeviceStep sectionEl step s) = outsideLayers s).
  { destruct (step_source sectionEl step) as [[tpl el]|] eqn:E.
    - rewrite (render_swap _ _ _ _ _ E). simpl. split; [lia|reflexivity].
    - rewrite (render_skip _ _ _ E). simpl. split; [lia|reflexivity]. }
  destruct R as [Rn Rl]. rewrite showOutside_eq. unfold gone. simpl. split; [lia|].
  intros H. apply dom_ids_mount in H. destruct H as [H|H].
  - rewrite mk_nodes_ids in H. apply in_seq in H. lia.
  - rewrite Rl in H. exact (Hd H).
Qed.

Lemma gone_complete (k i : nat) (s : State) :
  gone i s -> gone i (complete sections k s).
Proof.
  intros G. unfold complete. destruct (nth_error (tweens s) k) as [t|]; [|exact G].
  destruct t; simpl; try exact G.
  - destruct G as [Hlt Hd]. split; [exact Hlt|]. simpl. intros H.
    apply dom_ids_remove in H. destruct H as [H _]. exact (Hd H).
  - destruct (item sections nextIndex); [|exact G].
    apply gone_show_render. exact G.
Qed.

Lemma exit_ids_show_render (sectionEl : SectionEl) (step : Z) (s : State) (i : nat) :
  Fresh s -> In i (exit_ids (tweens s)) ->
  In i (exit_ids (tweens (showOutside sectionEl step (renderDeviceStep sectionEl step s)))).
Proof.
  intros F Hi. rewrite showOutside_eq. simpl. rewrite exit_ids_app.
  apply in_or_app. left.
  assert (Hk : In i (exit_ids (killTweensOf (map node_id (deviceChildren s)) (tweens s)))).
  { apply exit_ids_kill_keeps; [exact Hi|]. intros Hd.
    apply (fresh_apart _ F i).
    - unfold outside_ids. apply in_or_app. right. exact Hi.
    - unfold device_ids. apply in_or_app. left. exact Hd. }
  destruct (step_source sectionEl step) as [[tpl el]|] eqn:E.
  - rewrite (render_swap _ _ _ _ _ E). simpl. rewrite exit_ids_app.
    apply in_or_app. left. exact Hk.
  - rewrite (render_skip _ _ _ E). simpl. exact Hk.
Qed.

Lemma leaving_complete_head (i : nat) (s : State) :
  leaving i s -> leaving i (complete sections 0 s).
Proof.
  intros [F H]. split; [apply Fresh_complete; exact F|].
  destruct H as [H|G]; [|right; apply gone_complete; exact G].
  unfold complete. destruct (tweens s) as [|t ts] eqn:E; simpl; [destruct H|].
  simpl in H. apply in_app_or in H. destruct H as [H|H].
  - destruct t; simpl in H; try contradiction. destruct H as [<-|[]].
    right. split; simpl.
    + apply (fresh_outside _ F). unfold outside_ids. apply in_or_app. right.
      rewrite E. simpl. left. reflexivity.
    + intros Hd. apply dom_ids_remove in Hd. destruct Hd as [_ Hd]. apply Hd. reflexivity.
  - assert (Fr : Fresh (set_tweens ts s)).
    { apply (Fresh_shrink s _ F); simpl; try lia.
      - unfold outside_ids, active_ids. simpl. rewrite E.
        apply incl_app_app; [apply incl_refl|]. simpl. apply incl_appr, incl_refl.
      - unfold device_ids. simpl. rewrite E.
        apply incl_app_app; [apply incl_refl|]. simpl. apply incl_appr, incl_refl.
      - apply (fresh_active _ F). }
    destruct t; simpl; try (left; rewrite ?exit_ids_app; try apply in_or_app; auto; fail).
    destruct (item sections nextIndex) as [next|]; [|left; exact H].
    left. apply exit_ids_show_render.
    + destruct Fr as [F1 F2 F3 F4]. split; assumption.
    + exact H.
Qed.

(** Once the animations have completed, a node whose exit animation was in
    flight is no longer mounted under any layer. *)
Lemma exit_settles (i : nat) (s : State) :
  Fresh s -> In i (exit_ids (tweens s)) ->
  ~ In i (dom_ids (outsideLayers (settle sections s))).
Proof.
  intros F H.
  pose proof (settle_n_preserves sections (leaving i) (leaving_complete_head i)
                (total_cost sections (tweens s)) s (conj F (or_introl H))) as [_ L].
  fold (settle sections s) in L. rewrite settle_done in L.
  destruct L as [[]|[_ G]]. exact G.
Qed.

End Leaving.

(** ** C6: the active outside set *)

Lemma shown_has_layer (l : Layers) (step : Z) (tpls : list OutsideTemplate)
      (ep : Element * Position) :
  In ep (shown_list l step tpls) -> layer_get (snd ep) l <> None.
Proof.
  induction tpls as [|tpl tpls IH]; simpl; [intros []|].
  destruct (shown l step tpl) as [ep'|] eqn:E; [|exact IH].
  intros [<-|H]; [|apply IH; exact H].
  unfold shown in E. destruct (step_differs tpl step); [discriminate|].
  destruct (ot_position tpl) as [q| |]; [|discriminate|discriminate].
  destruct (layer_get q l) eqn:G; [|discriminate].
  destruct (ot_content tpl); [|discriminate].
  inversion E; subst. simpl. congruence.
Qed.

Lemma mk_nodes_position (k : nat) (eps : list (Element * Position)) (e : Node * Position) :
  In e (mk_nodes k eps) -> In (label e) eps.
Proof.
  intros H. rewrite <- (map_label_mk_nodes k eps). apply in_map. exact H.
Qed.

Lemma mount_keeps (new : list (Node * Position)) (l : Layers) (p : Position)
      (k : Node) (kids : list Node) :
  layer_get p l = Some kids -> In k kids ->
  exists kids', layer_get p (fold_left mount new l) = Some kids' /\ In k kids'.
Proof.
  revert l kids. induction new as [|e new IH]; intros l kids Hl Hk; simpl; [eauto|].
  destruct (layer_append_keeps p (snd e) (fst e) k l kids Hl Hk) as (kids' & Hl' & Hk').
  apply (IH _ _ Hl' Hk').
Qed.

Lemma mount_all (new : list (Node * Position)) (l : Layers) :
  (forall e, In e new -> layer_get (snd e) l <> None) ->
  forall e, In e new ->
  exists kids, layer_get (snd e) (fold_left mount new l) = Some kids /\ In (fst e) kids.
Proof.
  revert l. induction new as [|a new IH]; intros l Hall e He; [destruct He|].
  simpl. destruct He as [->|He].
  - destruct (layer_get (snd e) l) as [kids|] eqn:G;
      [|exfalso; apply (Hall e (or_introl eq_refl)); exact G].
    apply (mount_keeps new _ (snd e) (fst e) (kids ++ [fst e])).
    + apply layer_append_mounts. exact G.
    + apply in_or_app. right. left. reflexivity.
  - apply IH; [|exact He]. intros e' He' Hn.
    apply layer_get_append_none in Hn. apply (Hall e' (or_intror He')). exact Hn.
Qed.

Lemma shown_matching (l : Layers) (step : Z) (tpl : OutsideTemplate) :
  shown l step tpl <> None -> step_differs tpl step = false.
Proof. unfold shown. destruct (step_differs tpl step); congruence. Qed.

(** [showOutside] mounts at most one clone per matching template, and one
    per matching template when none of them is skipped. *)
Lemma shown_list_matching (l : Layers) (step : Z) (tpls : list OutsideTemplate) :
  (List.length (shown_list l step tpls) <= List.length (matching step tpls))%nat /\
  ((forall tpl, In tpl (matching step tpls) -> shown l step tpl <> None) ->
   List.length (shown_list l step tpls) = List.length (matching step tpls)).
Proof.
  unfold matching. induction tpls as [|tpl tpls [IH1 IH2]]; simpl; [split; auto|].
  destruct (shown l step tpl) as [ep|] eqn:E.
  - assert (D : step_differs tpl step = false)
      by (apply (shown_matching l); congruence).
    rewrite D. simpl. split; [lia|].
    intros H. rewrite IH2; [reflexivity|]. intros t Ht. apply H. right. exact Ht.
  - destruct (step_differs tpl step) eqn:D; simpl.
    + split; [exact IH1|exact IH2].
    + split; [lia|]. intros H. exfalso. apply (H tpl); [left; reflexivity|exact E].
Qed.

(** C6, as stated, fails twice on the story page without [#outside-top],
    started at step 0 of section A with the left decoration active.
    Section A has one outside template for step 1, yet after
    showOutside(A, 1) on an empty active set the active set is empty: the
    template's layer is missing and the template is skipped.  And right
    after hideOutside() the node that was active is still mounted under
    its layer: it is removed when its exit animation completes. *)
Lemma C6_missing_layer_counterexample :
  match boot topless_page with
  | None => False
  | Some s =>
      List.length (matching 1 (getOutsideTemplates story_A)) = 1%nat /\
      activeOutside (hideOutside s) = [] /\
      activeOutside (showOutside story_A 1 (hideOutside s)) = [] /\
      exists node, activeOutside s = [(node, left)] /\
                   in_dom node (hideOutside s) = true
  end.
Proof. vm_compute. repeat split. eexists. split; reflexivity. Qed.

(** C6 (amended): whenever showOutside(section, step) returns, it has
    appended to the active set one clone per outside template of the
    section whose data-step equals step, whose data-position names a layer
    that exists and whose content has a first element, in template order;
    each clone is mounted under the layer its position names; started from
    an empty active set, the active set is exactly these clones, one per
    matching template when none is skipped.  (The call does not return
    when a matching template with content has a data-position that names a
    property inherited from Object.prototype: there appendChild throws.)
    hideOutside() empties the active set and leaves, for each node that
    was active, an exit animation in flight; once the animations have
    completed the node is under no layer. *)
Theorem C6_outside_set (p : Page) (s : State) (sectionEl : SectionEl) (step : Z) :
  reachable p s ->
  (threw (showOutside sectionEl step s) = false ->
   exists new,
     activeOutside (showOutside sectionEl step s) = activeOutside s ++ new /\
     map label new = shown_list (outsideLayers s) step (getOutsideTemplates sectionEl) /\
     (activeOutside s = [] -> activeOutside (showOutside sectionEl step s) = new) /\
     (List.length new <= List.length (matching step (getOutsideTemplates sectionEl)))%nat /\
     ((forall tpl, In tpl (matching step (getOutsideTemplates sectionEl)) ->
         shown (outsideLayers s) step tpl <> None) ->
      List.length new = List.length (matching step (getOutsideTemplates sectionEl))) /\
     forall node position, In (node, position) new ->
       exists kids,
         layer_get position (outsideLayers (showOutside sectionEl step s)) = Some kids /\
         In node kids) /\
  activeOutside (hideOutside s) = [] /\
  (forall node position, In (node, position) (activeOutside s) ->
     In (OutsideExit node (getToVarsForPosition position)) (tweens (hideOutside s)) /\
     in_dom node (settle (pg_sections p) (hideOutside s)) = false).
Proof.
  intros Hr. pose proof (reachable_fresh _ _ Hr) as F. split; [|split].
  - intros T. rewrite showOutside_threw in T.
    rewrite showOutside_eq. simpl. rewrite (before_throw_all _ _ T).
    set (eps := shown_list (outsideLayers s) step (getOutsideTemplates sectionEl)).
    exists (mk_nodes (nextNode s) eps). split; [reflexivity|].
    split; [apply map_label_mk_nodes|]. split; [intros ->; reflexivity|].
    rewrite length_mk_nodes.
    destruct (shown_list_matching (outsideLayers s) step (getOutsideTemplates sectionEl))
      as [Hle Heq].
    split; [exact Hle|]. split; [exact Heq|].
    intros node position Hin.
    apply (mount_all (mk_nodes (nextNode s) eps) (outsideLayers s)) with (e := (node, position));
      [|exact Hin].
    intros e He. apply (shown_has_layer (outsideLayers s) step
                          (getOutsideTemplates sectionEl) (label e)).
    apply mk_nodes_position with (k := nextNode s). exact He.
  - rewrite hideOutside_eq. reflexivity.
  - intros node position Hin.
    assert (Hex : In (OutsideExit node (getToVarsForPosition position))
                     (tweens (hideOutside s))).
    { rewrite hideOutside_eq. simpl.
      apply (hide_tweens_exits (activeOutside s) (tweens s) (fresh_active _ F)
               (node, position) Hin). }
    split; [exact Hex|].
    destruct (in_dom node (settle (pg_sections p) (hideOutside s))) eqn:D; [|reflexivity].
    exfalso. unfold in_dom in D. apply has_id_In in D.
    apply (exit_settles (pg_sections p) (node_id node) (hideOutside s)
             (Fresh_hideOutside _ F)); [|exact D].
    unfold exit_ids. apply in_flat_map.
    exists (OutsideExit node (getToVarsForPosition position)).
    split; [exact Hex|left; reflexivity].
Qed.

Lemma C6_outside_set_witness :
  exists s, boot story_page = Some s /\
    map label (activeOutside s) = [("hint"%string, left)] /\
    map label (activeOutside (showOutside story_A 1 (hideOutside s)))
    = [("badge"%string, top)] /\
    threw (showOutside story_A 1 s) = false /\
    (exists new,
       activeOutside (showOutside story_A 1 s) = activeOutside s ++ new /\
       map label new = [("badge"%string, top)]) /\
    forall node position, In (node, position) (activeOutside s) ->
      in_dom node (settle (pg_sections story_page) (hideOutside s)) = false.
Proof.
  eexists. split; [vm_compute; reflexivity|]. split; [reflexivity|].
  split; [reflexivity|]. split; [reflexivity|].
  match goal with |- context [settle _ (hideOutside ?s)] =>
    destruct (C6_outside_set story_page s story_A 1
                (reachable_boot story_page s eq_refl)) as (Hshow & _ & H)
  end.
  split.
  - destruct (Hshow eq_refl) as (new & A & B & _).
    exists new. split; [exact A|exact B].
  - intros node position Hin. apply (H node position Hin).
Defined.

(** * Further properties of the navigator *)

(** ** Entry steps and hidden offsets *)

(** X1: in a section that has at least one step template, the step
    [getEntryStepIndex] returns has a template, whatever the direction; going
    forward it is step 0 or step 1. *)
Theorem entry_step_has_template (sectionEl : SectionEl) (direction : Z) :
  1 <= len (getStepTemplates sectionEl) ->
  (exists tpl, item (getStepTemplates sectionEl)
                    (getEntryStepIndex sectionEl direction) = Some tpl) /\
  (0 < direction -> 0 <= getEntryStepIndex sectionEl direction <= 1).
Proof.
  intros H. split.
  - apply item_in_range. unfold getEntryStepIndex. destruct (direction >? 0); lia.
  - intros Hd. unfold getEntryStepIndex.
    assert (E : (direction >? 0) = true) by (apply Z.gtb_lt; lia).
    rewrite E. lia.
Qed.

Lemma entry_step_has_template_witness :
  item (getStepTemplates story_A) (getEntryStepIndex story_A (-1))
  = Some (step_of "a2"%string) /\
  getEntryStepIndex story_B 1 = 0.
Proof.
  destruct (entry_step_has_template story_A (-1)) as [[tpl H] _];
    [vm_compute; discriminate|].
  split; reflexivity.
Defined.

(** X2: an outside node exits towards the hidden state it entered from:
    for every position the exit target equals the enter origin, it is
    transparent, and it lies [OFFSCREEN_OFFSET] away along exactly one axis,
    outwards on the side the position names. *)
Theorem outside_exit_mirrors_enter (position : Position) :
  getToVarsForPosition position = getFromVarsForPosition position /\
  opacity (getFromVarsForPosition position) = 0 /\
  Z.abs (x (getFromVarsForPosition position))
    + Z.abs (y (getFromVarsForPosition position)) = OFFSCREEN_OFFSET /\
  (x (getFromVarsForPosition position) < 0 <-> position = left) /\
  (x (getFromVarsForPosition position) > 0 <-> position = right) /\
  (y (getFromVarsForPosition position) < 0 <-> position = top) /\
  (y (getFromVarsForPosition position) > 0 <-> position = bottom).
Proof.
  destruct position; simpl; repeat split; intros; try reflexivity;
    try discriminate; try (unfold OFFSCREEN_OFFSET in *; lia).
Qed.

(** ** What the helpers leave alone *)

Lemma kept_refl (s : State) : kept s s.
Proof. repeat split. Qed.

Lemma kept_trans (s1 s2 s3 : State) : kept s1 s2 -> kept s2 s3 -> kept s1 s3.
Proof.
  intros (A1 & A2 & A3 & A4) (B1 & B2 & B3 & B4). repeat split; congruence.
Qed.

Lemma kept_hideOutside (s : State) : kept s (hideOutside s).
Proof. rewrite hideOutside_eq. repeat split. Qed.

Lemma kept_showOutside (sectionEl : SectionEl) (step : Z) (s : State) :
  kept s (showOutside sectionEl step s).
Proof. rewrite showOutside_eq. repeat split. Qed.

Lemma kept_render (sectionEl : SectionEl) (step : Z) (s : State) :
  kept s (renderDeviceStep sectionEl step s).
Proof.
  destruct (step_source sectionEl step) as [[tpl el]|] eqn:E.
  - rewrite (render_swap _ _ _ _ _ E). repeat split.
  - rewrite (render_skip _ _ _ E). repeat split.
Qed.

Lemma stepIndex_showOutside (sectionEl : SectionEl) (step : Z) (s : State) :
  stepIndex (showOutside sectionEl step s) = stepIndex s.
Proof. rewrite showOutside_eq. reflexivity. Qed.

Section Frames.

Variable sections : list SectionEl.

Lemma goToSection_frame (nextIndex direction : Z) (s : State) :
  kept s (goToSection sections nextIndex direction s) /\
  stepIndex (goToSection sections nextIndex direction s) = stepIndex s.
Proof.
  unfold goToSection.
  destruct ((nextIndex <? 0) || (nextIndex >=? len sections)); [split; [apply kept_refl|reflexivity]|].
  destruct (isAnimating s); [split; [apply kept_refl|reflexivity]|].
  destruct (item sections nextIndex); [|repeat split].
  rewrite hideOutside_eq. repeat split.
Qed.

Lemma goForward_frame (s : State) :
  kept s (goForward sections s) /\
  (stepIndex (goForward sections s) = stepIndex s \/
   stepIndex (goForward sections s) = stepIndex s + 1).
Proof.
  unfold goForward.
  destruct (isAnimating s); [split; [apply kept_refl|left; reflexivity]|].
  destruct (item sections (sectionIndex s)) as [sectionEl|];
    [|split; [apply kept_refl|left; reflexivity]].
  destruct (stepIndex s <? len (getStepTemplates sectionEl) - 1).
  - split.
    + eapply kept_trans; [|apply kept_showOutside].
      eapply kept_trans; [|apply kept_render].
      eapply kept_trans; [|apply kept_hideOutside]. repeat split.
    + right. rewrite stepIndex_showOutside, stepIndex_render, stepIndex_hideOutside.
      reflexivity.
  - destruct (sectionIndex s <? len sections - 1);
      [|split; [apply kept_refl|left; reflexivity]].
    destruct (goToSection_frame (sectionIndex (hideOutside s) + 1) 1 (hideOutside s))
      as [K E].
    split.
    + eapply kept_trans; [apply kept_hideOutside|exact K].
    + left. rewrite E. apply stepIndex_hideOutside.
Qed.

Lemma goBackward_frame (s : State) :
  kept s (goBackward sections s) /\
  (stepIndex (goBackward sections s) = stepIndex s \/
   stepIndex (goBackward sections s) = stepIndex s - 1).
Proof.
  unfold goBackward.
  destruct (isAnimating s); [split; [apply kept_refl|left; reflexivity]|].
  destruct (item sections (sectionIndex s)) as [sectionEl|];
    [|split; [apply kept_refl|left; reflexivity]].
  destruct (stepIndex s >? 0).
  - split.
    + eapply kept_trans; [|apply kept_showOutside].
      eapply kept_trans; [|apply kept_render].
      eapply kept_trans; [|apply kept_hideOutside]. repeat split.
    + right. rewrite stepIndex_showOutside, stepIndex_render, stepIndex_hideOutside.
      reflexivity.
  - destruct (sectionIndex s >? 0);
      [|split; [apply kept_refl|left; reflexivity]].
    destruct (goToSection_frame (sectionIndex (hideOutside s) - 1) (-1) (hideOutside s))
      as [K E].
    split.
    + eapply kept_trans; [apply kept_hideOutside|exact K].
    + left. rewrite E. apply stepIndex_hideOutside.
Qed.

Lemma onKeyDown_cases (key : string) (s : State) :
  onKeyDown sections key s = s \/
  onKeyDown sections key s = goForward sections s \/
  onKeyDown sections key s = goBackward sections s.
Proof.
  unfold onKeyDown. destruct (String.eqb key "ArrowDown") eqn:D.
  - apply String.eqb_eq in D. subst key. simpl. right. left. reflexivity.
  - destruct (String.eqb key "ArrowUp"); [right; right|left]; reflexivity.
Qed.

(** An input event keeps the section, the device content and the
    listeners, and moves the step by at most one. *)
Lemma input_frame (e : Event) (s : State) :
  is_input e = true ->
  kept s (handle sections e s) /\
  (stepIndex (handle sections e s) = stepIndex s \/
   stepIndex (handle sections e s) = stepIndex s + 1 \/
   stepIndex (handle sections e s) = stepIndex s - 1).
Proof.
  intros Hi. destruct e; simpl in *; try discriminate.
  - destruct (observerOn s); [|split; [apply kept_refl|auto]].
    destruct (goForward_frame s) as [K [E|E]]; auto.
  - destruct (observerOn s); [|split; [apply kept_refl|auto]].
    destruct (goBackward_frame s) as [K [E|E]]; auto.
  - destruct (keydownOn s); [|split; [apply kept_refl|auto]].
    destruct (onKeyDown_cases key s) as [-> | [-> | ->]].
    + split; [apply kept_refl|auto].
    + destruct (goForward_frame s) as [K [E|E]]; auto.
    + destruct (goBackward_frame s) as [K [E|E]]; auto.
Qed.

(** What the completion of a tween does to the section and the device. *)
Lemma complete_frame (k : nat) (s : State) :
  (sectionIndex (complete sections k s) = sectionIndex s \/
   completes_swap (Complete k) s = true) /\
  (deviceChildren (complete sections k s) = deviceChildren s \/
   completes_fade (Complete k) s = true /\
   exists node, deviceChildren (complete sections k s) = [node]) /\
  observerOn (complete sections k s) = observerOn s /\
  keydownOn (complete sections k s) = keydownOn s.
Proof.
  unfold complete. simpl. destruct (nth_error (tweens s) k) as [t|]; [|auto].
  destruct t; simpl; auto.
  - repeat split; auto. right. split; [reflexivity|eauto].
  - destruct (item sections nextIndex) as [next|]; [|auto].
    match goal with
    | |- context [showOutside next entryStep (renderDeviceStep next entryStep ?s0)] =>
        destruct (kept_trans _ _ _ (kept_render next entryStep s0)
                    (kept_showOutside next entryStep (renderDeviceStep next entryStep s0)))
          as (K1 & K2 & K3 & K4)
    end.
    rewrite K2, K3, K4. auto.
Qed.

Lemma destroy_frame (s : State) :
  sectionIndex (destroy s) = sectionIndex s /\ stepIndex (destroy s) = stepIndex s /\
  deviceChildren (destroy s) = deviceChildren s /\
  observerOn (destroy s) = false /\ keydownOn (destroy s) = false /\
  activeOutside (destroy s) = [].
Proof. unfold destroy. rewrite hideOutside_eq. repeat split. Qed.

End Frames.

(** ** Inputs, callbacks and what each may change *)

(** X3: a wheel, touch, pointer or key event never changes the section
    index, the device content or the listeners by itself, and moves the step
    index by at most one. *)
Theorem input_moves_at_most_one_step (sections : list SectionEl) (e : Event) (s : State) :
  is_input e = true ->
  sectionIndex (handle sections e s) = sectionIndex s /\
  deviceChildren (handle sections e s) = deviceChildren s /\
  observerOn (handle sections e s) = observerOn s /\
  keydownOn (handle sections e s) = keydownOn s /\
  (stepIndex (handle sections e s) = stepIndex s \/
   stepIndex (handle sections e s) = stepIndex s + 1 \/
   stepIndex (handle sections e s) = stepIndex s - 1).
Proof.
  intros Hi. destruct (input_frame sections e s Hi) as [(K1 & K2 & K3 & K4) Hs].
  repeat split; assumption.
Qed.

Lemma input_moves_at_most_one_step_witness :
  exists s, replay story_page to_section_B = Some s /\
    position s = (1, 0) /\
    sectionIndex (handle (pg_sections story_page) (KeyDown "ArrowUp"%string) s) = 1.
Proof.
  eexists. split; [vm_compute; reflexivity|]. split; [reflexivity|].
  match goal with |- sectionIndex (handle ?l ?e ?s) = _ =>
    destruct (input_moves_at_most_one_step l e s eq_refl) as [H _]
  end.
  exact H.
Defined.

(** X4: the section index changes only when the engine reaches the
    callback of a section transition's timeline: no input event, no other
    completion and no teardown changes it. *)
Theorem section_changes_only_in_timeline_callback
        (sections : list SectionEl) (e : Event) (s : State) :
  sectionIndex (handle sections e s) <> sectionIndex s ->
  completes_swap e s = true.
Proof.
  intros H. destruct e.
  - exfalso. apply H. apply (input_frame sections OnDown s eq_refl).
  - exfalso. apply H. apply (input_frame sections OnUp s eq_refl).
  - exfalso. apply H. apply (input_frame sections (KeyDown key) s eq_refl).
  - destruct (complete_frame sections k s) as [[E|E] _]; [|exact E].
    exfalso. apply H. exact E.
  - exfalso. apply H. apply (destroy_frame s).
Qed.

Lemma section_changes_only_in_timeline_callback_witness :
  exists s, replay tour_page (drain ++ [OnDown]) = Some s /\
    sectionIndex s = 0 /\
    sectionIndex (handle (pg_sections tour_page) (Complete 2) s) = 1 /\
    completes_swap (Complete 2) s = true.
Proof.
  eexists. split; [vm_compute; reflexivity|]. split; [reflexivity|].
  split; [reflexivity|].
  apply (section_changes_only_in_timeline_callback (pg_sections tour_page)).
  vm_compute. discriminate.
Defined.

Lemma init_device (p : Page) (s0 : State) (kids : list Node) :
  navigator (initObserver p) = Some s0 -> pg_device p = Some kids ->
  deviceChildren s0 = kids.
Proof.
  intros H Hd.
  destruct (init_navigator p s0 H) as (section0 & rest & kids' & Hs & Hd' & _ & ->).
  rewrite Hd in Hd'. inversion Hd'; subst kids'. simpl.
  match goal with
  | |- deviceChildren (state_of (showOutside ?a ?b (renderDeviceStep ?a ?b ?s0))) = _ =>
      destruct (kept_trans _ _ _ (kept_render a b s0)
                  (kept_showOutside a b (renderDeviceStep a b s0))) as (_ & K & _)
  end.
  rewrite K. reflexivity.
Qed.

(** ** [hideOutside] and [destroy] *)

(** X7: [hideOutside] is idempotent, leaves position, busy flag, device
    content and the layers' children as they are (nodes leave the layers in
    the exit animations' callbacks), and cancels no tween of a section
    transition's timeline. *)
Theorem hideOutside_idempotent (s : State) :
  hideOutside (hideOutside s) = hideOutside s /\
  position (hideOutside s) = position s /\
  isAnimating (hideOutside s) = isAnimating s /\
  deviceChildren (hideOutside s) = deviceChildren s /\
  outsideLayers (hideOutside s) = outsideLayers s /\
  slides (tweens (hideOutside s)) = slides (tweens s).
Proof.
  split.
  - rewrite (hideOutside_eq (hideOutside s)). rewrite hideOutside_eq. reflexivity.
  - rewrite hideOutside_eq. repeat split. simpl. apply slides_hide.
Qed.

Lemma listeners_off_handle (sections : list SectionEl) (e : Event) (s : State) :
  observerOn s = false -> keydownOn s = false ->
  observerOn (handle sections e s) = false /\ keydownOn (handle sections e s) = false.
Proof.
  intros Ho Hk. destruct e; simpl; rewrite ?Ho, ?Hk; auto.
  - destruct (complete_frame sections k s) as (_ & _ & E1 & E2).
    rewrite E1, E2. auto.
  - destruct (destroy_frame s) as (_ & _ & _ & E1 & E2 & _). auto.
Qed.

Lemma listeners_off_run (sections : list SectionEl) (es : list Event) (s : State) :
  observerOn s = false -> keydownOn s = false ->
  observerOn (run sections es s) = false /\ keydownOn (run sections es s) = false.
Proof.
  unfold run. revert s. induction es as [|e es IH]; intros s Ho Hk; simpl; [auto|].
  destruct (listeners_off_handle sections e s Ho Hk) as [Ho' Hk']. apply IH; assumption.
Qed.

(** X8: right after [destroy()] the active outside set is empty, and
    [destroy()] called twice in a row leaves the state the first call
    left.  Both listeners are unregistered for good: whatever events
    follow, they stay off and no wheel, touch, pointer or key event
    changes the state any more. *)
Theorem destroy_silences_inputs (sections : list SectionEl) (s : State)
        (es : list Event) (e : Event) :
  is_input e = true ->
  activeOutside (destroy s) = [] /\
  destroy (destroy s) = destroy s /\
  observerOn (run sections es (destroy s)) = false /\
  keydownOn (run sections es (destroy s)) = false /\
  handle sections e (run sections es (destroy s)) = run sections es (destroy s).
Proof.
  intros Hi.
  destruct (destroy_frame s) as (_ & _ & _ & Ho & Hk & Ha).
  destruct (listeners_off_run sections es (destroy s) Ho Hk) as [Ho' Hk'].
  split; [exact Ha|]. split.
  - unfold destroy. rewrite !hideOutside_eq. reflexivity.
  - split; [exact Ho'|]. split; [exact Hk'|].
    destruct e; simpl in *; try discriminate; rewrite ?Ho', ?Hk'; reflexivity.
Qed.

Lemma destroy_silences_inputs_witness :
  exists s, boot story_page = Some s /\
    map label (activeOutside s) = [("hint"%string, left)] /\
    activeOutside (destroy s) = [] /\
    handle (pg_sections story_page) OnDown (destroy s) = destroy s.
Proof.
  eexists. split; [vm_compute; reflexivity|]. split; [reflexivity|].
  match goal with |- activeOutside (destroy ?s) = _ /\ _ =>
    destruct (destroy_silences_inputs (pg_sections story_page) s [] OnDown eq_refl)
      as (Ha & _ & _ & _ & H)
  end.
  split; [exact Ha|exact H].
Defined.

(** ** Initialization that succeeds *)

(** X9: on a page with at least one section and a [#device-content],
    [initObserver] creates a navigator at section 0, step 0, with the
    page's device content untouched and no section transition started; its
    active set is one clone per outside template that the first
    [showOutside] mounts for step 0 of section 0, and it is busy exactly
    when step 0 of section 0 has content to render.  When that first
    [showOutside] returns, both listeners are registered and [destroy] is
    returned; when it throws, no listener is registered and nothing is
    returned. *)
Theorem initObserver_starts_at_origin (p : Page) (section0 : SectionEl)
        (rest : list SectionEl) (kids : list Node) :
  pg_sections p = section0 :: rest ->
  pg_device p = Some kids ->
  exists s0,
    navigator (initObserver p) = Some s0 /\
    position s0 = (0, 0) /\
    deviceChildren s0 = kids /\
    slides (tweens s0) = [] /\
    map label (activeOutside s0)
    = shown_list (pg_layers p) 0 (before_throw 0 (getOutsideTemplates section0)) /\
    (isAnimating s0 = true <-> step_source section0 0 <> None) /\
    (will_throw 0 (getOutsideTemplates section0) = false ->
     teardown (initObserver p) = destroy_fn /\
     observerOn s0 = true /\ keydownOn s0 = true) /\
    (will_throw 0 (getOutsideTemplates section0) = true ->
     teardown (initObserver p) = nothing /\
     observerOn s0 = false /\ keydownOn s0 = false).
Proof.
  intros Hs Hd.
  assert (N : exists s0, navigator (initObserver p) = Some s0).
  { unfold initObserver. rewrite Hs, Hd.
    destruct (showOutside section0 0 _); eexists; reflexivity. }
  destruct N as [s0 N]. exists s0. split; [exact N|].
  destruct (init_navigator p s0 N) as (sec & rest' & kids' & Hs' & Hd' & Ht & ->).
  rewrite Hs in Hs'. inversion Hs'; subst sec rest'.
  rewrite Hd in Hd'. inversion Hd'; subst kids'.
  rewrite Ht. clear Ht N Hs' Hd'.
  rewrite showOutside_eq. unfold position. simpl.
  assert (L : forall b : bool,
             (will_throw 0 (getOutsideTemplates section0) = b ->
              (if negb (will_throw 0 (getOutsideTemplates section0))
               then destroy_fn else nothing) = (if b then nothing else destroy_fn) /\
              negb (will_throw 0 (getOutsideTemplates section0)) = negb b /\
              negb (will_throw 0 (getOutsideTemplates section0)) = negb b))
    by (intros b ->; destruct b; repeat split).
  destruct (step_source section0 0) as [[tpl el]|] eqn:E.
  - rewrite (render_swap _ _ _ _ _ E). simpl.
    split; [reflexivity|]. split; [reflexivity|]. split; [apply slides_enter|].
    split; [apply map_label_mk_nodes|]. split; [split; congruence|].
    split; [apply (L false)|apply (L true)].
  - rewrite (render_skip _ _ _ E). simpl.
    split; [reflexivity|]. split; [reflexivity|]. split; [apply slides_enter|].
    split; [apply map_label_mk_nodes|]. split; [split; congruence|].
    split; [apply (L false)|apply (L true)].
Qed.

Lemma initObserver_starts_at_origin_witness :
  exists s0, navigator (initObserver story_page) = Some s0 /\
    position s0 = (0, 0) /\ isAnimating s0 = true /\
    map label (activeOutside s0) = [("hint"%string, left)] /\
    teardown (initObserver story_page) = destroy_fn /\
    observerOn s0 = true.
Proof.
  destruct (initObserver_starts_at_origin story_page story_A [story_B] [] eq_refl eq_refl)
    as (s0 & E & Hp & _ & _ & Ha & Hb & Hr & _).
  exists s0. split; [exact E|]. split; [exact Hp|].
  split; [apply Hb; vm_compute; discriminate|].
  split; [exact Ha|].
  destruct (Hr eq_refl) as (Ht & Ho & _). split; [exact Ht|exact Ho].
Defined.

(** ** The shapes of one turn of the event loop *)

Section Cases.

Variable sections : list SectionEl.

Lemma goForward_cases (s : State) :
  Inv sections s ->
  goForward sections s = s \/
  (isAnimating s = false /\
   exists sectionEl, item sections (sectionIndex s) = Some sectionEl /\
     goForward sections s = change_step sectionEl (stepIndex s + 1) s) \/
  (isAnimating s = false /\
   exists next, item sections (sectionIndex s + 1) = Some next /\
     goForward sections s = start_transition (sectionIndex s + 1) 1 next s).
Proof.
  intros HI. destruct (isAnimating s) eqn:Hb; [left; apply goForward_busy; exact Hb|].
  pose proof (inv_section _ _ HI) as Hsec. pose proof (inv_step _ _ HI) as Hst.
  destruct (item_in_range sections (sectionIndex s) Hsec) as [sectionEl Hs].
  destruct (Z_lt_dec (stepIndex s) (len (getStepTemplates sectionEl) - 1)) as [Hlt|Hge].
  - right. left. split; [reflexivity|]. exists sectionEl. split; [exact Hs|].
    apply goForward_step; assumption.
  - destruct (Z_lt_dec (sectionIndex s) (len sections - 1)) as [Hl|Hl].
    + right. right. split; [reflexivity|].
      destruct (item_in_range sections (sectionIndex s + 1)) as [next Hn]; [lia|].
      exists next. split; [exact Hn|].
      apply goForward_section; auto; [lia|].
      unfold lastStepOf in *. rewrite Hs in *. lia.
    + left. unfold goForward. rewrite Hb, Hs.
      assert (E1 : (stepIndex s <? len (getStepTemplates sectionEl) - 1) = false)
        by (apply Z.ltb_ge; lia).
      assert (E2 : (sectionIndex s <? len sections - 1) = false)
        by (apply Z.ltb_ge; lia).
      rewrite E1, E2. reflexivity.
Qed.

Lemma goBackward_cases (s : State) :
  Inv sections s ->
  goBackward sections s = s \/
  (isAnimating s = false /\
   exists sectionEl, item sections (sectionIndex s) = Some sectionEl /\
     goBackward sections s = change_step sectionEl (stepIndex s - 1) s) \/
  (isAnimating s = false /\
   exists prev, item sections (sectionIndex s - 1) = Some prev /\
     goBackward sections s = start_transition (sectionIndex s - 1) (-1) prev s).
Proof.
  intros HI. destruct (isAnimating s) eqn:Hb; [left; apply goBackward_busy; exact Hb|].
  pose proof (inv_section _ _ HI) as Hsec. pose proof (inv_step _ _ HI) as Hst.
  destruct (item_in_range sections (sectionIndex s) Hsec) as [sectionEl Hs].
  destruct (Z_lt_dec 0 (stepIndex s)) as [Hlt|Hge].
  - right. left. split; [reflexivity|]. exists sectionEl. split; [exact Hs|].
    apply goBackward_step; assumption.
  - destruct (Z_lt_dec 0 (sectionIndex s)) as [Hl|Hl].
    + right. right. split; [reflexivity|].
      destruct (item_in_range sections (sectionIndex s - 1)) as [prev Hn]; [lia|].
      exists prev. split; [exact Hn|].
      apply goBackward_section; auto; lia.
    + left. unfold goBackward. rewrite Hb, Hs.
      assert (E1 : (stepIndex s >? 0) = false) by (rewrite Z.gtb_ltb; apply Z.ltb_ge; lia).
      assert (E2 : (sectionIndex s >? 0) = false)
        by (rewrite Z.gtb_ltb; apply Z.ltb_ge; lia).
      rewrite E1, E2. reflexivity.
Qed.

(** A property kept by the three things a request can do, by the
    completion of a tween and by the teardown is kept by every event. *)
Lemma handle_preserves (P : State -> Prop) (e : Event) (s : State) :
  Inv sections s ->
  (forall sectionEl step,
     isAnimating s = false -> item sections (sectionIndex s) = Some sectionEl ->
     P (change_step sectionEl step s)) ->
  (forall nextIndex direction next,
     isAnimating s = false -> item sections nextIndex = Some next ->
     P (start_transition nextIndex direction next s)) ->
  (forall k, P (complete sections k s)) ->
  P (destroy s) ->
  P s -> P (handle sections e s).
Proof.
  intros HI Hstep Htr Hc Hd Hs.
  assert (F : P (goForward sections s)).
  { destruct (goForward_cases s HI) as [->|[(Hb & sec & Hi & ->)|(Hb & next & Hn & ->)]];
      auto. }
  assert (B : P (goBackward sections s)).
  { destruct (goBackward_cases s HI) as [->|[(Hb & sec & Hi & ->)|(Hb & prev & Hn & ->)]];
      auto. }
  destruct e; simpl; auto.
  - destruct (observerOn s); auto.
  - destruct (observerOn s); auto.
  - destruct (keydownOn s); auto.
    destruct (onKeyDown_cases sections key s) as [-> | [-> | ->]]; auto.
Qed.

End Cases.

(** ** Active outside nodes and the layers *)

Lemma Mounted_empty (s : State) : activeOutside s = [] -> Mounted s.
Proof.
  intros E. split.
  - intros node position H. rewrite E in H. destruct H.
  - unfold active_ids. rewrite E. intros i [].
Qed.

Lemma Mounted_transfer (s s' : State) :
  Mounted s ->
  activeOutside s' = activeOutside s ->
  outsideLayers s' = outsideLayers s ->
  incl (exit_ids (tweens s')) (exit_ids (tweens s)) ->
  Mounted s'.
Proof.
  intros [M1 M2] Ea El Hx. split.
  - intros node position H. rewrite Ea in H. rewrite El. apply (M1 _ _ H).
  - unfold active_ids. rewrite Ea. intros i Hi Hx'. apply (M2 i Hi (Hx i Hx')).
Qed.

Lemma exit_ids_render (sectionEl : SectionEl) (step : Z) (s : State) :
  incl (exit_ids (tweens (renderDeviceStep sectionEl step s))) (exit_ids (tweens s)).
Proof.
  destruct (step_source sectionEl step) as [[tpl el]|] eqn:E.
  - rewrite (render_swap _ _ _ _ _ E). simpl. rewrite exit_ids_app. simpl.
    rewrite app_nil_r. apply exit_ids_kill.
  - rewrite (render_skip _ _ _ E). simpl. apply exit_ids_kill.
Qed.

Lemma render_outside (sectionEl : SectionEl) (step : Z) (s : State) :
  activeOutside (renderDeviceStep sectionEl step s) = activeOutside s /\
  outsideLayers (renderDeviceStep sectionEl step s) = outsideLayers s.
Proof.
  destruct (step_source sectionEl step) as [[tpl el]|] eqn:E.
  - rewrite (render_swap _ _ _ _ _ E). split; reflexivity.
  - rewrite (render_skip _ _ _ E). split; reflexivity.
Qed.

Lemma Mounted_render (sectionEl : SectionEl) (step : Z) (s : State) :
  Mounted s -> Mounted (renderDeviceStep sectionEl step s).
Proof.
  intros M. destruct (render_outside sectionEl step s) as [Ea El].
  apply (Mounted_transfer s _ M Ea El). apply exit_ids_render.
Qed.

Lemma Mounted_showOutside (sectionEl : SectionEl) (step : Z) (s : State) :
  Fresh s -> Mounted s -> Mounted (showOutside sectionEl step s).
Proof.
  intros F [M1 M2]. rewrite showOutside_eq.
  set (eps := shown_list (outsideLayers s) step
                (before_throw step (getOutsideTemplates sectionEl))).
  set (new := mk_nodes (nextNode s) eps).
  split; simpl.
  - intros node position H. apply in_app_or in H. destruct H as [H|H].
    + destruct (M1 _ _ H) as (kids & Hl & Hk).
      apply (mount_keeps new _ position node kids Hl Hk).
    + apply (mount_all new (outsideLayers s)) with (e := (node, position)); [|exact H].
      intros e He. apply (shown_has_layer (outsideLayers s) step
                            (before_throw step (getOutsideTemplates sectionEl)) (label e)).
      apply mk_nodes_position with (k := nextNode s). exact He.
  - unfold active_ids. simpl. rewrite map_app, exit_ids_app, exit_ids_enter, app_nil_r.
    intros i Hi Hx. apply in_app_or in Hi. destruct Hi as [Hi|Hi].
    + apply (M2 i Hi Hx).
    + unfold new in Hi. rewrite mk_nodes_ids in Hi. apply in_seq in Hi.
      assert (i < nextNode s)%nat; [|lia].
      apply (fresh_outside _ F). unfold outside_ids. apply in_or_app. right. exact Hx.
Qed.

Lemma Mounted_change_step (sectionEl : SectionEl) (step : Z) (s : State) :
  Fresh s -> Mounted (change_step sectionEl step s).
Proof.
  intros F. unfold change_step. apply Mounted_showOutside.
  - apply Fresh_render, Fresh_hideOutside, Fresh_set_stepIndex, F.
  - apply Mounted_render, Mounted_empty. rewrite hideOutside_eq. reflexivity.
Qed.

Lemma layer_get_remove (position : Position) (node : Node) (l : Layers) :
  layer_get position (node_remove node l)
  = option_map (filter (fun k => negb (Nat.eqb (node_id k) (node_id node))))
               (layer_get position l).
Proof. destruct position; reflexivity. Qed.

Lemma nth_error_exit_id (ts : list Tween) (k : nat) (node : Node) (v : Vars) :
  nth_error ts k = Some (OutsideExit node v) -> In (node_id node) (exit_ids ts).
Proof.
  intros N. unfold exit_ids. apply in_flat_map. exists (OutsideExit node v).
  split; [apply (nth_error_In _ _ N)|left; reflexivity].
Qed.

Lemma Fresh_remove_at (k : nat) (s : State) :
  Fresh s -> Fresh (set_tweens (remove_at k (tweens s)) s).
Proof.
  intros F. apply (Fresh_shrink s _ F); simpl; try lia.
  - unfold outside_ids, active_ids. simpl.
    apply incl_app_app; [apply incl_refl|apply exit_ids_remove_at].
  - unfold device_ids. simpl.
    apply incl_app_app; [apply incl_refl|apply fade_ids_remove_at].
  - apply (fresh_active _ F).
Qed.

Lemma Fresh_at (n e : Z) (s : State) :
  Fresh s -> Fresh (set_stepIndex e (set_sectionIndex n s)).
Proof. intros [F1 F2 F3 F4]. split; assumption. Qed.

Lemma Mounted_complete (sections : list SectionEl) (k : nat) (s : State) :
  Fresh s -> Mounted s -> Mounted (complete sections k s).
Proof.
  intros F M. unfold complete. destruct (nth_error (tweens s) k) as [t|] eqn:N; [|exact M].
  assert (Mr : Mounted (set_tweens (remove_at k (tweens s)) s))
    by (apply (Mounted_transfer s (set_tweens (remove_at k (tweens s)) s) M eq_refl eq_refl);
        simpl; apply exit_ids_remove_at).
  destruct t; simpl; try exact Mr.
  - destruct M as [M1 M2]. split; simpl.
    + intros m position H. destruct (M1 _ _ H) as (kids & Hl & Hk).
      rewrite layer_get_remove, Hl. simpl. eexists. split; [reflexivity|].
      apply filter_In. split; [exact Hk|]. apply negb_true_iff. apply Nat.eqb_neq.
      intros Heq. apply (M2 (node_id m)).
      * unfold active_ids. apply in_map_iff. exists (m, position). split; [reflexivity|exact H].
      * rewrite Heq. apply (nth_error_exit_id _ _ _ _ N).
    + intros i Hi Hx. apply (M2 i Hi). apply (exit_ids_remove_at _ _ _ Hx).
  - apply (Mounted_transfer _ _ Mr); simpl; try reflexivity.
    rewrite exit_ids_app. simpl. rewrite app_nil_r. apply incl_refl.
  - destruct Mr as [M1 M2]. split; assumption.
  - destruct (item sections nextIndex) as [next|].
    + apply Mounted_showOutside.
      * apply Fresh_render, Fresh_at, Fresh_remove_at, F.
      * apply Mounted_render. destruct Mr as [M1 M2]. split; assumption.
    + destruct Mr as [M1 M2]. split; assumption.
Qed.

Lemma Mounted_handle (sections : list SectionEl) (e : Event) (s : State) :
  Inv sections s -> Fresh s -> Mounted s -> Mounted (handle sections e s).
Proof.
  intros HI F M. apply handle_preserves; auto.
  - intros. apply Mounted_change_step. exact F.
  - intros. apply Mounted_empty. reflexivity.
  - intros k. apply Mounted_complete; assumption.
  - apply Mounted_empty. apply destroy_frame.
Qed.

Lemma Mounted_init (p : Page) (s0 : State) :
  navigator (initObserver p) = Some s0 -> Mounted s0.
Proof.
  intros H. destruct (init_navigator p s0 H) as (section0 & rest & kids & Hs & Hd & _ & ->).
  match goal with |- Mounted (set_listeners _ _ ?s) => assert (M : Mounted s) end.
  { apply Mounted_showOutside.
    - apply Fresh_render.
      split; unfold outside_ids, device_ids, active_ids, init_state; simpl.
      + intros i [].
      + intros i Hi. rewrite app_nil_r in Hi. apply in_map_iff in Hi.
        destruct Hi as (k & <- & Hk). apply (fresh_id_above p kids k Hd Hk).
      + intros i [].
      + constructor.
    - apply Mounted_render, Mounted_empty. reflexivity. }
  destruct M as [M1 M2]. split; assumption.
Qed.

Lemma reachable_mounted (p : Page) (s : State) : reachable p s -> Mounted s.
Proof.
  induction 1 as [s0 H|s e Hr IH]; [apply (Mounted_init p), H|].
  apply Mounted_handle; [apply reachable_inv|apply (reachable_fresh p)|]; assumption.
Qed.

(** X10: in every state of a running navigator each active outside node is
    mounted under the layer its position names, no active node has an exit
    animation in flight, and the active nodes are pairwise distinct. *)
Theorem active_nodes_are_mounted (p : Page) (s : State) (node : Node) (position : Position) :
  reachable p s ->
  In (node, position) (activeOutside s) ->
  (exists kids, layer_get position (outsideLayers s) = Some kids /\ In node kids) /\
  in_dom node s = true /\
  ~ In (node_id node) (exit_ids (tweens s)) /\
  NoDup (active_ids s).
Proof.
  intros Hr Hin. pose proof (reachable_mounted p s Hr) as [M1 M2].
  destruct (M1 _ _ Hin) as (kids & Hl & Hk).
  split; [eauto|]. split; [|split].
  - unfold in_dom. apply has_id_In. apply in_map.
    unfold layer_nodes. destruct position; simpl in Hl; rewrite Hl;
      rewrite ?in_app_iff; auto.
  - apply M2. unfold active_ids. apply in_map_iff. exists (node, position).
    split; [reflexivity|exact Hin].
  - apply (fresh_active _ (reachable_fresh p s Hr)).
Qed.

Lemma active_nodes_are_mounted_witness :
  exists s node, replay story_page (drain ++ [OnDown]) = Some s /\
    activeOutside s = [(node, top)] /\ in_dom node s = true.
Proof.
  eexists. eexists. split; [vm_compute; reflexivity|]. split; [reflexivity|].
  match goal with |- in_dom ?n ?s = true =>
    destruct (active_nodes_are_mounted story_page s n top) as (_ & H & _)
  end.
  - apply (reachable_replay story_page (drain ++ [OnDown])). vm_compute. reflexivity.
  - left. reflexivity.
  - exact H.
Defined.

(** ** No outside node is left behind *)

Lemma exit_ids_hide_keeps (entries : list (Node * Position)) (ts : list Tween) (i : nat) :
  In i (exit_ids ts) -> ~ In i (map (fun e => node_id (fst e)) entries) ->
  In i (exit_ids (hide_tweens entries ts)).
Proof.
  revert ts. induction entries as [|e es IH]; intros ts Hi Hn; simpl; [exact Hi|].
  apply IH; [|intros H; apply Hn; right; exact H].
  rewrite exit_ids_app. apply in_or_app. left.
  apply exit_ids_kill_keeps; [exact Hi|].
  intros [H|[]]. apply Hn. left. exact H.
Qed.

Lemma exit_ids_hide_all (s : State) (i : nat) :
  Fresh s -> Mounted s ->
  In i (active_ids s) \/ In i (exit_ids (tweens s)) ->
  In i (exit_ids (hide_tweens (activeOutside s) (tweens s))).
Proof.
  intros F M [H|H].
  - unfold active_ids in H. apply in_map_iff in H. destruct H as (e & <- & He).
    unfold exit_ids. apply in_flat_map.
    exists (OutsideExit (fst e) (getToVarsForPosition (snd e))).
    split; [|left; reflexivity].
    apply (hide_tweens_exits (activeOutside s) (tweens s) (fresh_active _ F) e He).
  - apply exit_ids_hide_keeps; [exact H|].
    intros Ha. apply (mounted_not_leaving _ M i Ha H).
Qed.

Lemma exit_ids_render_keeps (sectionEl : SectionEl) (step : Z) (s : State) (i : nat) :
  Fresh s -> In i (exit_ids (tweens s)) ->
  In i (exit_ids (tweens (renderDeviceStep sectionEl step s))).
Proof.
  intros F Hi.
  assert (Hk : In i (exit_ids (killTweensOf (map node_id (deviceChildren s)) (tweens s)))).
  { apply exit_ids_kill_keeps; [exact Hi|]. intros Hd.
    apply (fresh_apart _ F i).
    - unfold outside_ids. apply in_or_app. right. exact Hi.
    - unfold device_ids. apply in_or_app. left. exact Hd. }
  destruct (step_source sectionEl step) as [[tpl el]|] eqn:E.
  - rewrite (render_swap _ _ _ _ _ E). simpl. rewrite exit_ids_app.
    apply in_or_app. left. exact Hk.
  - rewrite (render_skip _ _ _ E). simpl. exact Hk.
Qed.

Lemma exit_ids_remove_at_keeps (ts : list Tween) (k : nat) (t : Tween) (i : nat) :
  nth_error ts k = Some t -> In i (exit_ids ts) -> ~ In i (exit_id t) ->
  In i (exit_ids (remove_at k ts)).
Proof.
  intros N Hi Hn. destruct (remove_at_split _ _ _ N) as (l1 & l2 & -> & ->).
  rewrite exit_ids_app in *. simpl in Hi. rewrite !in_app_iff in Hi.
  apply in_or_app. tauto.
Qed.

Section Accounted.

Variable p : Page.

Lemma accounted_transfer (s s' : State) :
  accounted p s ->
  (forall node, In node (layer_nodes (outsideLayers s')) ->
     In node (layer_nodes (outsideLayers s)) /\
     (In (node_id node) (active_ids s) \/ In (node_id node) (exit_ids (tweens s)) ->
      In (node_id node) (active_ids s') \/ In (node_id node) (exit_ids (tweens s')))) ->
  accounted p s'.
Proof.
  intros A H node Hn. destruct (H node Hn) as [Hl Hi].
  destruct (A node Hl) as [A1|A2]; [left; exact A1|right; apply Hi; exact A2].
Qed.

Lemma accounted_hideOutside (s : State) :
  Fresh s -> Mounted s -> accounted p s -> accounted p (hideOutside s).
Proof.
  intros F M A. apply (accounted_transfer s _ A). rewrite hideOutside_eq. simpl.
  intros node Hn. split; [exact Hn|]. intros Hi. right.
  apply exit_ids_hide_all; assumption.
Qed.

Lemma accounted_render (sectionEl : SectionEl) (step : Z) (s : State) :
  Fresh s -> accounted p s -> accounted p (renderDeviceStep sectionEl step s).
Proof.
  intros F A. apply (accounted_transfer s _ A).
  destruct (render_outside sectionEl step s) as [Ea El]. rewrite El.
  unfold active_ids. rewrite Ea.
  intros node Hn. split; [exact Hn|]. intros [Hi|Hi]; [left; exact Hi|right].
  apply exit_ids_render_keeps; assumption.
Qed.

Lemma layer_nodes_mount (new : list (Node * Position)) (l : Layers) (node : Node) :
  In node (layer_nodes (fold_left mount new l)) ->
  In node (map fst new) \/ In node (layer_nodes l).
Proof.
  revert l. induction new as [|e new IH]; intros l H; simpl in *; [right; exact H|].
  apply IH in H. destruct H as [H|H]; [left; right; exact H|].
  apply layer_nodes_append in H. destruct H as [->|H]; [left; left; reflexivity|right; exact H].
Qed.

Lemma accounted_showOutside (sectionEl : SectionEl) (step : Z) (s : State) :
  accounted p s -> accounted p (showOutside sectionEl step s).
Proof.
  intros A. rewrite showOutside_eq. intros node Hn. simpl in Hn.
  unfold active_ids. simpl. rewrite map_app, exit_ids_app, exit_ids_enter, app_nil_r.
  apply layer_nodes_mount in Hn. destruct Hn as [Hn|Hn].
  - right. left. apply in_or_app. right. apply in_map_iff in Hn.
    destruct Hn as (e & <- & He). apply in_map_iff. exists e. split; [reflexivity|exact He].
  - destruct (A node Hn) as [A1|[A2|A3]]; auto.
    right. left. apply in_or_app. left. exact A2.
Qed.

Lemma accounted_change_step (sectionEl : SectionEl) (step : Z) (s : State) :
  Fresh s -> Mounted s -> accounted p s -> accounted p (change_step sectionEl step s).
Proof.
  intros F M A. unfold change_step. apply accounted_showOutside, accounted_render.
  - apply Fresh_hideOutside, Fresh_set_stepIndex, F.
  - apply accounted_hideOutside.
    + apply Fresh_set_stepIndex, F.
    + destruct M as [M1 M2]. split; assumption.
    + exact A.
Qed.

Lemma accounted_start_transition (nextIndex direction : Z) (next : SectionEl) (s : State) :
  Fresh s -> Mounted s -> accounted p s ->
  accounted p (start_transition nextIndex direction next s).
Proof.
  intros F M A. apply (accounted_transfer s _ A). simpl.
  intros node Hn. split; [exact Hn|]. intros Hi. right.
  rewrite exit_ids_app. apply in_or_app. left. apply exit_ids_hide_all; assumption.
Qed.

Lemma accounted_complete (k : nat) (s : State) :
  Fresh s -> accounted p s -> accounted p (complete (pg_sections p) k s).
Proof.
  intros F A. unfold complete.
  destruct (nth_error (tweens s) k) as [t|] eqn:N; [|exact A].
  assert (Ar : forall t', t = t' -> exit_id t' = [] ->
               accounted p (set_tweens (remove_at k (tweens s)) s)).
  { intros t' <- Hx. apply (accounted_transfer s _ A). simpl.
    intros node Hn. split; [exact Hn|]. intros [Hi|Hi]; [left; exact Hi|right].
    apply (exit_ids_remove_at_keeps _ _ _ _ N Hi). rewrite Hx. intros []. }
  destruct t; simpl; try (apply (Ar _ eq_refl eq_refl)).
  - apply (accounted_transfer s _ A). simpl. intros m Hm.
    unfold dom_ids in *.
    assert (Hd : In (node_id m) (dom_ids (node_remove node (outsideLayers s))))
      by (apply in_map; exact Hm).
    apply dom_ids_remove in Hd. destruct Hd as [_ Hne].
    unfold node_remove in Hm. rewrite layer_nodes_filter in Hm. apply filter_In in Hm.
    split; [apply Hm|]. intros [Hi|Hi]; [left; exact Hi|right].
    apply (exit_ids_remove_at_keeps _ _ _ _ N Hi). simpl. intros [H|[]]. congruence.
  - apply (accounted_transfer _ _ (Ar _ eq_refl eq_refl)). simpl.
    intros m Hm. split; [exact Hm|]. intros [Hi|Hi]; [left; exact Hi|right].
    rewrite exit_ids_app. apply in_or_app. left. exact Hi.
  - pose proof (Ar _ eq_refl eq_refl) as A0.
    assert (A1 : accounted p (set_stepIndex entryStep
                                (set_sectionIndex nextIndex
                                   (set_tweens (remove_at k (tweens s)) s))))
      by (apply (accounted_transfer _ _ A0); simpl; auto).
    destruct (item (pg_sections p) nextIndex) as [next|]; [|exact A1].
    apply accounted_showOutside, accounted_render; [|exact A1].
    apply Fresh_at, Fresh_remove_at, F.
Qed.

Lemma accounted_destroy (s : State) :
  Fresh s -> Mounted s -> accounted p s -> accounted p (destroy s).
Proof.
  intros F M A. unfold destroy. apply accounted_hideOutside.
  - destruct F as [F1 F2 F3 F4]. split; assumption.
  - destruct M as [M1 M2]. split; assumption.
  - apply (accounted_transfer _ _ A). simpl. auto.
Qed.

Lemma accounted_init (s0 : State) :
  navigator (initObserver p) = Some s0 -> accounted p s0.
Proof.
  intros H. destruct (init_navigator p s0 H) as (section0 & rest & kids & Hs & Hd & _ & ->).
  match goal with |- accounted p (set_listeners _ _ ?s) => assert (A : accounted p s) end.
  { apply accounted_showOutside, accounted_render.
    - split; unfold outside_ids, device_ids, active_ids, init_state; simpl.
      + intros i [].
      + intros i Hi. rewrite app_nil_r in Hi. apply in_map_iff in Hi.
        destruct Hi as (k & <- & Hk). apply (fresh_id_above p kids k Hd Hk).
      + intros i [].
      + constructor.
    - intros node Hn. left. exact Hn. }
  apply (accounted_transfer _ _ A). simpl. auto.
Qed.

Lemma reachable_accounted (s : State) : reachable p s -> accounted p s.
Proof.
  induction 1 as [s0 H|s e Hr IH]; [apply accounted_init, H|].
  pose proof (reachable_fresh p s Hr) as F.
  pose proof (reachable_mounted p s Hr) as M.
  apply handle_preserves; auto.
  - apply reachable_inv. exact Hr.
  - intros. apply accounted_change_step; assumption.
  - intros. apply accounted_start_transition; assumption.
  - intros k. apply accounted_complete; assumption.
  - apply accounted_destroy; assumption.
Qed.

End Accounted.

(** X11: no outside node is left behind.  In every state of a running
    navigator a node under one of the four layers was there when the page
    was initialized, is active, or has its exit animation in flight; so once
    the animations have completed, the only clones left in the layers are
    the active ones. *)
Theorem no_outside_node_left_behind (p : Page) (s : State) (node : Node) :
  reachable p s ->
  (In node (layer_nodes (outsideLayers s)) ->
   In node (layer_nodes (pg_layers p)) \/
   In (node_id node) (active_ids s) \/
   In (node_id node) (exit_ids (tweens s))) /\
  (In node (layer_nodes (outsideLayers (settle (pg_sections p) s))) ->
   In node (layer_nodes (pg_layers p)) \/
   In (node_id node) (active_ids (settle (pg_sections p) s))).
Proof.
  intros Hr. split.
  - apply (reachable_accounted p s Hr).
  - intros Hn.
    destruct (reachable_accounted p _ (reachable_settle p s Hr) node Hn) as [A|[A|A]]; auto.
    rewrite settle_done in A. destruct A.
Qed.

Lemma no_outside_node_left_behind_witness :
  exists s, replay story_page (drain ++ [OnDown]) = Some s /\
    map node_html (layer_nodes (outsideLayers s)) = ["hint"%string; "badge"%string] /\
    map node_html (layer_nodes (outsideLayers (settle (pg_sections story_page) s)))
    = ["badge"%string] /\
    map label (activeOutside (settle (pg_sections story_page) s)) = [("badge"%string, top)] /\
    forall node,
      In node (layer_nodes (outsideLayers (settle (pg_sections story_page) s))) ->
      In (node_id node) (active_ids (settle (pg_sections story_page) s)).
Proof.
  eexists. split; [vm_compute; reflexivity|]. repeat (split; [reflexivity|]).
  intros node Hn.
  match goal with H : In node (layer_nodes (outsideLayers (settle _ ?s))) |- _ =>
    destruct (no_outside_node_left_behind story_page s node) as [_ H2]
  end.
  - apply (reachable_replay story_page (drain ++ [OnDown])). vm_compute. reflexivity.
  - destruct (H2 Hn) as [[]|H3]. exact H3.
Defined.

(** ** The active set follows the position *)

Lemma shown_list_mount (new : list (Node * Position)) (l : Layers) (step : Z)
      (tpls : list OutsideTemplate) :
  shown_list (fold_left mount new l) step tpls = shown_list l step tpls.
Proof.
  revert l. induction new as [|e new IH]; intros l; simpl; [reflexivity|].
  rewrite IH. apply shown_list_append.
Qed.

Lemma shown_list_remove (node : Node) (l : Layers) (step : Z) (tpls : list OutsideTemplate) :
  shown_list (node_remove node l) step tpls = shown_list l step tpls.
Proof.
  induction tpls as [|tpl tpls IH]; simpl; [reflexivity|].
  assert (E : shown (node_remove node l) step tpl = shown l step tpl).
  { unfold shown. destruct (step_differs tpl step); [reflexivity|].
    destruct (ot_position tpl) as [q| |]; [|reflexivity|reflexivity].
    rewrite layer_get_remove. destruct (layer_get q l); reflexivity. }
  rewrite E, IH. reflexivity.
Qed.

Lemma swaps_remove_other (ts : list Tween) (k : nat) (t : Tween) :
  nth_error ts k = Some t -> is_swap t = false -> swaps (remove_at k ts) = swaps ts.
Proof.
  intros N H. destruct (remove_at_split _ _ _ N) as (l1 & l2 & -> & ->).
  rewrite !swaps_app. simpl. rewrite H. reflexivity.
Qed.

Lemma chains_remove_chain (ts : list Tween) (k : nat) (t : Tween) :
  (chains ts <= 1)%nat -> nth_error ts k = Some t -> chain t = true ->
  chains (remove_at k ts) = O.
Proof.
  intros Hc N H. destruct (remove_at_split _ _ _ N) as (l1 & l2 & -> & ->).
  rewrite chains_app in *. unfold chains in Hc at 2. simpl in Hc. rewrite H in Hc.
  simpl in Hc. unfold chains in *. lia.
Qed.

Section DecoratedSteps.

Variable sections : list SectionEl.

Lemma change_step_outside (sectionEl : SectionEl) (step : Z) (s : State) :
  map label (activeOutside (change_step sectionEl step s))
  = shown_list (outsideLayers s) step
      (before_throw step (getOutsideTemplates sectionEl)) /\
  shown_list (outsideLayers (change_step sectionEl step s)) step
             (before_throw step (getOutsideTemplates sectionEl))
  = shown_list (outsideLayers s) step
      (before_throw step (getOutsideTemplates sectionEl)).
Proof.
  unfold change_step.
  set (x := renderDeviceStep sectionEl step (hideOutside (set_stepIndex step s))).
  assert (Ea : activeOutside x = [] /\ outsideLayers x = outsideLayers s).
  { unfold x. destruct (render_outside sectionEl step (hideOutside (set_stepIndex step s)))
      as [-> ->].
    rewrite hideOutside_eq. split; reflexivity. }
  destruct Ea as [Ea El]. rewrite showOutside_eq. simpl. rewrite Ea, El. simpl.
  rewrite map_label_mk_nodes, shown_list_mount. split; reflexivity.
Qed.

Lemma Decorated_change_step (sectionEl : SectionEl) (step : Z) (s : State) :
  Inv sections s -> Decorated sections s ->
  isAnimating s = false -> item sections (sectionIndex s) = Some sectionEl ->
  Decorated sections (change_step sectionEl step s).
Proof.
  intros HI D Hb Hs.
  assert (Hsw : swaps (tweens (change_step sectionEl step s)) = []).
  { rewrite change_step_swaps. apply swaps_nil_of_chains, (inv_idle _ _ HI Hb). }
  pose proof (change_step_position sectionEl step s) as Hp. unfold position in Hp.
  injection Hp as Hp1 Hp2.
  split.
  - intros H. exfalso. apply H. exact Hsw.
  - intros _ _. unfold expected_outside. rewrite Hp1, Hp2, Hs.
    destruct (change_step_outside sectionEl step s) as [-> ->]. reflexivity.
  - unfold change_step.
    match goal with
    | |- keydownOn (state_of (showOutside ?a ?b
                                (renderDeviceStep ?a ?b (hideOutside ?s0)))) = _ =>
        destruct (kept_trans _ _ _ (kept_hideOutside s0)
                    (kept_trans _ _ _ (kept_render a b (hideOutside s0))
                       (kept_showOutside a b (renderDeviceStep a b (hideOutside s0)))))
          as (_ & _ & K3 & K4)
    end.
    rewrite K3, K4. simpl. apply (decorated_listeners _ _ D).
Qed.

Lemma Decorated_start_transition (nextIndex direction : Z) (next : SectionEl) (s : State) :
  Decorated sections s ->
  Decorated sections (start_transition nextIndex direction next s).
Proof.
  intros D. split; simpl.
  - reflexivity.
  - intros _ H. rewrite swaps_app in H. simpl in H.
    apply app_eq_nil in H. destruct H as [_ H]. discriminate.
  - apply (decorated_listeners _ _ D).
Qed.

Lemma Decorated_tweens (s : State) (ts : list Tween) :
  Decorated sections s -> swaps ts = swaps (tweens s) ->
  Decorated sections (set_tweens ts s).
Proof.
  intros [D1 D2 D3] E. split; simpl; rewrite ?E; auto.
Qed.

Lemma Decorated_complete (k : nat) (s : State) :
  Inv sections s -> Decorated sections s -> Decorated sections (complete sections k s).
Proof.
  intros HI D. unfold complete.
  destruct (nth_error (tweens s) k) as [t|] eqn:N; [|exact D].
  assert (Dr : is_swap t = false ->
               Decorated sections (set_tweens (remove_at k (tweens s)) s)).
  { intros H. apply Decorated_tweens; [exact D|]. apply (swaps_remove_other _ _ _ N H). }
  destruct t; simpl; try (apply Dr; reflexivity).
  - destruct (Dr eq_refl) as [D1 D2 D3]. split; simpl; auto.
    intros Ho Hs. etransitivity; [apply (D2 Ho Hs)|]. unfold expected_outside. simpl.
    destruct (item sections (sectionIndex s)); [|reflexivity].
    symmetry. apply shown_list_remove.
  - destruct (Dr eq_refl) as [D1 D2 D3]. split; simpl; auto.
    + rewrite swaps_app. simpl. rewrite app_nil_r. exact D1.
    + rewrite swaps_app. simpl. rewrite app_nil_r. exact D2.
  - destruct (Dr eq_refl) as [D1 D2 D3]. split; simpl; auto.
  - assert (Ha : activeOutside s = []).
    { apply (decorated_pending _ _ D). intros H.
      apply nth_error_In in N. assert (Hin : In (SwapCall nextIndex entryStep) (swaps (tweens s)))
        by (apply filter_In; split; [exact N|reflexivity]).
      rewrite H in Hin. destruct Hin. }
    assert (Hc : swaps (remove_at k (tweens s)) = []).
    { apply swaps_nil_of_chains.
      apply (chains_remove_chain _ _ _ (inv_chain _ _ HI) N eq_refl). }
    pose proof (inv_swap _ _ HI) as Hok. rewrite Forall_forall in Hok.
    specialize (Hok _ (nth_error_In _ _ N)). simpl in Hok. destruct Hok as [Hn _].
    destruct (item_in_range sections nextIndex Hn) as [next Hnext]. rewrite Hnext.
    set (s0 := set_stepIndex entryStep
                 (set_sectionIndex nextIndex (set_tweens (remove_at k (tweens s)) s))).
    destruct (render_outside next entryStep s0) as [Ra Rl].
    pose proof (position_render next entryStep s0) as Rp. unfold position in Rp.
    injection Rp as Rp1 Rp2.
    destruct (kept_render next entryStep s0) as (_ & _ & K3 & K4).
    rewrite showOutside_eq. split; simpl.
    + intros H. exfalso. apply H.
      rewrite swaps_app, swaps_enter, app_nil_r, swaps_render. exact Hc.
    + intros _ _. rewrite Ra, Rl. unfold expected_outside. simpl.
      rewrite Rp1, Rp2. simpl. rewrite Hnext, Ha. simpl.
      rewrite map_label_mk_nodes, shown_list_mount. reflexivity.
    + rewrite K3, K4. simpl. apply (decorated_listeners _ _ D).
Qed.

Lemma Decorated_destroy (s : State) : Decorated sections (destroy s).
Proof.
  unfold destroy. rewrite hideOutside_eq. split; simpl; [reflexivity|discriminate|reflexivity].
Qed.

Lemma Decorated_handle (e : Event) (s : State) :
  Inv sections s -> Decorated sections s -> Decorated sections (handle sections e s).
Proof.
  intros HI D. apply handle_preserves; auto.
  - intros. apply Decorated_change_step; assumption.
  - intros. apply Decorated_start_transition; assumption.
  - intros k. apply Decorated_complete; assumption.
  - apply Decorated_destroy.
Qed.

End DecoratedSteps.

Lemma Decorated_init (p : Page) (s0 : State) :
  navigator (initObserver p) = Some s0 -> Decorated (pg_sections p) s0.
Proof.
  intros H. destruct (init_navigator p s0 H) as (section0 & rest & kids & Hs & Hd & _ & ->).
  rewrite Hs.
  match goal with
  | |- Decorated _ (set_listeners _ _
                      (state_of (showOutside ?a ?b (renderDeviceStep ?a ?b ?s0)))) =>
      destruct (render_outside a b s0) as [Ra Rl];
      pose proof (position_render a b s0) as Rp;
      pose proof (swaps_render a b s0) as Rs
  end.
  unfold position in Rp. injection Rp as Rp1 Rp2. simpl in *.
  rewrite showOutside_eq. split; simpl.
  - intros Hx. exfalso. apply Hx.
    rewrite swaps_app, swaps_enter, app_nil_r. exact Rs.
  - intros _ _. unfold expected_outside. simpl. rewrite Ra, Rl, Rp1, Rp2. simpl.
    rewrite map_label_mk_nodes, shown_list_mount. reflexivity.
  - reflexivity.
Qed.

Lemma reachable_decorated (p : Page) (s : State) :
  reachable p s -> Decorated (pg_sections p) s.
Proof.
  induction 1 as [s0 H|s e Hr IH]; [apply Decorated_init, H|].
  apply Decorated_handle; [apply reachable_inv; exact Hr|exact IH].
Qed.

(** X12: the active outside set follows the position.  In every state of a
    navigator whose listeners are registered (initialization returned and
    [destroy] has not been called) and that has no section transition
    waiting for its timeline callback, the active set is exactly one clone
    per outside template that [showOutside] mounts for the current section
    and step: the templates whose step matches, whose position names a
    layer that exists and whose content has a first element, taken in
    order up to the first template, if there is one, at which
    [showOutside] throws.  While a transition waits for its callback the
    active set is empty. *)
Theorem active_set_follows_position (p : Page) (s : State) :
  reachable p s ->
  (observerOn s = true -> swaps (tweens s) = [] ->
   map label (activeOutside s) = expected_outside (pg_sections p) s) /\
  (swaps (tweens s) <> [] -> activeOutside s = []) /\
  keydownOn s = observerOn s.
Proof.
  intros Hr. destruct (reachable_decorated p s Hr) as [D1 D2 D3]. auto.
Qed.

Lemma active_set_follows_position_witness :
  exists s, replay story_page (drain ++ [OnDown]) = Some s /\
    position s = (0, 1) /\ isAnimating s = true /\
    map label (activeOutside s) = [("badge"%string, top)] /\
    expected_outside (pg_sections story_page) s = [("badge"%string, top)].
Proof.
  eexists. split; [vm_compute; reflexivity|]. repeat (split; [reflexivity|]).
  match goal with |- expected_outside _ ?s = _ =>
    destruct (active_set_follows_position story_page s) as [H _]
  end.
  - apply (reachable_replay story_page (drain ++ [OnDown])). vm_compute. reflexivity.
  - rewrite <- H; reflexivity.
Defined.

(** ** The busy flag is always released on pages that can be rendered *)

Lemma in_kill (ids : list nat) (ts : list Tween) (t' : Tween) :
  In t' (killTweensOf ids ts) -> exists t, In t ts /\ kill_tween ids t = Some t'.
Proof.
  induction ts as [|t ts IH]; simpl; [intros []|].
  destruct (kill_tween ids t) as [u|] eqn:K.
  - intros [<-|H]; [exists t; auto|].
    destruct (IH H) as (t0 & H0 & K0). exists t0. auto.
  - intros H. destruct (IH H) as (t0 & H0 & K0). exists t0. auto.
Qed.

Lemma chain_targets_kill (ids : list nat) (t t' : Tween) :
  kill_tween ids t = Some t' -> incl (chain_targets t') (chain_targets t).
Proof.
  destruct t; simpl; intros H;
    try (destruct (has_id _ _); inversion H; subst; apply incl_refl);
    try (inversion H; subst; apply incl_refl).
  assert (G : incl (map node_id (filter (fun k => negb (has_id (node_id k) ids)) targets))
                   (map node_id targets)).
  { intros i Hi. apply in_map_iff in Hi. destruct Hi as (k & <- & Hk).
    apply filter_In in Hk. apply in_map. apply Hk. }
  destruct targets as [|k ks]; [inversion H; subst; apply incl_refl|].
  destruct (filter _ (k :: ks)) eqn:F; [discriminate|].
  inversion H; subst. simpl. exact G.
Qed.

Lemma targets_within_kill (dev ids : list nat) (ts : list Tween) :
  targets_within dev ts -> targets_within dev (killTweensOf ids ts).
Proof.
  intros H t' i Ht Hi. destruct (in_kill _ _ _ Ht) as (t & Hin & K).
  apply (H t i Hin). apply (chain_targets_kill _ _ _ K i Hi).
Qed.

Lemma targets_within_app (dev : list nat) (ts us : list Tween) :
  targets_within dev ts -> targets_within dev us -> targets_within dev (ts ++ us).
Proof.
  intros H1 H2 t i Ht Hi. apply in_app_or in Ht. destruct Ht as [Ht|Ht]; eauto.
Qed.

Lemma targets_within_quiet (dev : list nat) (ts : list Tween) :
  (forall t, In t ts -> chain t = false) -> targets_within dev ts.
Proof.
  intros H t i Ht Hi. specialize (H t Ht). destruct t; simpl in *; try discriminate;
    destruct Hi.
Qed.

Lemma targets_within_hide (dev : list nat) (entries : list (Node * Position))
      (ts : list Tween) :
  targets_within dev ts -> targets_within dev (hide_tweens entries ts).
Proof.
  revert ts. induction entries as [|e es IH]; intros ts H; simpl; [exact H|].
  apply IH. apply targets_within_app; [apply targets_within_kill; exact H|].
  apply targets_within_quiet. intros t [<-|[]]. reflexivity.
Qed.

Lemma targets_within_enter (dev : list nat) (new : list (Node * Position)) :
  targets_within dev (map enter_tween new).
Proof.
  apply targets_within_quiet. intros t Ht. apply in_map_iff in Ht.
  destruct Ht as (e & <- & _). reflexivity.
Qed.

Lemma targets_within_remove_at (dev : list nat) (k : nat) (ts : list Tween) :
  targets_within dev ts -> targets_within dev (remove_at k ts).
Proof.
  intros H t i Ht Hi. apply (H t i); [|exact Hi].
  clear - Ht. revert k Ht. induction ts as [|a ts IH]; intros k Ht.
  - destruct k; simpl in Ht; destruct Ht.
  - destruct k; simpl in Ht.
    + right. exact Ht.
    + destruct Ht as [->|Ht]; [left; reflexivity|right; apply (IH k Ht)].
Qed.

Lemma chains_zero_quiet (ts : list Tween) (t : Tween) :
  chains ts = O -> In t ts -> chain t = false.
Proof.
  unfold chains. induction ts as [|a ts IH]; simpl; [intros _ []|].
  destruct (chain a) eqn:E; simpl; [discriminate|].
  intros H [<-|Ht]; [exact E|apply IH; assumption].
Qed.

(** [killTweensOf] on nodes that no tween of the busy chain animates
    leaves the chain as long as it was. *)
Lemma chains_kill_apart (ids : list nat) (ts : list Tween) :
  (forall t i, In t ts -> In i (chain_targets t) -> ~ In i ids) ->
  chains (killTweensOf ids ts) = chains ts.
Proof.
  unfold chains. induction ts as [|t ts IH]; intros H; simpl; [reflexivity|].
  assert (IH' : List.length (filter chain (killTweensOf ids ts))
                = List.length (filter chain ts))
    by (apply IH; intros u i Hu; apply H; right; exact Hu).
  assert (Ht : forall i, In i (chain_targets t) -> has_id i ids = false).
  { intros i Hi. destruct (has_id i ids) eqn:E; [|reflexivity].
    apply has_id_In in E. exfalso. apply (H t i (or_introl eq_refl) Hi E). }
  destruct t; simpl in *;
    try (destruct (has_id (node_id node) ids); simpl; exact IH').
  - destruct targets as [|k ks]; [simpl; rewrite IH'; reflexivity|].
    simpl. rewrite (Ht (node_id k) (or_introl eq_refl)). simpl. rewrite IH'. reflexivity.
  - rewrite (Ht (node_id node) (or_introl eq_refl)). simpl. rewrite IH'. reflexivity.
  - rewrite IH'. reflexivity.
  - rewrite IH'. reflexivity.
  - rewrite IH'. reflexivity.
Qed.

Lemma chains_hide_apart (dev : list nat) (entries : list (Node * Position))
      (ts : list Tween) :
  targets_within dev ts ->
  (forall i, In i (map (fun e => node_id (fst e)) entries) -> ~ In i dev) ->
  chains (hide_tweens entries ts) = chains ts.
Proof.
  revert ts. induction entries as [|e es IH]; intros ts H Hd; simpl; [reflexivity|].
  rewrite IH.
  - rewrite chains_app. unfold chains at 2. simpl. rewrite Nat.add_0_r.
    apply chains_kill_apart. intros t i Ht Hi [<-|[]].
    apply (Hd (node_id (fst e))); [left; reflexivity|apply (H t _ Ht Hi)].
  - apply targets_within_app; [apply targets_within_kill; exact H|].
    apply targets_within_quiet. intros t [<-|[]]. reflexivity.
  - intros i Hi. apply Hd. right. exact Hi.
Qed.

Lemma renderable_source (sectionEl : SectionEl) (step : Z) :
  renderable sectionEl = true ->
  0 <= step <= Z.max (len (getStepTemplates sectionEl) - 1) 0 ->
  exists tpl el, step_source sectionEl step = Some (tpl, el).
Proof.
  unfold renderable, step_source. intros R Hs.
  destruct (getStepTemplates sectionEl) as [|t0 ts] eqn:E; [discriminate|].
  destruct (item_in_range (t0 :: ts) step) as [tpl Ht].
  { unfold len in *. simpl List.length in *. lia. }
  rewrite Ht. rewrite forallb_forall in R.
  assert (Hin : In tpl (t0 :: ts)).
  { unfold item in Ht. destruct (step <? 0); [discriminate|].
    apply (nth_error_In _ _ Ht). }
  specialize (R tpl Hin). destruct (st_content tpl) as [el|]; [eauto|discriminate].
Qed.

Lemma item_forallb {A : Type} (f : A -> bool) (l : list A) (i : Z) (a : A) :
  forallb f l = true -> item l i = Some a -> f a = true.
Proof.
  intros H Hi. rewrite forallb_forall in H. apply H.
  unfold item in Hi. destruct (i <? 0); [discriminate|]. apply (nth_error_In _ _ Hi).
Qed.

Lemma chains_remove_other (ts : list Tween) (k : nat) (t : Tween) :
  nth_error ts k = Some t -> chain t = false -> chains (remove_at k ts) = chains ts.
Proof.
  intros N H. destruct (remove_at_split _ _ _ N) as (l1 & l2 & -> & ->).
  rewrite !chains_app. unfold chains at 4. simpl. rewrite H. reflexivity.
Qed.

Lemma Backed_change_step (sectionEl : SectionEl) (step : Z) (s : State) :
  Backed s -> isAnimating s = false -> Backed (change_step sectionEl step s).
Proof.
  intros [B1 B2] Hb.
  assert (Hh : targets_within (map node_id (deviceChildren s))
                 (killTweensOf (map node_id (deviceChildren s))
                    (hide_tweens (activeOutside s) (tweens s))))
    by (apply targets_within_kill, targets_within_hide; exact B2).
  destruct (step_source sectionEl step) as [[tpl el]|] eqn:E.
  - split.
    + intros _. apply (change_step_busy sectionEl step s tpl el E).
    + unfold change_step. rewrite showOutside_eq. simpl.
      rewrite (render_swap _ _ _ _ _ E). simpl. rewrite hideOutside_eq. simpl.
      apply targets_within_app; [|apply targets_within_enter].
      apply targets_within_app; [exact Hh|].
      intros t i [<-|[]] Hi. exact Hi.
  - split.
    + destruct (change_step_skipped sectionEl step s E) as [-> _]. rewrite Hb. discriminate.
    + unfold change_step. rewrite showOutside_eq. simpl.
      rewrite (render_skip _ _ _ E). simpl. rewrite hideOutside_eq. simpl.
      apply targets_within_app; [exact Hh|apply targets_within_enter].
Qed.

Lemma Backed_start_transition (nextIndex direction : Z) (next : SectionEl) (s : State) :
  Backed s -> Backed (start_transition nextIndex direction next s).
Proof.
  intros [B1 B2]. split; simpl.
  - intros _. rewrite chains_app. unfold chains at 2. simpl. lia.
  - apply targets_within_app; [apply targets_within_hide; exact B2|].
    intros t i Ht Hi. simpl in Ht. destruct Ht as [<-|[<-|[<-|[]]]]; destruct Hi.
Qed.

Lemma Backed_destroy (s : State) : Fresh s -> Backed s -> Backed (destroy s).
Proof.
  intros F [B1 B2]. unfold destroy. rewrite hideOutside_eq. split; simpl.
  - intros Hb. rewrite (chains_hide_apart (map node_id (deviceChildren s))); auto.
    intros i Hi Hd. apply (fresh_apart _ F i).
    + unfold outside_ids. apply in_or_app. left. exact Hi.
    + unfold device_ids. apply in_or_app. left. exact Hd.
  - apply targets_within_hide. exact B2.
Qed.

Section BackedSteps.

Variable sections : list SectionEl.
Hypothesis all_renderable : forallb renderable sections = true.

Lemma Backed_complete (k : nat) (s : State) :
  Inv sections s -> Backed s -> Backed (complete sections k s).
Proof.
  intros HI [B1 B2]. unfold complete.
  destruct (nth_error (tweens s) k) as [t|] eqn:N; [|split; assumption].
  pose proof (targets_within_remove_at _ k _ B2) as Br.
  assert (Q : chain t = false -> Backed (set_tweens (remove_at k (tweens s)) s)).
  { intros H. split; simpl; [|exact Br].
    rewrite (chains_remove_other _ _ _ N H). exact B1. }
  assert (Z0 : chain t = true -> chains (remove_at k (tweens s)) = O)
    by (intros H; apply (chains_remove_chain _ _ _ (inv_chain _ _ HI) N H)).
  destruct t; simpl; try (apply Q; reflexivity).
  - destruct (Q eq_refl) as [Q1 Q2]. split; assumption.
  - split; simpl.
    + intros _. rewrite chains_app. unfold chains at 2. simpl. lia.
    + apply (targets_within_app [node_id node] (remove_at k (tweens s))
               [StepEnter node fromX]).
      * apply targets_within_quiet. intros t Ht.
        apply (chains_zero_quiet _ _ (Z0 eq_refl) Ht).
      * intros t i [<-|[]] Hi. exact Hi.
  - split; simpl; [discriminate|exact Br].
  - pose proof (inv_swap _ _ HI) as Hok. rewrite Forall_forall in Hok.
    specialize (Hok _ (nth_error_In _ _ N)). simpl in Hok. destruct Hok as [Hn He].
    destruct (item_in_range sections nextIndex Hn) as [next Hnext]. rewrite Hnext.
    destruct (renderable_source next entryStep) as (tpl & el & E).
    { apply (item_forallb renderable sections nextIndex next all_renderable Hnext). }
    { unfold lastStepOf in He. rewrite Hnext in He. exact He. }
    rewrite showOutside_eq. rewrite (render_swap _ _ _ _ _ E). split; simpl.
    + intros _. rewrite !chains_app. unfold chains at 2. simpl. lia.
    + apply targets_within_app; [|apply targets_within_enter].
      apply targets_within_app; [apply targets_within_kill; exact Br|].
      intros t i [<-|[]] Hi. exact Hi.
Qed.

Lemma Backed_handle (e : Event) (s : State) :
  Inv sections s -> Fresh s -> Backed s -> Backed (handle sections e s).
Proof.
  intros HI F B. apply handle_preserves; auto.
  - intros. apply Backed_change_step; assumption.
  - intros. apply Backed_start_transition; assumption.
  - intros k. apply Backed_complete; assumption.
  - apply Backed_destroy; assumption.
Qed.

End BackedSteps.

Lemma Backed_init (p : Page) (s0 : State) :
  forallb renderable (pg_sections p) = true ->
  navigator (initObserver p) = Some s0 -> Backed s0.
Proof.
  intros R H.
  destruct (init_navigator p s0 H) as (section0 & rest & kids & Hs & Hd & _ & ->).
  rewrite Hs in R.
  simpl in R. apply andb_prop in R. destruct R as [R0 _].
  destruct (renderable_source section0 0 R0) as (tpl & el & E); [lia|].
  rewrite showOutside_eq. rewrite (render_swap _ _ _ _ _ E). split; simpl.
  - intros _. unfold chains. simpl. lia.
  - apply (targets_within_app _ [_]); [|apply targets_within_enter].
    intros t i [<-|[]] Hi. exact Hi.
Qed.

Lemma reachable_backed (p : Page) (s : State) :
  forallb renderable (pg_sections p) = true -> reachable p s -> Backed s.
Proof.
  intros R. induction 1 as [s0 H|s e Hr IH]; [apply (Backed_init p s0 R H)|].
  apply Backed_handle; auto; [apply reachable_inv|apply (reachable_fresh p)]; exact Hr.
Qed.

(** X13: on a page where every section has at least one step template and
    every step template has an element to clone, the navigator never
    freezes: in every state in which it is busy an animation of the busy
    chain is in flight, and once the animations have completed it is idle
    and accepts requests again. *)
Theorem busy_flag_is_released (p : Page) (s : State) :
  forallb renderable (pg_sections p) = true ->
  reachable p s ->
  (isAnimating s = true -> (1 <= chains (tweens s))%nat) /\
  isAnimating (settle (pg_sections p) s) = false.
Proof.
  intros R Hr. split; [apply (backed_busy _ (reachable_backed p s R Hr))|].
  pose proof (reachable_backed p _ R (reachable_settle p s Hr)) as [B _].
  rewrite settle_done in B.
  destruct (isAnimating (settle (pg_sections p) s)); [|reflexivity].
  specialize (B eq_refl). unfold chains in B. simpl in B. lia.
Qed.

Lemma busy_flag_is_released_witness :
  exists s, replay story_page (drain ++ [OnDown; Complete 0; OnDown]) = Some s /\
    isAnimating s = true /\
    isAnimating (settle (pg_sections story_page) s) = false.
Proof.
  eexists. split; [vm_compute; reflexivity|]. split; [reflexivity|].
  apply busy_flag_is_released; [reflexivity|].
  apply (reachable_replay story_page (drain ++ [OnDown; Complete 0; OnDown])).
  vm_compute. reflexivity.
Defined.

(** ** Animations run out *)

Lemma settle_n_run (sections : list SectionEl) (fuel : nat) (s : State) :
  exists es, Forall (fun e => e = Complete 0) es /\ (List.length es <= fuel)%nat /\
             settle_n sections fuel s = run sections es s.
Proof.
  revert s. induction fuel as [|fuel IH]; intros s; simpl.
  - exists []. repeat split; auto.
  - destruct (tweens s).
    + exists []. repeat split; auto. simpl. lia.
    + destruct (IH (complete sections 0 s)) as (es & Hf & Hl & E).
      exists (Complete 0 :: es). split; [constructor; auto|].
      split; [simpl; lia|]. rewrite E. reflexivity.
Qed.

(** X14: the completion callbacks start only finitely many further
    animations.  From any state, completing the oldest tween in flight
    [fuel] times, for any [fuel] from [total_cost] on (one per tween, one
    more per fade-out, and three plus the number of outside templates of the
    target section per pending timeline callback), leaves no tween in
    flight; what is run is a sequence of at most [fuel] completions of the
    event loop. *)
Theorem animations_run_out (sections : list SectionEl) (s : State) (fuel : nat) :
  (total_cost sections (tweens s) <= fuel)%nat ->
  tweens (settle_n sections fuel s) = [] /\
  exists es, Forall (fun e => e = Complete 0) es /\
             (List.length es <= fuel)%nat /\
             settle_n sections fuel s = run sections es s.
Proof.
  intros H. split; [apply settle_n_done; exact H|apply settle_n_run].
Qed.

Lemma animations_run_out_witness :
  exists s, replay tour_page (drain ++ [OnDown]) = Some s /\
    List.length (tweens s) = 3%nat /\
    tweens (settle_n (pg_sections tour_page) 8 s) = [].
Proof.
  eexists. split; [vm_compute; reflexivity|]. split; [reflexivity|].
  apply animations_run_out. vm_compute. lia.
Defined.

(** ** Teardown in the middle of a transition *)

(** X15: [destroy] cancels no section transition: it leaves the busy flag
    and every tween of a transition's timeline as they are (it only cancels
    the tweens of the outside nodes it hides), so a timeline callback still
    in flight commits its position after the teardown exactly as it would
    have without it. *)
Theorem destroy_cancels_no_transition (sections : list SectionEl) (s : State) :
  slides (tweens (destroy s)) = slides (tweens s) /\
  isAnimating (destroy s) = isAnimating s /\
  position (destroy s) = position s /\
  position (settle sections (destroy s)) = position (settle sections s).
Proof.
  assert (E : tweens (destroy s) = hide_tweens (activeOutside s) (tweens s))
    by (unfold destroy; rewrite hideOutside_eq; reflexivity).
  assert (P : position (destroy s) = position s)
    by (unfold destroy; rewrite hideOutside_eq; reflexivity).
  split; [rewrite E; apply slides_hide|].
  split; [apply isAnimating_destroy|]. split; [exact P|].
  rewrite !settle_position. unfold target. rewrite E, swaps_hide, P. reflexivity.
Qed.

(** ** A step forward and a step back *)

Lemma settled_step (sections : list SectionEl) (s : State) (sectionEl : SectionEl)
      (d step : Z) :
  isAnimating s = false -> swaps (tweens s) = [] ->
  item sections (sectionIndex s) = Some sectionEl ->
  (d = 1 /\ stepIndex s < len (getStepTemplates sectionEl) - 1 /\ step = stepIndex s + 1) \/
  (d = -1 /\ 0 < stepIndex s /\ step = stepIndex s - 1) ->
  isAnimating (advance_and_settle sections d s) = false /\
  tweens (advance_and_settle sections d s) = [] /\
  position (advance_and_settle sections d s) = (sectionIndex s, step).
Proof.
  intros Hb Hsw Hs Hd. unfold advance_and_settle.
  assert (E : advance sections d s = change_step sectionEl step s).
  { unfold advance. destruct Hd as [(-> & Hlt & ->)|(-> & Hlt & ->)]; simpl.
    - apply goForward_step; assumption.
    - apply goBackward_step; assumption. }
  rewrite E. split; [|split].
  - apply settle_idle. apply change_step_releasing; assumption.
  - apply settle_done.
  - rewrite settle_position. unfold target. rewrite change_step_swaps, Hsw. simpl.
    apply change_step_position.
Qed.

(** X16: from a navigator that is not busy (isAnimating false), inside a
    section, a request in one direction followed, once the animations have
    completed, by a request in the other direction brings the navigator
    back to the step it started from, idle and with no animation in
    flight. *)
Theorem step_there_and_back (p : Page) (s : State) (sectionEl : SectionEl) (d : Z) :
  reachable p s ->
  isAnimating s = false ->
  item (pg_sections p) (sectionIndex s) = Some sectionEl ->
  (d = 1 /\ stepIndex s < len (getStepTemplates sectionEl) - 1) \/
  (d = -1 /\ 0 < stepIndex s) ->
  let s' := advance_and_settle (pg_sections p) (- d)
              (advance_and_settle (pg_sections p) d s) in
  position s' = position s /\ isAnimating s' = false /\ tweens s' = [].
Proof.
  intros Hr Hb Hs Hd. simpl.
  pose proof (reachable_inv _ _ Hr) as HI.
  pose proof (inv_step _ _ HI) as Hst. unfold lastStepOf in Hst. rewrite Hs in Hst.
  assert (Hsw : swaps (tweens s) = [])
    by (apply swaps_nil_of_chains, (inv_idle _ _ HI Hb)).
  destruct Hd as [[-> Hlt]|[-> Hlt]].
  - destruct (settled_step (pg_sections p) s sectionEl 1 (stepIndex s + 1) Hb Hsw Hs)
      as (B1 & T1 & P1); [left; auto|].
    injection P1 as P1a P1b.
    destruct (settled_step (pg_sections p) _ sectionEl (-1) (stepIndex s) B1
                (f_equal swaps T1)) as (B2 & T2 & P2).
    + rewrite P1a. exact Hs.
    + right. rewrite P1b. repeat split; lia.
    + simpl. rewrite P2, P1a. auto.
  - destruct (settled_step (pg_sections p) s sectionEl (-1) (stepIndex s - 1) Hb Hsw Hs)
      as (B1 & T1 & P1); [right; auto|].
    injection P1 as P1a P1b.
    destruct (settled_step (pg_sections p) _ sectionEl 1 (stepIndex s) B1
                (f_equal swaps T1)) as (B2 & T2 & P2).
    + rewrite P1a. exact Hs.
    + left. rewrite P1b. repeat split; lia.
    + simpl. rewrite P2, P1a. auto.
Qed.

Lemma step_there_and_back_witness :
  exists s, replay story_page (drain ++ [OnDown] ++ drain) = Some s /\
    position s = (0, 1) /\
    position (advance_and_settle (pg_sections story_page) (-1)
                (advance_and_settle (pg_sections story_page) 1 s)) = (0, 1) /\
    position (advance_and_settle (pg_sections story_page) 1
                (advance_and_settle (pg_sections story_page) (-1) s)) = (0, 1).
Proof.
  eexists. split; [vm_compute; reflexivity|]. split; [reflexivity|].
  match goal with |- position (advance_and_settle _ _ (advance_and_settle _ _ ?s)) = _ /\ _ =>
    assert (R : reachable story_page s)
      by (apply (reachable_replay story_page (drain ++ [OnDown] ++ drain));
          vm_compute; reflexivity);
    destruct (step_there_and_back story_page s story_A 1 R eq_refl eq_refl
                (or_introl (conj eq_refl eq_refl))) as [H1 _];
    destruct (step_there_and_back story_page s story_A (-1) R eq_refl eq_refl
                (or_intror (conj eq_refl eq_refl))) as [H2 _]
  end.
  split; [exact H1|exact H2].
Defined.

(** ** Forward across a boundary, then backward *)

Lemma settle_backed (sections : list SectionEl) (s : State) :
  forallb renderable sections = true ->
  Inv sections s -> Backed s ->
  Inv sections (settle sections s) /\ isAnimating (settle sections s) = false.
Proof.
  intros R HI B.
  pose proof (settle_n_preserves sections (fun x => Inv sections x /\ Backed x)
                (fun x H => conj (Inv_complete sections 0 x (proj1 H))
                                 (Backed_complete sections R 0 x (proj1 H) (proj2 H)))
                (total_cost sections (tweens s)) s (conj HI B)) as [HI' [B' _]].
  fold (settle sections s) in HI', B'. split; [exact HI'|].
  rewrite settle_done in B'.
  destruct (isAnimating (settle sections s)); [|reflexivity].
  specialize (B' eq_refl). unfold chains in B'. simpl in B'. lia.
Qed.

(** X17: entering a section forward skips its step 0.  On a page where
    every step can be rendered, from a navigator that is not busy
    (isAnimating false) and stands on the last step of section i, a
    request forward followed, once the animations have completed, by a
    request backward does not lead back to section i when section i+1 has
    two steps or more: the navigator stands at step 0 of section i+1.  It
    is back where it started when section i+1 has fewer than two steps. *)
Theorem forward_then_backward_across_boundary (p : Page) (s : State) :
  forallb renderable (pg_sections p) = true ->
  reachable p s ->
  isAnimating s = false ->
  sectionIndex s < len (pg_sections p) - 1 ->
  stepIndex s = lastStepOf (pg_sections p) (sectionIndex s) ->
  let s' := advance_and_settle (pg_sections p) (-1)
              (advance_and_settle (pg_sections p) 1 s) in
  (2 <= stepCountOf (pg_sections p) (sectionIndex s + 1) ->
   position s' = (sectionIndex s + 1, 0)) /\
  (stepCountOf (pg_sections p) (sectionIndex s + 1) < 2 -> position s' = position s).
Proof.
  intros R Hr Hb Hlt Hst. simpl. set (secs := pg_sections p) in *.
  pose proof (reachable_inv _ _ Hr) as HI. fold secs in HI.
  pose proof (reachable_backed p s R Hr) as HB.
  pose proof (inv_section _ _ HI) as Hsec.
  assert (Hsw : swaps (tweens s) = [])
    by (apply swaps_nil_of_chains, (inv_idle _ _ HI Hb)).
  destruct (item_in_range secs (sectionIndex s)) as [cur Hcur]; [lia|].
  destruct (item_in_range secs (sectionIndex s + 1)) as [next Hn]; [lia|].
  pose proof (item_forallb renderable secs _ next R Hn) as Rn.
  assert (Hlen : 1 <= len (getStepTemplates next)).
  { unfold renderable in Rn. destruct (getStepTemplates next); [discriminate|].
    unfold len. simpl. lia. }
  assert (E1 : advance secs 1 s = start_transition (sectionIndex s + 1) 1 next s)
    by (unfold advance; simpl; apply goForward_section; auto; lia).
  set (s1 := advance_and_settle secs 1 s).
  assert (H1 : Inv secs s1 /\ isAnimating s1 = false).
  { unfold s1, advance_and_settle. apply (settle_backed secs _ R).
    - unfold advance. simpl. apply Inv_goForward. exact HI.
    - rewrite E1. apply Backed_start_transition. exact HB. }
  destruct H1 as [HI1 Hb1].
  assert (T1 : tweens s1 = []) by apply settle_done.
  assert (P1 : position s1 = (sectionIndex s + 1, getEntryStepIndex next 1)).
  { unfold s1, advance_and_settle. rewrite settle_position, E1.
    apply start_transition_target. exact Hsw. }
  injection P1 as P1a P1b. unfold getEntryStepIndex in P1b. simpl in P1b.
  unfold stepCountOf. fold secs. rewrite Hn. split; intros Hc.
  - destruct (settled_step secs s1 next (-1) 0 Hb1 (f_equal swaps T1)) as (_ & _ & P2).
    + rewrite P1a. exact Hn.
    + right. rewrite P1b. repeat split; lia.
    + rewrite P2, P1a. reflexivity.
  - unfold advance_and_settle at 1. unfold advance. simpl.
    rewrite (goBackward_section secs s1 cur Hb1).
    + rewrite settle_position, start_transition_target by (rewrite T1; reflexivity).
      unfold position. rewrite P1a. f_equal; [lia|].
      rewrite Hst. unfold lastStepOf. fold secs. rewrite Hcur. reflexivity.
    + rewrite P1a. lia.
    + rewrite P1b. lia.
    + rewrite P1a. replace (sectionIndex s + 1 - 1) with (sectionIndex s) by lia. exact Hcur.
Qed.

Lemma forward_then_backward_across_boundary_witness :
  exists s, replay tour_page drain = Some s /\
    position s = (0, 0) /\
    position (advance_and_settle (pg_sections tour_page) (-1)
                (advance_and_settle (pg_sections tour_page) 1 s)) = (1, 0).
Proof.
  eexists. split; [vm_compute; reflexivity|]. split; [reflexivity|].
  match goal with |- position (advance_and_settle _ _ (advance_and_settle _ _ ?s)) = _ =>
    destruct (forward_then_backward_across_boundary tour_page s) as [H _]
  end.
  - reflexivity.
  - apply (reachable_replay tour_page drain). vm_compute. reflexivity.
  - reflexivity.
  - vm_compute. reflexivity.
  - reflexivity.
  - apply H. vm_compute. discriminate.
Defined.

(** ** The device shows cloned steps *)

Lemma fade_in_kill (ids : list nat) (ts : list Tween) (targets : list Node) (node : Node)
      (fromX : Z) :
  In (StepFadeOut targets node fromX) (killTweensOf ids ts) ->
  exists targets', In (StepFadeOut targets' node fromX) ts.
Proof.
  intros H. destruct (in_kill _ _ _ H) as (t & Ht & K).
  destruct (kill_tween_shape _ _ _ K) as [E|(ks & ks' & n & fx & -> & E)].
  - subst t. exists targets. exact Ht.
  - inversion E; subst. exists ks. exact Ht.
Qed.

Lemma fade_in_hide (entries : list (Node * Position)) (ts : list Tween)
      (targets : list Node) (node : Node) (fromX : Z) :
  In (StepFadeOut targets node fromX) (hide_tweens entries ts) ->
  exists targets', In (StepFadeOut targets' node fromX) ts.
Proof.
  revert ts targets. induction entries as [|e es IH]; intros ts targets H; simpl in H.
  - exists targets. exact H.
  - destruct (IH _ _ H) as (t1 & H1). apply in_app_or in H1.
    destruct H1 as [H1|[H1|[]]]; [|discriminate].
    apply (fade_in_kill _ _ _ _ _ H1).
Qed.

Lemma fade_not_enter (new : list (Node * Position)) (targets : list Node) (node : Node)
      (fromX : Z) :
  ~ In (StepFadeOut targets node fromX) (map enter_tween new).
Proof. intros H. apply in_map_iff in H. destruct H as (e & E & _). discriminate. Qed.

Lemma chains_zero_In (ts : list Tween) (t : Tween) :
  chains ts = O -> In t ts -> chain t = false.
Proof.
  unfold chains. intros H Hin. destruct (chain t) eqn:C; [|reflexivity].
  assert (Hf : In t (filter chain ts)) by (apply filter_In; split; assumption).
  destruct (filter chain ts); [destruct Hf|discriminate].
Qed.

Lemma remove_at_In {A : Type} (k : nat) (l : list A) (a : A) :
  In a (remove_at k l) -> In a l.
Proof.
  revert l. induction k as [|k IH]; intros [|b l]; simpl; auto.
  intros [H|H]; auto.
Qed.

Section StagedSteps.

Variable sections : list SectionEl.

Lemma Staged_idle (s : State) : chains (tweens s) = O -> Staged sections s.
Proof.
  intros H targets node fx Hin. pose proof (chains_zero_In _ _ H Hin) as C. discriminate.
Qed.

Lemma Staged_transfer (s s' : State) :
  Staged sections s ->
  sectionIndex s' = sectionIndex s -> stepIndex s' = stepIndex s ->
  (forall targets node fx,
     In (StepFadeOut targets node fx) (tweens s') ->
     exists targets', In (StepFadeOut targets' node fx) (tweens s)) ->
  Staged sections s'.
Proof.
  intros HS E1 E2 H targets node fx Hin. rewrite E1, E2.
  destruct (H _ _ _ Hin) as (t' & H'). apply (HS _ _ _ H').
Qed.

Lemma Staged_show_render (sectionEl : SectionEl) (step : Z) (s : State) :
  item sections (sectionIndex s) = Some sectionEl ->
  stepIndex s = step ->
  Staged sections s ->
  Staged sections
    (state_of (showOutside sectionEl step (renderDeviceStep sectionEl step s))).
Proof.
  intros Hi Hst HS targets node fx Hin. subst step.
  rewrite showOutside_eq in Hin. rewrite showOutside_eq. simpl in Hin |- *.
  pose proof (position_render sectionEl (stepIndex s) s) as Hp.
  unfold position in Hp. injection Hp as Hp1 Hp2. rewrite Hp1, Hp2.
  apply in_app_or in Hin.
  destruct Hin as [Hin|Hin]; [|exfalso; apply (fade_not_enter _ _ _ _ Hin)].
  destruct (step_source sectionEl (stepIndex s)) as [[tpl el]|] eqn:E.
  - rewrite (render_swap _ _ _ _ _ E) in Hin. simpl in Hin.
    apply in_app_or in Hin. destruct Hin as [Hin|[Hin|[]]].
    + destruct (fade_in_kill _ _ _ _ _ Hin) as (t' & H'). apply (HS _ _ _ H').
    + inversion Hin; subst. exists sectionEl, tpl.
      unfold step_source in E.
      destruct (item (getStepTemplates sectionEl) (stepIndex s)) as [tpl'|];
        [|discriminate].
      destruct (st_content tpl') eqn:C; [|discriminate].
      inversion E; subst. simpl. repeat split; auto.
  - rewrite (render_skip _ _ _ E) in Hin. simpl in Hin.
    destruct (fade_in_kill _ _ _ _ _ Hin) as (t' & H'). apply (HS _ _ _ H').
Qed.

Lemma Staged_change_step (sectionEl : SectionEl) (step : Z) (s : State) :
  Inv sections s -> isAnimating s = false ->
  item sections (sectionIndex s) = Some sectionEl ->
  Staged sections (change_step sectionEl step s).
Proof.
  intros HI Hb Hi. unfold change_step. apply Staged_show_render.
  - rewrite hideOutside_eq. exact Hi.
  - rewrite hideOutside_eq. reflexivity.
  - apply Staged_idle. rewrite hideOutside_eq. simpl.
    pose proof (chains_hide (activeOutside s) (tweens s)) as Hc.
    pose proof (inv_idle _ _ HI Hb) as H0. lia.
Qed.

Lemma Staged_start_transition (nextIndex direction : Z) (next : SectionEl) (s : State) :
  Staged sections s -> Staged sections (start_transition nextIndex direction next s).
Proof.
  intros HS. apply (Staged_transfer s _ HS); [reflexivity|reflexivity|].
  simpl. intros targets node fx Hin. apply in_app_or in Hin. destruct Hin as [Hin|Hin].
  - apply (fade_in_hide _ _ _ _ _ Hin).
  - simpl in Hin. destruct Hin as [H|[H|[H|[]]]]; discriminate.
Qed.

Lemma Staged_complete (k : nat) (s : State) :
  Inv sections s -> Staged sections s -> Staged sections (complete sections k s).
Proof.
  intros HI HS. unfold complete.
  destruct (nth_error (tweens s) k) as [t|] eqn:N; [|exact HS].
  assert (Sr : Staged sections (set_tweens (remove_at k (tweens s)) s)).
  { apply (Staged_transfer s _ HS); [reflexivity|reflexivity|].
    simpl. intros targets node fx Hin. exists targets. apply (remove_at_In _ _ _ Hin). }
  destruct t; simpl.
  - apply (Staged_transfer _ _ Sr); [reflexivity|reflexivity|].
    simpl. intros targets node0 fx Hin. exists targets. exact Hin.
  - exact Sr.
  - apply (Staged_transfer _ _ Sr); [reflexivity|reflexivity|].
    simpl. intros targets0 node0 fx Hin. apply in_app_or in Hin.
    destruct Hin as [Hin|[Hin|[]]]; [|discriminate]. exists targets0. exact Hin.
  - apply (Staged_transfer _ _ Sr); [reflexivity|reflexivity|].
    simpl. intros targets node0 fx Hin. exists targets. exact Hin.
  - exact Sr.
  - exact Sr.
  - pose proof (inv_swap _ _ HI) as Hok. rewrite Forall_forall in Hok.
    specialize (Hok _ (nth_error_In _ _ N)). simpl in Hok. destruct Hok as [Hn _].
    destruct (item_in_range sections nextIndex Hn) as [next Hnext]. rewrite Hnext.
    apply Staged_show_render; [exact Hnext|reflexivity|].
    apply Staged_idle. simpl.
    apply (chains_remove_chain _ _ _ (inv_chain _ _ HI) N eq_refl).
Qed.

Lemma Staged_destroy (s : State) : Staged sections s -> Staged sections (destroy s).
Proof.
  intros HS. unfold destroy. rewrite hideOutside_eq.
  apply (Staged_transfer s _ HS); [reflexivity|reflexivity|].
  simpl. intros targets node fx Hin. apply (fade_in_hide _ _ _ _ _ Hin).
Qed.

Lemma Staged_handle (e : Event) (s : State) :
  Inv sections s -> Staged sections s -> Staged sections (handle sections e s).
Proof.
  intros HI HS. apply handle_preserves; auto.
  - intros. apply Staged_change_step; assumption.
  - intros. apply Staged_start_transition; assumption.
  - intros k. apply Staged_complete; assumption.
  - apply Staged_destroy; assumption.
Qed.

(** One turn of the event loop leaves the device content as it is, or is
    the completion of a fade-out, which puts the clone that fade-out
    carries in the device and starts its enter animation. *)
Lemma device_step (e : Event) (s : State) :
  deviceChildren (handle sections e s) = deviceChildren s \/
  exists k targets node fromX,
    e = Complete k /\
    nth_error (tweens s) k = Some (StepFadeOut targets node fromX) /\
    deviceChildren (handle sections e s) = [node] /\
    In (StepEnter node fromX) (tweens (handle sections e s)).
Proof.
  destruct e.
  - left. apply (input_frame sections OnDown s eq_refl).
  - left. apply (input_frame sections OnUp s eq_refl).
  - left. apply (input_frame sections (KeyDown key) s eq_refl).
  - simpl. unfold complete. destruct (nth_error (tweens s) k) as [t|] eqn:N; [|left; reflexivity].
    destruct t; simpl; try (left; reflexivity).
    + right. exists k, targets, node, fromX.
      split; [reflexivity|]. split; [exact N|]. split; [reflexivity|].
      apply in_or_app. right. left. reflexivity.
    + left. destruct (item sections nextIndex) as [next|]; [|reflexivity].
      match goal with
      | |- context [showOutside next entryStep (renderDeviceStep next entryStep ?s0)] =>
          destruct (kept_trans _ _ _ (kept_render next entryStep s0)
                      (kept_showOutside next entryStep (renderDeviceStep next entryStep s0)))
            as (_ & K2 & _)
      end.
      rewrite K2. reflexivity.
  - left. apply (destroy_frame s).
Qed.

End StagedSteps.

Lemma Staged_init (p : Page) (s0 : State) :
  navigator (initObserver p) = Some s0 -> Staged (pg_sections p) s0.
Proof.
  intros H. destruct (init_navigator p s0 H) as (section0 & rest & kids & Hs & Hd & _ & ->).
  match goal with |- Staged _ (set_listeners _ _ ?s) =>
    apply (Staged_transfer _ s); [|reflexivity|reflexivity|]
  end.
  - rewrite Hs. apply Staged_show_render; [reflexivity|reflexivity|].
    apply Staged_idle. reflexivity.
  - simpl. intros targets node fx Hin. exists targets. exact Hin.
Qed.

Lemma reachable_staged (p : Page) (s : State) :
  reachable p s -> Staged (pg_sections p) s.
Proof.
  induction 1 as [s0 H|s e Hr IH]; [apply Staged_init, H|].
  apply Staged_handle; [apply reachable_inv; exact Hr|exact IH].
Qed.

(** X5: the device content changes only when a fade-out completes.  It is
    then exactly the one node that fade-out carries, whose enter animation
    starts at once; in a running navigator that node is the clone of the
    template of the step the navigator stands on, entering from the offset
    the template's data-enter asks for. *)
Theorem device_content_changes_only_after_fade_out (p : Page) (e : Event) (s : State) :
  deviceChildren (handle (pg_sections p) e s) <> deviceChildren s ->
  completes_fade e s = true /\
  exists k targets node fromX,
    e = Complete k /\
    nth_error (tweens s) k = Some (StepFadeOut targets node fromX) /\
    deviceChildren (handle (pg_sections p) e s) = [node] /\
    In (StepEnter node fromX) (tweens (handle (pg_sections p) e s)) /\
    (reachable p s ->
     clone_of_step (pg_sections p) (sectionIndex s) (stepIndex s) node fromX).
Proof.
  intros H.
  destruct (device_step (pg_sections p) e s)
    as [E|(k & targets & node & fx & -> & N & D & T)]; [contradiction|].
  split; [simpl; rewrite N; reflexivity|].
  exists k, targets, node, fx. repeat split; auto.
  intros Hr. apply (reachable_staged p s Hr targets node fx).
  apply (nth_error_In _ _ N).
Qed.

Lemma device_content_changes_only_after_fade_out_witness :
  exists s, navigator (initObserver story_page) = Some s /\
    deviceChildren s = [] /\
    map node_html (deviceChildren (handle (pg_sections story_page) (Complete 0) s))
    = ["a0"%string] /\
    completes_fade (Complete 0) s = true /\
    exists node fromX,
      deviceChildren (handle (pg_sections story_page) (Complete 0) s) = [node] /\
      clone_of_step (pg_sections story_page) 0 0 node fromX.
Proof.
  eexists. split; [vm_compute; reflexivity|]. split; [reflexivity|].
  split; [reflexivity|].
  match goal with |- completes_fade _ ?s = true /\ _ =>
    destruct (device_content_changes_only_after_fade_out story_page (Complete 0) s)
      as (Hc & k & targets & node & fx & _ & _ & Hd & _ & Hcl);
      [vm_compute; discriminate|]
  end.
  split; [exact Hc|]. exists node, fx. split; [exact Hd|].
  apply Hcl. apply reach_init. vm_compute. reflexivity.
Defined.

(** X6: the device shows either what the page had in [#device-content] at
    initialization or exactly one node, and that node is a clone of the
    content of a step template of one of the page's sections: the swap
    always replaces the whole content, in every state of a running
    navigator. *)
Theorem device_holds_one_step (p : Page) (s : State) (kids : list Node) :
  reachable p s ->
  pg_device p = Some kids ->
  deviceChildren s = kids \/
  exists node, deviceChildren s = [node] /\ step_clone (pg_sections p) node.
Proof.
  intros Hr Hd. induction Hr as [s0 H|s e Hr IH].
  - left. apply (init_device p s0 kids H Hd).
  - destruct (device_step (pg_sections p) e s)
      as [E|(k & targets & node & fx & _ & N & D & _)]; [rewrite E; exact IH|].
    right. exists node. split; [exact D|].
    exists (sectionIndex s), (stepIndex s), fx.
    apply (reachable_staged p s Hr targets node fx). apply (nth_error_In _ _ N).
Qed.

Lemma device_holds_one_step_witness :
  exists s, replay story_page to_section_B = Some s /\
    map node_html (deviceChildren s) = ["b0"%string] /\
    (deviceChildren s = [] \/
     exists node, deviceChildren s = [node] /\ step_clone (pg_sections story_page) node).
Proof.
  eexists. split; [vm_compute; reflexivity|]. split; [reflexivity|].
  apply (device_holds_one_step story_page _ []).
  - apply (reachable_replay story_page to_section_B). vm_compute. reflexivity.
  - reflexivity.
Defined.

(** ** A data-position that names an inherited property *)

Lemma step_differs_false (tpl : OutsideTemplate) (step : Z) :
  step_differs tpl step = false <-> ot_step tpl = Some step.
Proof.
  unfold step_differs. destruct (ot_step tpl) as [z|]; [|split; discriminate].
  destruct (Z.eqb_spec z step) as [->|Hne]; simpl; split; intros H;
    try reflexivity; try discriminate.
  inversion H. contradiction.
Qed.

Lemma throws_spec (step : Z) (tpl : OutsideTemplate) :
  throws step tpl = true <->
  ot_step tpl = Some step /\ ot_position tpl = inherited_name /\ ot_content tpl <> None.
Proof.
  unfold throws. rewrite andb_true_iff, negb_true_iff, step_differs_false.
  destruct (ot_position tpl), (ot_content tpl); split;
    intros (H1 & H2); try discriminate; try (destruct H2; discriminate);
    try (destruct H2; congruence); repeat split; auto; discriminate.
Qed.

(** X18: [showOutside] throws exactly when the section has an outside
    template for the step whose data-position names an inherited property
    and whose content has a first element.  Whether it returns or throws,
    it has appended to the active set one clone per template it mounted,
    those among the templates ahead of the first such template, and it has
    left the position, the busy flag, the device content and the listeners
    as they were. *)
Theorem showOutside_throws_at_inherited_position
        (sectionEl : SectionEl) (step : Z) (s : State) :
  (threw (showOutside sectionEl step s) = true <->
   exists tpl, In tpl (getOutsideTemplates sectionEl) /\
               ot_step tpl = Some step /\ ot_position tpl = inherited_name /\
               ot_content tpl <> None) /\
  map label (activeOutside (showOutside sectionEl step s))
  = map label (activeOutside s)
      ++ shown_list (outsideLayers s) step
           (before_throw step (getOutsideTemplates sectionEl)) /\
  position (showOutside sectionEl step s) = position s /\
  isAnimating (showOutside sectionEl step s) = isAnimating s /\
  deviceChildren (showOutside sectionEl step s) = deviceChildren s /\
  observerOn (showOutside sectionEl step s) = observerOn s /\
  keydownOn (showOutside sectionEl step s) = keydownOn s.
Proof.
  split.
  - rewrite showOutside_threw. unfold will_throw. rewrite existsb_exists.
    split; intros (tpl & Hin & H); exists tpl; (split; [exact Hin|]);
      apply throws_spec; exact H.
  - rewrite showOutside_eq. unfold position. simpl.
    rewrite map_app, map_label_mk_nodes. repeat split.
Qed.

(** On the page whose section A has such a template for step 1, ahead of
    the badge: the request forward from step 0 moves to step 1 and renders
    it, [showOutside] throws before the badge is mounted, and once the
    animations have completed the navigator is idle on step 1 with no
    outside content; the next request is served. *)
Example inherited_position_on_a_step :
  exists s, boot inherited_page = Some s /\
    map label (activeOutside s) = [("hint"%string, left)] /\
    threw (showOutside story_A_inherited 1 s) = true /\
    let s1 := advance (pg_sections inherited_page) 1 s in
    position s1 = (0, 1) /\ isAnimating s1 = true /\ activeOutside s1 = [] /\
    let s2 := settle (pg_sections inherited_page) s1 in
    position s2 = (0, 1) /\ isAnimating s2 = false /\
    map node_html (deviceChildren s2) = ["a1"%string] /\
    position (advance_and_settle (pg_sections inherited_page) 1 s2) = (0, 2).
Proof.
  eexists. split; [vm_compute; reflexivity|]. vm_compute. repeat split.
Qed.

(** On a page whose first section has such a template for step 0,
    [initObserver] ends in that exception: nothing is returned and no
    listener is registered, while the first render, already handed to the
    engine, still runs. *)
Example inherited_position_at_init :
  teardown (initObserver inherited_first_page) = nothing /\
  exists s0, navigator (initObserver inherited_first_page) = Some s0 /\
    observerOn s0 = false /\ keydownOn s0 = false /\
    handle (pg_sections inherited_first_page) OnDown s0 = s0 /\
    map node_html (deviceChildren (settle (pg_sections inherited_first_page) s0))
    = ["c0"%string].
Proof.
  split; [reflexivity|]. eexists. split; [vm_compute; reflexivity|].
  vm_compute. repeat split.
Qed.
